(** * sqlm: the migration engine of worldiety/sqlm

    A shallow embedding of the Go sources [migration.go], [parse.go] and
    [writer.go].
    A Go [string] is a byte sequence and is modelled by [string]; an [int64]
    is a [Z]; a [rune] is a [Z] code point; a byte is a [Z] below 256.

    Part I holds the definitions, Part II the lemmas and theorems. *)

From Stdlib Require Import ZArith Lia Ascii String.
From stdpp Require Import base list strings gmap pretty sorting.

Local Open Scope Z_scope.

(** * Part I: definitions *)

(** ** Results and outcomes *)

(** A Go function returning [(T, error)]. *)
Inductive res (E A : Type) : Type :=
| Err (e : E)
| Ok (a : A).
Arguments Err {E A} e.
Arguments Ok {E A} a.

(** A Go function that returns a value or panics with one. *)
Inductive outcome (A : Type) : Type :=
| Returns (a : A)
| Panics (v : string).
Arguments Returns {A} a.
Arguments Panics {A} v.

(** ** Go strings: package [strings] on bytes *)

Module GoString.

Definition byte_of (c : ascii) : Z := Z.of_N (N_of_ascii c).
Definition ascii_of (b : Z) : ascii := ascii_of_N (Z.to_N b).

Fixpoint bytes (s : string) : list Z :=
  match s with
  | EmptyString => []
  | String c s' => byte_of c :: bytes s'
  end.

Fixpoint of_bytes (l : list Z) : string :=
  match l with
  | [] => EmptyString
  | b :: l' => String (ascii_of b) (of_bytes l')
  end.

(** The double quote, which the SQL texts of [migration.go] contain. *)
Definition dq : string := String (ascii_of 34) EmptyString.
Definition quoted (s : string) : string := (dq ++ s ++ dq)%string.
Definition nl : string := String (ascii_of 10) EmptyString.

(** [strings.Join(elems, sep)] *)
Fixpoint Join (elems : list string) (sep : string) : string :=
  match elems with
  | [] => EmptyString
  | [s] => s
  | s :: rest => (s ++ sep ++ Join rest sep)%string
  end.

(** [strings.HasPrefix(s, prefix)] *)
Fixpoint HasPrefix (s prefix : string) : bool :=
  match prefix, s with
  | EmptyString, _ => true
  | String _ _, EmptyString => false
  | String p prefix', String c s' => Ascii.eqb c p && HasPrefix s' prefix'
  end.

(** [strings.Contains(s, substr)] *)
Fixpoint Contains (s substr : string) : bool :=
  HasPrefix s substr ||
  match s with
  | EmptyString => false
  | String _ s' => Contains s' substr
  end.

End GoString.

(** ** Package [unicode/utf8] and the rune loops of Go *)

Module Utf8.

Import GoString.

Definition RuneError : Z := 0xFFFD.
Definition MaxRune : Z := 0x10FFFF.

(** The table [first] of the Go decoder: for a leading byte, the length of
    the sequence and the accepted range of its second byte. *)
Definition first (s0 : Z) : option (nat * Z * Z) :=
  if (0xC2 <=? s0) && (s0 <=? 0xDF) then Some (2%nat, 0x80, 0xBF)
  else if s0 =? 0xE0 then Some (3%nat, 0xA0, 0xBF)
  else if s0 =? 0xED then Some (3%nat, 0x80, 0x9F)
  else if (0xE1 <=? s0) && (s0 <=? 0xEF) then Some (3%nat, 0x80, 0xBF)
  else if s0 =? 0xF0 then Some (4%nat, 0x90, 0xBF)
  else if (0xF1 <=? s0) && (s0 <=? 0xF3) then Some (4%nat, 0x80, 0xBF)
  else if s0 =? 0xF4 then Some (4%nat, 0x80, 0x8F)
  else None.

Definition cont (b : Z) : bool := (0x80 <=? b) && (b <=? 0xBF).

(** [utf8.DecodeRuneInString] on the bytes of a non-empty string: the rune
    and its width; an invalid or short sequence is [(RuneError, 1)]. *)
Definition DecodeRune (s : list Z) : Z * nat :=
  match s with
  | [] => (RuneError, 0%nat)
  | s0 :: t =>
      if s0 <? 0x80 then (s0, 1%nat)
      else
        match first s0 with
        | None => (RuneError, 1%nat)
        | Some (sz, lo, hi) =>
            match t with
            | [] => (RuneError, 1%nat)
            | s1 :: t1 =>
                if (s1 <? lo) || (hi <? s1) then (RuneError, 1%nat)
                else if (sz <=? 2)%nat then
                  (Z.lor (Z.shiftl (Z.land s0 0x1F) 6) (Z.land s1 0x3F), 2%nat)
                else
                  match t1 with
                  | [] => (RuneError, 1%nat)
                  | s2 :: t2 =>
                      if negb (cont s2) then (RuneError, 1%nat)
                      else if (sz <=? 3)%nat then
                        (Z.lor (Z.lor (Z.shiftl (Z.land s0 0x0F) 12)
                                      (Z.shiftl (Z.land s1 0x3F) 6))
                               (Z.land s2 0x3F), 3%nat)
                      else
                        match t2 with
                        | [] => (RuneError, 1%nat)
                        | s3 :: _ =>
                            if negb (cont s3) then (RuneError, 1%nat)
                            else
                              (Z.lor (Z.lor (Z.lor (Z.shiftl (Z.land s0 0x07) 18)
                                                   (Z.shiftl (Z.land s1 0x3F) 12))
                                            (Z.shiftl (Z.land s2 0x3F) 6))
                                     (Z.land s3 0x3F), 4%nat)
                        end
                  end
            end
        end
  end.

(** [for _, r := range s]: the runes of [s] with the bytes each one was
    decoded from. [skip] counts the bytes of the current rune still to pass. *)
Fixpoint chunks_from (skip : nat) (s : list Z) : list (Z * list Z) :=
  match s with
  | [] => []
  | _ :: t =>
      match skip with
      | S k => chunks_from k t
      | O =>
          let '(r, size) := DecodeRune s in
          (r, take size s) :: chunks_from (size - 1) t
      end
  end.

Definition chunks (s : string) : list (Z * list Z) := chunks_from 0 (bytes s).
Definition runes (s : string) : list Z := (chunks s).*1.

(** [utf8.AppendRune], as [strings.Builder.WriteRune] uses it. *)
Definition EncodeRune (r : Z) : list Z :=
  if (0 <=? r) && (r <=? 0x7F) then [r]
  else if (0 <=? r) && (r <=? 0x7FF) then
    [Z.lor 0xC0 (Z.shiftr r 6); Z.lor 0x80 (Z.land r 0x3F)]
  else if (r <? 0) || (MaxRune <? r) || ((0xD800 <=? r) && (r <=? 0xDFFF)) then
    [0xEF; 0xBF; 0xBD]
  else if r <=? 0xFFFF then
    [Z.lor 0xE0 (Z.shiftr r 12);
     Z.lor 0x80 (Z.land (Z.shiftr r 6) 0x3F);
     Z.lor 0x80 (Z.land r 0x3F)]
  else
    [Z.lor 0xF0 (Z.shiftr r 18);
     Z.lor 0x80 (Z.land (Z.shiftr r 12) 0x3F);
     Z.lor 0x80 (Z.land (Z.shiftr r 6) 0x3F);
     Z.lor 0x80 (Z.land r 0x3F)].

(** [sb.WriteRune(r)] on the content of a [strings.Builder]. *)
Definition WriteRune (sb : string) (r : Z) : string :=
  (sb ++ of_bytes (EncodeRune r))%string.

(** [unicode.IsSpace]: the Latin-1 cases and the [White_Space] table. *)
Definition IsSpace (r : Z) : bool :=
  if (0 <=? r) && (r <=? 0xFF) then
    (r =? 9) || (r =? 10) || (r =? 11) || (r =? 12) || (r =? 13) || (r =? 32)
    || (r =? 0x85) || (r =? 0xA0)
  else
    (r =? 0x1680) || ((0x2000 <=? r) && (r <=? 0x200A)) || (r =? 0x2028)
    || (r =? 0x2029) || (r =? 0x202F) || (r =? 0x205F) || (r =? 0x3000).

Definition space_chunk (c : Z * list Z) : bool := IsSpace c.1.

Fixpoint drop_spaces (l : list (Z * list Z)) : list (Z * list Z) :=
  match l with
  | [] => []
  | c :: l' => if space_chunk c then drop_spaces l' else l
  end.

(** [strings.TrimSpace]: the string without its leading and trailing runes
    that are white space. *)
Definition TrimSpace (s : string) : string :=
  of_bytes (mjoin (rev (drop_spaces (rev (drop_spaces (chunks s))))).*2).

End Utf8.

(** ** Package [strconv]: [ParseInt(s, 10, 64)] *)

Module Strconv.

Import GoString.

Inductive NumError : Type := ErrSyntax | ErrRange.

Definition maxUint64 : Z := 2 ^ 64 - 1.
Definition maxInt64 : Z := 2 ^ 63 - 1.

(** The loop of [ParseUint] for base 10 and 64 bits, on the remaining bytes
    with the value [n] read so far. *)
Fixpoint ParseUint_loop (n : Z) (s : list Z) : res NumError Z :=
  match s with
  | [] => Ok n
  | c :: s' =>
      if (48 <=? c) && (c <=? 57) then
        let d := c - 48 in
        if maxUint64 / 10 + 1 <=? n then Err ErrRange
        else
          let n := (n * 10) mod 2 ^ 64 in
          let n1 := (n + d) mod 2 ^ 64 in
          if (n1 <? n) || (maxUint64 <? n1) then Err ErrRange
          else ParseUint_loop n1 s'
      else Err ErrSyntax
  end.

Definition ParseUint (s : list Z) : res NumError Z :=
  match s with
  | [] => Err ErrSyntax
  | _ => ParseUint_loop 0 s
  end.

(** [strconv.ParseInt(s, 10, 64)] *)
Definition ParseInt (s : string) : res NumError Z :=
  match bytes s with
  | [] => Err ErrSyntax
  | s0 :: t =>
      let neg := s0 =? 45 in
      let digits := if (s0 =? 43) || (s0 =? 45) then t else s0 :: t in
      match ParseUint digits with
      | Err e => Err e
      | Ok un =>
          let cutoff := 2 ^ 63 in
          if negb neg && (cutoff <=? un) then Err ErrRange
          else if neg && (cutoff <? un) then Err ErrRange
          else Ok (if neg then - un else un)
      end
  end.

End Strconv.

(** ** [crypto/sha256] and [encoding/hex]

    [hash] calls [sha256.Sum256] and [hex.EncodeToString] of the Go standard
    library; both are written out (FIPS 180-4) so that checksums evaluate. *)

Module Sha256.

Definition w32 (x : Z) : Z := x mod 2 ^ 32.
Definition add32 (x y : Z) : Z := w32 (x + y).
Definition rotr (n x : Z) : Z :=
  Z.lor (Z.shiftr x n) (w32 (Z.shiftl x (32 - n))).
Definition not32 (x : Z) : Z := 2 ^ 32 - 1 - x.

Definition Ch (x y z : Z) : Z := Z.lxor (Z.land x y) (Z.land (not32 x) z).
Definition Maj (x y z : Z) : Z :=
  Z.lxor (Z.lxor (Z.land x y) (Z.land x z)) (Z.land y z).
Definition Sigma0 (x : Z) : Z := Z.lxor (Z.lxor (rotr 2 x) (rotr 13 x)) (rotr 22 x).
Definition Sigma1 (x : Z) : Z := Z.lxor (Z.lxor (rotr 6 x) (rotr 11 x)) (rotr 25 x).
Definition sigma0 (x : Z) : Z := Z.lxor (Z.lxor (rotr 7 x) (rotr 18 x)) (Z.shiftr x 3).
Definition sigma1 (x : Z) : Z := Z.lxor (Z.lxor (rotr 17 x) (rotr 19 x)) (Z.shiftr x 10).

(** The round constant of round [t] (the array [_K] of the Go package). *)
Definition K_at (t : Z) : Z :=
  match t with
  | 0 => 0x428a2f98
  | 1 => 0x71374491
  | 2 => 0xb5c0fbcf
  | 3 => 0xe9b5dba5
  | 4 => 0x3956c25b
  | 5 => 0x59f111f1
  | 6 => 0x923f82a4
  | 7 => 0xab1c5ed5
  | 8 => 0xd807aa98
  | 9 => 0x12835b01
  | 10 => 0x243185be
  | 11 => 0x550c7dc3
  | 12 => 0x72be5d74
  | 13 => 0x80deb1fe
  | 14 => 0x9bdc06a7
  | 15 => 0xc19bf174
  | 16 => 0xe49b69c1
  | 17 => 0xefbe4786
  | 18 => 0x0fc19dc6
  | 19 => 0x240ca1cc
  | 20 => 0x2de92c6f
  | 21 => 0x4a7484aa
  | 22 => 0x5cb0a9dc
  | 23 => 0x76f988da
  | 24 => 0x983e5152
  | 25 => 0xa831c66d
  | 26 => 0xb00327c8
  | 27 => 0xbf597fc7
  | 28 => 0xc6e00bf3
  | 29 => 0xd5a79147
  | 30 => 0x06ca6351
  | 31 => 0x14292967
  | 32 => 0x27b70a85
  | 33 => 0x2e1b2138
  | 34 => 0x4d2c6dfc
  | 35 => 0x53380d13
  | 36 => 0x650a7354
  | 37 => 0x766a0abb
  | 38 => 0x81c2c92e
  | 39 => 0x92722c85
  | 40 => 0xa2bfe8a1
  | 41 => 0xa81a664b
  | 42 => 0xc24b8b70
  | 43 => 0xc76c51a3
  | 44 => 0xd192e819
  | 45 => 0xd6990624
  | 46 => 0xf40e3585
  | 47 => 0x106aa070
  | 48 => 0x19a4c116
  | 49 => 0x1e376c08
  | 50 => 0x2748774c
  | 51 => 0x34b0bcb5
  | 52 => 0x391c0cb3
  | 53 => 0x4ed8aa4a
  | 54 => 0x5b9cca4f
  | 55 => 0x682e6ff3
  | 56 => 0x748f82ee
  | 57 => 0x78a5636f
  | 58 => 0x84c87814
  | 59 => 0x8cc70208
  | 60 => 0x90befffa
  | 61 => 0xa4506ceb
  | 62 => 0xbef9a3f7
  | 63 => 0xc67178f2
  | _ => 0
  end.

Definition K : list Z := map (fun t => K_at (Z.of_nat t)) (seq 0 64).

Definition H0 : list Z :=
  [ 0x6a09e667; 0xbb67ae85; 0x3c6ef372; 0xa54ff53a;
    0x510e527f; 0x9b05688c; 0x1f83d9ab; 0x5be0cd19 ].

(** The [n] low bytes of [x], most significant first. *)
Definition be_bytes (n : nat) (x : Z) : list Z :=
  map (fun i => Z.shiftr x (8 * Z.of_nat i) mod 256) (rev (seq 0 n)).

(** Padding: 0x80, zeros up to 56 modulo 64, the bit length on 8 bytes. *)
Definition pad (msg : list Z) : list Z :=
  let len := Z.of_nat (length msg) in
  let zeros := Z.to_nat ((55 - len) mod 64) in
  msg ++ [0x80] ++ replicate zeros 0 ++ be_bytes 8 ((8 * len) mod 2 ^ 64).

Fixpoint be_words (l : list Z) : list Z :=
  match l with
  | a :: b :: c :: d :: l' =>
      (Z.shiftl a 24 + Z.shiftl b 16 + Z.shiftl c 8 + d) :: be_words l'
  | _ => []
  end.

(** The message schedule; [w] holds W(t-1), W(t-2), ..., most recent first. *)
Fixpoint schedule (n : nat) (w : list Z) : list Z :=
  match n with
  | O => w
  | S n' =>
      let wt := add32 (add32 (sigma1 (nth 1 w 0)) (nth 6 w 0))
                      (add32 (sigma0 (nth 14 w 0)) (nth 15 w 0)) in
      schedule n' (wt :: w)
  end.

Definition round (st : list Z) (kw : Z * Z) : list Z :=
  match st with
  | [a; b; c; d; e; f; g; h] =>
      let t1 := add32 (add32 (add32 h (Sigma1 e)) (add32 (Ch e f g) kw.1)) kw.2 in
      let t2 := add32 (Sigma0 a) (Maj a b c) in
      [add32 t1 t2; a; b; c; add32 d t1; e; f; g]
  | _ => st
  end.

Definition block (h : list Z) (blk : list Z) : list Z :=
  let w := rev (schedule 48 (rev (be_words blk))) in
  zip_with add32 h (fold_left round (zip K w) h).

Fixpoint blocks (fuel : nat) (h : list Z) (data : list Z) : list Z :=
  match fuel with
  | O => h
  | S fuel' =>
      match data with
      | [] => h
      | _ => blocks fuel' (block h (take 64 data)) (drop 64 data)
      end
  end.

(** [sha256.Sum256]: the 32 bytes of the digest. *)
Definition Sum256 (data : list Z) : list Z :=
  let p := pad data in
  flat_map (be_bytes 4) (blocks (length p) H0 p).

End Sha256.

Module Hex.

Definition hextable : string := "0123456789abcdef".

Definition digit (n : Z) : ascii :=
  match String.get (Z.to_nat n) hextable with
  | Some c => c
  | None => "0"%char
  end.

(** [hex.EncodeToString]: two lowercase hexadecimal digits per byte. *)
Fixpoint EncodeToString (src : list Z) : string :=
  match src with
  | [] => EmptyString
  | b :: src' =>
      String (digit (Z.shiftr b 4)) (String (digit (Z.land b 15)) (EncodeToString src'))
  end.

End Hex.

(** ** What the sources take from outside [src/]

    A cell of a result row and an argument of a statement are values of the
    database driver. *)

Inductive value : Type :=
| VString (s : string)
| VInt64 (n : Z)
| VTime (t : Z)
| VNull.

(** The parts of the Go runtime and of the repository the sources use and do
    not define: the case tables of package [unicode] above ASCII, the
    regular expression [commentsRegex] (declared in a file that is not part
    of [src/]), the wall clock behind [time.Now], and the conversions
    [rows.Scan] applies to a cell ([convertAssign] of [database/sql]), which
    hand a cell of the destination's own kind over unchanged. *)
Class Runtime : Type := {
  unicode_lower_table : Z -> Z;
  commentsRegex_ReplaceAllString : string -> string -> string;
  time_Now : nat -> Z;
  scan_string : value -> res string string;
  scan_int64 : value -> res string Z;
  scan_time : value -> res string Z;
  scan_string_same : forall s, scan_string (VString s) = Ok s;
  scan_int64_same : forall n, scan_int64 (VInt64 n) = Ok n;
  scan_time_same : forall t, scan_time (VTime t) = Ok t;
}.

(** ** Package [strings]: [ToLower] *)

Module Strings.

Import GoString Utf8.

Section WithRuntime.
Context {RT : Runtime}.

(** [unicode.ToLower]: ASCII is mapped directly, the rest by the tables. *)
Definition unicode_ToLower (r : Z) : Z :=
  if (0 <=? r) && (r <=? 0x7F) then
    if (65 <=? r) && (r <=? 90) then r + 32 else r
  else unicode_lower_table r.

(** [strings.Map(mapping, s)]: a negative result drops the rune. *)
Definition Map (mapping : Z -> Z) (s : string) : string :=
  of_bytes (mjoin (map (fun r => let m := mapping r in
                                 if m <? 0 then [] else EncodeRune m) (runes s))).

Definition isASCII (s : string) : bool := forallb (fun c => c <? 0x80) (bytes s).

(** [strings.ToLower]: bytes are mapped in place when all are ASCII. *)
Definition ToLower (s : string) : string :=
  if isASCII s then
    of_bytes (map (fun c => if (65 <=? c) && (c <=? 90) then c + 32 else c) (bytes s))
  else Map unicode_ToLower s.

End WithRuntime.

End Strings.

(** ** parse.go *)

Module Parse.

Import GoString Utf8 Strconv.

(** [fmt.Errorf("non terminated sql statement")] *)
Inductive parse_error : Type := ErrNonTerminated.

(** The loop of [extractVersion]: the digits of [name], in order. *)
Definition extractVersion_digits (name : string) : string :=
  fold_left (fun sb r => if (48 <=? r) && (r <=? 57) then WriteRune sb r else sb)
            (runes name) EmptyString.

Definition extractVersion (name : string) : outcome Z :=
  let sb := extractVersion_digits name in
  if (String.length sb =? 0)%nat then Returns (-1)
  else
    match ParseInt sb with
    | Err _ => Panics sb
    | Ok i => Returns i
    end.

(** The variables of the loop of [parseStatementsFromString]. *)
Record scanner : Type := Scanner {
  stmts : list string;
  sb : string;
  lastRune : Z;
}.

Definition scan_rune (st : scanner) (r : Z) : scanner :=
  if r =? 59 then
    let tmp := TrimSpace (sb st) in
    {| stmts := if (0 <? String.length tmp)%nat then stmts st ++ [tmp] else stmts st;
       sb := EmptyString;
       lastRune := lastRune st |}
  else
    let r := if (r =? 13) || (r =? 10) || (r =? 9) then 32 else r in
    if (lastRune st =? 32) && (r =? 32) then st
    else {| stmts := stmts st; sb := WriteRune (sb st) r; lastRune := r |}.

Section WithRuntime.
Context {RT : Runtime}.

Definition parseStatementsFromString (str : string) : res parse_error (list string) :=
  let rawStmts := commentsRegex_ReplaceAllString str " " in
  let st := fold_left scan_rune (runes rawStmts) (Scanner [] EmptyString 0) in
  if (0 <? String.length (TrimSpace (sb st)))%nat then Err ErrNonTerminated
  else Ok (stmts st).

End WithRuntime.

End Parse.

(** ** migration.go *)

(** [type HistoryEntry struct]; [AppliedAt] and [ExecutionDuration] are in
    nanoseconds. [Type], [Status] and [DBType] are string types. *)
Module HistoryEntry.
Record t : Type := mk {
  Group : string;
  Version : Z;
  Script : string;
  Type_ : string;
  Checksum : string;
  AppliedAt : Z;
  ExecutionDuration : Z;
  Status : string;
  Log : string;
}.
End HistoryEntry.
Abbreviation HistoryEntry := HistoryEntry.t.

(** [type Migration = struct] *)
Module Migration.
Record t : Type := mk {
  Group : string;
  Version : Z;
  Statements : list string;
  ScriptName : string;
}.
End Migration.
Abbreviation Migration := Migration.t.

(** The error of [execute]:
    [fmt.Errorf("failed to execute statement '%s': %w", stmt, err)]. *)
Record stmt_error : Type := StmtError {
  failed_stmt : string;
  failed_cause : string;
}.

(** The errors the functions of [migration.go] return, one constructor for
    each [fmt.Errorf] with what it formats; [ErrDriver] is an error of the
    database handle or of [rows.Scan], known by its message. *)
Inductive error : Type :=
| ErrDriver (msg : string)
| ErrUnknownBanner (str : string)
| ErrCannotSelectHistory (cause : error)
| ErrCannotScanEntry (cause : error)
| ErrCannotScanHistory
| ErrUnknownDatabaseType (cause : error)
| ErrCannotCreateTable (cause : error)
| ErrCannotGetHistory (cause : error)
| ErrDirty (entry : HistoryEntry)
| ErrModified (entry : HistoryEntry) (migration : Migration)
| ErrVersionNotUnique (m : Migration)
| ErrInsertHistory (cause : error)
| ErrExecuteMigration (group : string) (version : Z) (cause : stmt_error)
| ErrUpdateHistory (cause : error).

(** [*sql.Rows]: the rows [Next] delivers and what [Err] reports after. *)
Record Rows : Type := mkRows {
  rows_cells : list (list value);
  rows_Err : option string;
}.

(** [type DB interface]: a handle on a database in state [S]. The
    [sql.Result] of [Exec] is dropped by every caller and left out. *)
Class DB (S : Type) : Type := {
  Exec : S -> string -> list value -> S * option string;
  Query : S -> string -> list value -> S * res string Rows;
}.

(** The functions of [migration.go] calling the handle. *)
Inductive site : Type :=
| AtVersion | AtCreateTable | AtHistory | AtInsert | AtUpdate | AtExecute.

(** One call of the handle: who called, with what, and the error it gave. *)
Record event : Type := Event {
  ev_site : site;
  ev_query : string;
  ev_args : list value;
  ev_err : option string;
}.

(** The state a call of [Apply] works on: the database, the number of
    readings of the clock so far, and the calls of the handle so far. *)
Record world (S : Type) : Type := World {
  w_db : S;
  w_clock : nat;
  w_trace : list event;
}.
Arguments World {S} _ _ _.
Arguments w_db {S} _.
Arguments w_clock {S} _.
Arguments w_trace {S} _.

Definition M (S E A : Type) : Type := world S -> res E A * world S.

Definition ret {S E A} (a : A) : M S E A := fun w => (Ok a, w).

Definition bind {S E A B} (m : M S E A) (k : A -> M S E B) : M S E B :=
  fun w => match m w with
           | (Ok a, w') => k a w'
           | (Err e, w') => (Err e, w')
           end.

(** [if err != nil { return fmt.Errorf("...: %w", err) }] *)
Definition wrap {S E E' A} (f : E -> E') (m : M S E A) : M S E' A :=
  fun w => match m w with
           | (Ok a, w') => (Ok a, w')
           | (Err e, w') => (Err (f e), w')
           end.

Definition lift {S E A} (r : res E A) : M S E A := fun w => (r, w).

Notation "'let*' x ':=' m 'in' k" := (bind m (fun x => k))
  (at level 10, x pattern, m at level 100, k at level 200).

Module Sqlm.

Import GoString Strings.

Definition SQL : string := "sql".
Definition Success : string := "success".
Definition Failed : string := "failed".
Definition Pending : string := "pending".
Definition Executing : string := "executing".
Definition PostgreSQL : string := "postgresql".
Definition MySQL : string := "mysql".

Definition history_columns : list string :=
  ["group"; "version"; "script"; "type"; "checksum"; "applied_at";
   "execution_duration"; "status"; "log"].

Definition createMigrationTable : string :=
  ("CREATE TABLE IF NOT EXISTS " ++ quoted "migration_schema_history" ++ nl ++
   "(" ++ nl ++
   "    " ++ quoted "group" ++ "              VARCHAR(255) NOT NULL," ++ nl ++
   "    " ++ quoted "version" ++ "            BIGINT       NOT NULL," ++ nl ++
   "    " ++ quoted "script" ++ "             VARCHAR(255) NOT NULL," ++ nl ++
   "    " ++ quoted "type" ++ "               VARCHAR(12)  NOT NULL," ++ nl ++
   "    " ++ quoted "checksum" ++ "           CHAR(64)     NOT NULL," ++ nl ++
   "    " ++ quoted "applied_at" ++ "         TIMESTAMP    NOT NULL," ++ nl ++
   "    " ++ quoted "execution_duration" ++ " BIGINT       NOT NULL," ++ nl ++
   "    " ++ quoted "status" ++ "             VARCHAR(12)  NOT NULL," ++ nl ++
   "    " ++ quoted "log" ++ "                TEXT         NOT NULL," ++ nl ++
   "    PRIMARY KEY (" ++ quoted "group" ++ ", " ++ quoted "version" ++ ")" ++ nl ++
   ")")%string.

Definition versionQuery : string := "SELECT version()".

Definition historyQuery : string :=
  ("SELECT " ++ quoted "group" ++ ", " ++ quoted "version" ++ ", " ++ quoted "script"
   ++ ", " ++ quoted "type" ++ ", " ++ quoted "checksum" ++ ", " ++ quoted "applied_at"
   ++ ", " ++ quoted "execution_duration" ++ ", " ++ quoted "status" ++ ","
   ++ quoted "log" ++ " FROM " ++ quoted "migration_schema_history")%string.

Definition insert_into : string :=
  ("INSERT INTO " ++ quoted "migration_schema_history" ++ " ("
   ++ Join (map quoted history_columns) ", " ++ ") VALUES ")%string.

Definition insertMySQL : string := (insert_into ++ "(?,?,?,?,?,?,?,?,?)")%string.
Definition insertPostgreSQL : string :=
  (insert_into ++ "($1,$2,$3,$4,$5,$6,$7,$8,$9)")%string.

Definition updateMySQL : string :=
  ("UPDATE " ++ quoted "migration_schema_history" ++ " SET " ++ quoted "script" ++ "=?, "
   ++ quoted "type" ++ "=?, " ++ quoted "checksum" ++ "=?, " ++ quoted "applied_at"
   ++ "=?, " ++ quoted "execution_duration" ++ "=?, " ++ quoted "status" ++ "=?, "
   ++ quoted "log" ++ "=? WHERE " ++ quoted "group" ++ "=? and " ++ quoted "version"
   ++ "=?")%string.
Definition updatePostgreSQL : string :=
  ("UPDATE migration_schema_history SET " ++ quoted "script" ++ "=$1, "
   ++ quoted "type" ++ "=$2, " ++ quoted "checksum" ++ "=$3, " ++ quoted "applied_at"
   ++ "=$4, " ++ quoted "execution_duration" ++ "=$5, " ++ quoted "status"
   ++ "=$6, log=$7 WHERE " ++ quoted "group" ++ "=$8 and " ++ quoted "version"
   ++ "=$9")%string.

Definition hash (m : Migration) : string :=
  Hex.EncodeToString (Sha256.Sum256 (bytes (Join (Migration.Statements m) ";"))).

(** [sort.Slice]: the library promises a sorted permutation and no more;
    this is the insertion sort it runs on short slices. *)
Fixpoint insertionSort_place {A} (less : A -> A -> bool) (x : A) (l : list A) : list A :=
  match l with
  | [] => [x]
  | y :: l' => if less x y then x :: l else y :: insertionSort_place less x l'
  end.

Definition sort_Slice {A} (less : A -> A -> bool) (l : list A) : list A :=
  fold_left (fun acc x => insertionSort_place less x acc) l [].

(** [for k := range m]: Go leaves the order of the keys open. The order
    is drawn by [seed]: each number picks one of the keys still to come. *)
Fixpoint pick_order {A} (seed : list nat) (l : list A) : list A :=
  match seed with
  | [] => l
  | i :: seed' =>
      match l !! (i mod length l)%nat with
      | Some x => x :: pick_order seed' (delete (i mod length l)%nat l)
      | None => []
      end
  end.

Definition range_keys {V} (seed : list nat) (m : gmap string V) : list string :=
  pick_order seed (map_to_list m).*1.

(** [time.Time.Sub]: the difference, kept inside [int64]. *)
Definition time_Sub (t u : Z) : Z :=
  Z.max (- 2 ^ 63) (Z.min (2 ^ 63 - 1) (t - u)).

(** The loop [for _, entry := range entries] of the dirty check. *)
Fixpoint check_dirty (entries : list HistoryEntry) : res error unit :=
  match entries with
  | [] => Ok tt
  | entry :: rest =>
      if negb (String.eqb (HistoryEntry.Status entry) Success) then Err (ErrDirty entry)
      else check_dirty rest
  end.

(** The inner loop over [entries] for one migration: [alreadyApplied]. *)
Fixpoint already_applied (migration : Migration) (entries : list HistoryEntry)
  : res error bool :=
  match entries with
  | [] => Ok false
  | entry :: rest =>
      if String.eqb (Migration.Group migration) (HistoryEntry.Group entry)
         && (Migration.Version migration =? HistoryEntry.Version entry)
      then
        if negb (String.eqb (hash migration) (HistoryEntry.Checksum entry))
        then Err (ErrModified entry migration)
        else Ok true
      else already_applied migration rest
  end.

(** The loop that groups the migrations not applied yet. *)
Fixpoint group_pending (entries : list HistoryEntry) (migrations : list Migration)
    (groups : gmap string (list Migration)) : res error (gmap string (list Migration)) :=
  match migrations with
  | [] => Ok groups
  | migration :: rest =>
      match already_applied migration entries with
      | Err e => Err e
      | Ok alreadyApplied =>
          if alreadyApplied then group_pending entries rest groups
          else
            let candidatesPerGroup := default [] (groups !! Migration.Group migration) in
            let candidatesPerGroup := candidatesPerGroup ++ [migration] in
            group_pending entries rest (<[Migration.Group migration := candidatesPerGroup]> groups)
      end
  end.

(** The loop [for _, m := range candidates] of the uniqueness check; the
    source never assigns [strictMonotonicVersion] in it. *)
Fixpoint check_versions (strictMonotonicVersion : Z) (candidates : list Migration)
  : res error unit :=
  match candidates with
  | [] => Ok tt
  | m :: rest =>
      if Migration.Version m <=? strictMonotonicVersion then Err (ErrVersionNotUnique m)
      else check_versions strictMonotonicVersion rest
  end.

(** The uniqueness check over the groups in the order [keys]. [sort.Slice]
    sorts the slice the map holds (the loop variable shares its array), so
    the groups visited stay sorted in [groups]. *)
Fixpoint uniqueness_check (keys : list string) (groups : gmap string (list Migration))
  : res error (gmap string (list Migration)) :=
  match keys with
  | [] => Ok groups
  | k :: rest =>
      let candidates :=
        sort_Slice (fun a b => Migration.Version a <? Migration.Version b)
                   (default [] (groups !! k)) in
      let groups := <[k := candidates]> groups in
      match check_versions (-1) candidates with
      | Err e => Err e
      | Ok _ => uniqueness_check rest groups
      end
  end.

Section WithDB.
Context {RT : Runtime} {S : Type} {DBI : DB S}.

Definition call_Exec (at_ : site) (query : string) (args : list value) : M S string unit :=
  fun w =>
    let '(db, r) := Exec (w_db w) query args in
    let w' := World db (w_clock w) (w_trace w ++ [Event at_ query args r]) in
    match r with
    | None => (Ok tt, w')
    | Some e => (Err e, w')
    end.

Definition call_Query (at_ : site) (query : string) (args : list value) : M S string Rows :=
  fun w =>
    let '(db, r) := Query (w_db w) query args in
    let e := match r with Err e => Some e | Ok _ => None end in
    (r, World db (w_clock w) (w_trace w ++ [Event at_ query args e])).

(** [time.Now()] *)
Definition time_now {E} : M S E Z :=
  fun w => (Ok (time_Now (w_clock w)), World (w_db w) (Datatypes.S (w_clock w)) (w_trace w)).

Definition scan_arity (want got : nat) : string :=
  ("sql: expected " ++ pretty got ++ " destination arguments in Scan, not "
   ++ pretty want)%string.

(** [for rows.Next() { rows.Scan(&str) }] of [version]. *)
Fixpoint version_scan (cells : list (list value)) (str : string) : res string string :=
  match cells with
  | [] => Ok str
  | row :: rest =>
      match row with
      | [c] =>
          match scan_string c with
          | Err e => Err e
          | Ok str => version_scan rest str
          end
      | _ => Err (scan_arity 1 (length row))
      end
  end.

(** [version] from the lowering of the banner on. *)
Definition version_of (str : string) : res error string :=
  let str := ToLower str in
  if Contains str "postgresql" then Ok PostgreSQL
  else if Contains str "mariadb" then Ok MySQL
  else if Contains str "mysql" then Ok MySQL
  else Err (ErrUnknownBanner str).

Definition version : M S error string :=
  let* rows := wrap ErrDriver (call_Query AtVersion versionQuery []) in
  let* str := wrap ErrDriver (lift (version_scan (rows_cells rows) EmptyString)) in
  lift (version_of str).

Definition entry_args_insert (entry : HistoryEntry) : list value :=
  [VString (HistoryEntry.Group entry); VInt64 (HistoryEntry.Version entry);
   VString (HistoryEntry.Script entry); VString (HistoryEntry.Type_ entry);
   VString (HistoryEntry.Checksum entry); VTime (HistoryEntry.AppliedAt entry);
   VInt64 (HistoryEntry.ExecutionDuration entry); VString (HistoryEntry.Status entry);
   VString (HistoryEntry.Log entry)].

Definition entry_args_update (entry : HistoryEntry) : list value :=
  [VString (HistoryEntry.Script entry); VString (HistoryEntry.Type_ entry);
   VString (HistoryEntry.Checksum entry); VTime (HistoryEntry.AppliedAt entry);
   VInt64 (HistoryEntry.ExecutionDuration entry); VString (HistoryEntry.Status entry);
   VString (HistoryEntry.Log entry); VString (HistoryEntry.Group entry);
   VInt64 (HistoryEntry.Version entry)].

Definition insert (dbtype : string) (entry : HistoryEntry) : M S error unit :=
  let stmt :=
    if String.eqb dbtype MySQL then insertMySQL
    else if String.eqb dbtype PostgreSQL then insertPostgreSQL
    else EmptyString in
  wrap ErrDriver (call_Exec AtInsert stmt (entry_args_insert entry)).

Definition update (dbtype : string) (entry : HistoryEntry) : M S error unit :=
  let stmt :=
    if String.eqb dbtype MySQL then updateMySQL
    else if String.eqb dbtype PostgreSQL then updatePostgreSQL
    else EmptyString in
  wrap ErrDriver (call_Exec AtUpdate stmt (entry_args_update entry)).

Fixpoint execute_stmts (stmts : list string) : M S stmt_error unit :=
  match stmts with
  | [] => ret tt
  | stmt :: rest =>
      let* _ := wrap (StmtError stmt) (call_Exec AtExecute stmt []) in
      execute_stmts rest
  end.

Definition execute (migration : Migration) : M S stmt_error unit :=
  execute_stmts (Migration.Statements migration).

(** [err.Error()] of the error of [execute]. *)
Definition stmt_error_Error (e : stmt_error) : string :=
  ("failed to execute statement '" ++ failed_stmt e ++ "': " ++ failed_cause e)%string.

Definition CreateTable : M S error unit :=
  wrap ErrDriver (call_Exec AtCreateTable createMigrationTable []).

Definition scan_entry (row : list value) : res string HistoryEntry :=
  match row with
  | [c1; c2; c3; c4; c5; c6; c7; c8; c9] =>
      match scan_string c1 with Err e => Err e | Ok group =>
      match scan_int64 c2 with Err e => Err e | Ok version =>
      match scan_string c3 with Err e => Err e | Ok script =>
      match scan_string c4 with Err e => Err e | Ok type_ =>
      match scan_string c5 with Err e => Err e | Ok checksum =>
      match scan_time c6 with Err e => Err e | Ok appliedAt =>
      match scan_int64 c7 with Err e => Err e | Ok duration =>
      match scan_string c8 with Err e => Err e | Ok status =>
      match scan_string c9 with Err e => Err e | Ok log =>
        Ok (HistoryEntry.mk group version script type_ checksum appliedAt duration
              status log)
      end end end end end end end end end
  | _ => Err (scan_arity 9 (length row))
  end.

Fixpoint History_scan (cells : list (list value)) (res_ : list HistoryEntry)
  : res error (list HistoryEntry) :=
  match cells with
  | [] => Ok res_
  | row :: rest =>
      match scan_entry row with
      | Err e => Err (ErrCannotScanEntry (ErrDriver e))
      | Ok entry => History_scan rest (res_ ++ [entry])
      end
  end.

Definition History : M S error (list HistoryEntry) :=
  let* rows := wrap (fun e => ErrCannotSelectHistory (ErrDriver e))
                    (call_Query AtHistory historyQuery []) in
  let* res_ := lift (History_scan (rows_cells rows) []) in
  match rows_Err rows with
  | Some _ => lift (Err ErrCannotScanHistory)
  | None => ret res_
  end.

(** The body of the loop [for _, migration := range candidates] that
    applies one pending migration. *)
Definition apply_migration (dbType : string) (migration : Migration) : M S error unit :=
  let* appliedAt := time_now in
  let entry :=
    HistoryEntry.mk (Migration.Group migration) (Migration.Version migration)
      (Migration.ScriptName migration) SQL (hash migration) appliedAt 0 Executing
      EmptyString in
  let* start := time_now in
  let* _ := wrap ErrInsertHistory (insert dbType entry) in
  fun w =>
    match execute migration w with
    | (Err err, w') =>
        let entry :=
          HistoryEntry.mk (HistoryEntry.Group entry) (HistoryEntry.Version entry)
            (HistoryEntry.Script entry) (HistoryEntry.Type_ entry)
            (HistoryEntry.Checksum entry) (HistoryEntry.AppliedAt entry)
            (HistoryEntry.ExecutionDuration entry) Failed (stmt_error_Error err) in
        let '(_, w'') := update dbType entry w' in
        (Err (ErrExecuteMigration (Migration.Group migration)
                (Migration.Version migration) err), w'')
    | (Ok _, w') =>
        (let* finished := time_now in
         let entry :=
           HistoryEntry.mk (HistoryEntry.Group entry) (HistoryEntry.Version entry)
             (HistoryEntry.Script entry) (HistoryEntry.Type_ entry)
             (HistoryEntry.Checksum entry) (HistoryEntry.AppliedAt entry)
             (time_Sub finished start) Success (HistoryEntry.Log entry) in
         wrap ErrUpdateHistory (update dbType entry)) w'
    end.

Fixpoint apply_candidates (dbType : string) (candidates : list Migration) : M S error unit :=
  match candidates with
  | [] => ret tt
  | migration :: rest =>
      let* _ := apply_migration dbType migration in
      apply_candidates dbType rest
  end.

Fixpoint apply_groups (dbType : string) (keys : list string)
    (groups : gmap string (list Migration)) : M S error unit :=
  match keys with
  | [] => ret tt
  | k :: rest =>
      let* _ := apply_candidates dbType (default [] (groups !! k)) in
      apply_groups dbType rest groups
  end.

(** [Apply]. The two [range] loops over the map [groups] visit its keys in
    the orders drawn by [seed1] and [seed2]. The mutex serialises the calls
    of one process and does not show in a single call. *)
Definition Apply (seed1 seed2 : list nat) (migrations : list Migration) : M S error unit :=
  let* dbType := wrap ErrUnknownDatabaseType version in
  let* _ := wrap ErrCannotCreateTable CreateTable in
  let* entries := wrap ErrCannotGetHistory History in
  let* _ := lift (check_dirty entries) in
  let* groups := lift (group_pending entries migrations ∅) in
  let* groups := lift (uniqueness_check (range_keys seed1 groups) groups) in
  apply_groups dbType (range_keys seed2 groups) groups.

End WithDB.

End Sqlm.

(** ** A database for the history table

    [Apply] sees its database through [Exec] and [Query] only. This handle
    gives the history table the behaviour the engine relies on: the table
    is keyed by (group, version), an insert of a present key fails, an
    update rewrites the row of its key, and the history query returns the
    rows. Every other statement is one of the caller: [run_statement] runs
    it on the caller's own data [U] and does not reach the history table. *)

Module RefDB.

Import GoString Sqlm.

Class UserSQL (U : Type) : Type :=
  run_statement : U -> string -> U * option string.

(** The columns of a row besides its key. *)
Record columns : Type := Columns {
  c_script : string;
  c_type : string;
  c_checksum : string;
  c_applied_at : Z;
  c_execution_duration : Z;
  c_status : string;
  c_log : string;
}.

Record t (U : Type) : Type := mk {
  postgres : bool;
  table : option (gmap (string * Z) columns);
  user : U;
}.
Arguments mk {U} _ _ _.
Arguments postgres {U} _.
Arguments table {U} _.
Arguments user {U} _.

Definition banner (pg : bool) : string :=
  if pg then "PostgreSQL 12.2 on x86_64-apple-darwin19.4.0, 64-bit"
  else "10.4.11-MariaDB".

Definition dialect {U} (db : t U) : string :=
  if postgres db then PostgreSQL else MySQL.

Definition insert_stmt (pg : bool) : string :=
  if pg then insertPostgreSQL else insertMySQL.
Definition update_stmt (pg : bool) : string :=
  if pg then updatePostgreSQL else updateMySQL.

Definition key (entry : HistoryEntry) : string * Z :=
  (HistoryEntry.Group entry, HistoryEntry.Version entry).

Definition columns_of (entry : HistoryEntry) : columns :=
  Columns (HistoryEntry.Script entry) (HistoryEntry.Type_ entry)
    (HistoryEntry.Checksum entry) (HistoryEntry.AppliedAt entry)
    (HistoryEntry.ExecutionDuration entry) (HistoryEntry.Status entry)
    (HistoryEntry.Log entry).

Definition entry_of (k : string * Z) (c : columns) : HistoryEntry :=
  HistoryEntry.mk k.1 k.2 (c_script c) (c_type c) (c_checksum c) (c_applied_at c)
    (c_execution_duration c) (c_status c) (c_log c).

Definition row_of (k : string * Z) (c : columns) : list value :=
  [VString k.1; VInt64 k.2; VString (c_script c); VString (c_type c);
   VString (c_checksum c); VTime (c_applied_at c); VInt64 (c_execution_duration c);
   VString (c_status c); VString (c_log c)].

Definition entry_of_insert (args : list value) : option HistoryEntry :=
  match args with
  | [VString group; VInt64 version; VString script; VString type_; VString checksum;
     VTime appliedAt; VInt64 duration; VString status; VString log] =>
      Some (HistoryEntry.mk group version script type_ checksum appliedAt duration
              status log)
  | _ => None
  end.

Definition entry_of_update (args : list value) : option HistoryEntry :=
  match args with
  | [VString script; VString type_; VString checksum; VTime appliedAt; VInt64 duration;
     VString status; VString log; VString group; VInt64 version] =>
      Some (HistoryEntry.mk group version script type_ checksum appliedAt duration
              status log)
  | _ => None
  end.

(** The rows of the history table, as entries. *)
Definition history {U} (db : t U) : list HistoryEntry :=
  map (fun kc => entry_of kc.1 kc.2) (map_to_list (default ∅ (table db))).

(** The row of a group and version, if the table has one. *)
Definition lookup_row {U} (db : t U) (k : string * Z) : option HistoryEntry :=
  entry_of k <$> default ∅ (table db) !! k.

Section WithUser.
Context {U : Type} {USQL : UserSQL U}.

Definition exec (db : t U) (query : string) (args : list value) : t U * option string :=
  if String.eqb query createMigrationTable then
    (mk (postgres db) (Some (default ∅ (table db))) (user db), None)
  else if String.eqb query (insert_stmt (postgres db)) then
    match table db, entry_of_insert args with
    | None, _ => (db, Some "table migration_schema_history does not exist")
    | _, None => (db, Some "wrong arguments")
    | Some rows, Some entry =>
        match rows !! key entry with
        | Some _ => (db, Some "duplicate key")
        | None =>
            (mk (postgres db) (Some (<[key entry := columns_of entry]> rows)) (user db),
             None)
        end
    end
  else if String.eqb query (update_stmt (postgres db)) then
    match table db, entry_of_update args with
    | None, _ => (db, Some "table migration_schema_history does not exist")
    | _, None => (db, Some "wrong arguments")
    | Some rows, Some entry =>
        (mk (postgres db)
            (Some (alter (fun _ => columns_of entry) (key entry) rows)) (user db),
         None)
    end
  else
    let '(u, r) := run_statement (user db) query in
    (mk (postgres db) (table db) u, r).

Definition query (db : t U) (query : string) (args : list value) : t U * res string Rows :=
  if String.eqb query versionQuery then
    (db, Ok (mkRows [[VString (banner (postgres db))]] None))
  else if String.eqb query historyQuery then
    match table db with
    | None => (db, Err "table migration_schema_history does not exist")
    | Some rows => (db, Ok (mkRows (map (fun kc => row_of kc.1 kc.2) (map_to_list rows)) None))
    end
  else (db, Err "unknown query").

#[export] Instance handle : DB (t U) := {| Exec := exec; Query := query |}.

End WithUser.

End RefDB.


(** ** Vocabulary of the statements of Part II *)

Module Spec.

Import GoString Utf8.

(** The digit characters of a file name, in order. *)
Definition digit_runes (name : string) : list Z :=
  filter (fun r => 48 <= r <= 57) (runes name).

(** The number a sequence of decimal digits denotes. *)
Definition decimal (ds : list Z) : Z :=
  fold_left (fun acc d => 10 * acc + (d - 48)) ds 0.

(** A statement as the splitter of [parse.go] hands it out: not empty and
    without the separator [;]. *)
Definition plain_statement (s : string) : Prop :=
  s <> EmptyString /\ 59 ∉ bytes s.

(** The text [hash] digests. *)
Definition hashed_text (m : Migration) : string :=
  Join (Migration.Statements m) ";".

(** The calls of the handle made from [w] to [w']. *)
Definition calls_since {S} (w w' : world S) : list event :=
  drop (length (w_trace w)) (w_trace w').

(** The identity of a migration and of a history entry. *)
Definition migration_key (m : Migration) : string * Z :=
  (Migration.Group m, Migration.Version m).
Definition entry_key (e : HistoryEntry) : string * Z :=
  (HistoryEntry.Group e, HistoryEntry.Version e).

(** A supplied migration with no history row of its identity is pending. *)
Definition is_pending (entries : list HistoryEntry) (m : Migration) : bool :=
  negb (existsb (fun e => String.eqb (Migration.Group m) (HistoryEntry.Group e)
                          && (Migration.Version m =? HistoryEntry.Version e)) entries).

(** The pending candidates of group [g], in the order supplied. *)
Definition candidates_of (entries : list HistoryEntry) (migrations : list Migration)
    (g : string) : list Migration :=
  filter (fun m => Migration.Group m = g) (filter (fun m => is_pending entries m) migrations).

(** The migrations a run started, by the history rows it inserted (or tried
    to): group and version of each [insert], in the order of the calls. *)
Definition started (evs : list event) : list (string * Z) :=
  omap (fun e => match ev_site e, ev_args e with
                 | AtInsert, VString g :: VInt64 v :: _ => Some (g, v)
                 | _, _ => None
                 end) evs.

Definition versions_in (g : string) (l : list (string * Z)) : list Z :=
  (filter (fun p => p.1 = g) l).*2.

(** The statements of the caller a run executed, failed ones included. *)
Definition executed (evs : list event) : list string :=
  omap (fun e => match ev_site e with
                 | AtExecute => Some (ev_query e)
                 | _ => None
                 end) evs.

(** The history row of a migration while it runs, and after. *)
Definition entry_executing (m : Migration) (appliedAt : Z) : HistoryEntry :=
  HistoryEntry.mk (Migration.Group m) (Migration.Version m) (Migration.ScriptName m)
    Sqlm.SQL (Sqlm.hash m) appliedAt 0 Sqlm.Executing EmptyString.
Definition entry_failed (m : Migration) (appliedAt : Z) (err : stmt_error) : HistoryEntry :=
  HistoryEntry.mk (Migration.Group m) (Migration.Version m) (Migration.ScriptName m)
    Sqlm.SQL (Sqlm.hash m) appliedAt 0 Sqlm.Failed (Sqlm.stmt_error_Error err).
Definition entry_success (m : Migration) (appliedAt duration : Z) : HistoryEntry :=
  HistoryEntry.mk (Migration.Group m) (Migration.Version m) (Migration.ScriptName m)
    Sqlm.SQL (Sqlm.hash m) appliedAt duration Sqlm.Success EmptyString.


(** The candidates in the order the last loop of [Apply] takes them. *)
Definition plan (keys : list string) (groups : gmap string (list Migration))
  : list Migration :=
  mjoin (map (fun k => default [] (groups !! k)) keys).

(** The value of the digits [ds] read after the value [n]. *)
Definition value_from (n : Z) (ds : list Z) : Z :=
  fold_left (fun acc d => 10 * acc + (d - 48)) ds n.

(** [strings.Join] with [;] on bytes. *)
Fixpoint join_bytes (l : list (list Z)) : list Z :=
  match l with
  | [] => []
  | [s] => s
  | s :: rest => s ++ 59 :: join_bytes rest
  end.

(** The value of a hexadecimal digit. *)
Definition undigit (c : ascii) : Z :=
  let n := byte_of c in if n <? 58 then n - 48 else n - 87.

(** The order [sort.Slice] is called with in [Apply]. *)
Definition by_version (a b : Migration) : bool :=
  Migration.Version a <? Migration.Version b.


(** A rune that has an encoding of its own. *)
Definition valid (r : Z) : Prop :=
  0 <= r <= 0x10FFFF /\ ~ (0xD800 <= r <= 0xDFFF).

Definition norm (r : Z) : Z :=
  if (0 <=? r) && (r <=? 0x10FFFF) && negb ((0xD800 <=? r) && (r <=? 0xDFFF))
  then r else RuneError.

Definition encode_all (rs : list Z) : list Z := mjoin (map EncodeRune rs).

(** The builder holds the encodings of the runes written to it. *)
Definition written (rs : list Z) (s : string) : Prop :=
  Forall valid rs /\ s = of_bytes (encode_all rs).

(** Past a rune that is not white space, and as long as no [;] comes, the
    builder keeps such a rune. *)
Definition holds_text (s : string) : Prop :=
  exists rs r, written rs s /\ r ∈ rs /\ IsSpace r = false.

Section WithDB.
Context {RT : Runtime} {S : Type} {DBI : DB S}.

(** The first three steps of [Apply]: the dialect and the loaded history. *)
Definition load_history : M S error (string * list HistoryEntry) :=
  let* dbType := wrap ErrUnknownDatabaseType Sqlm.version in
  let* _ := wrap ErrCannotCreateTable Sqlm.CreateTable in
  let* entries := wrap ErrCannotGetHistory Sqlm.History in
  ret (dbType, entries).

End WithDB.

End Spec.

(** ** Tactics of Part II *)

(** Decide the comparisons of the goal that [lia] decides. *)
Ltac zbool :=
  repeat match goal with
    | |- context [?a <? ?b] =>
        first [replace (a <? b) with true by lia | replace (a <? b) with false by lia]
    | |- context [?a <=? ?b] =>
        first [replace (a <=? b) with true by lia | replace (a <=? b) with false by lia]
    | |- context [?a =? ?b] =>
        first [replace (a =? b) with true by lia | replace (a =? b) with false by lia]
    end.




(** ** A runtime and a caller's database for the examples

    The examples use ASCII texts without comments: the case table and the
    comment expression leave them as they are. The caller's statements are
    logged; one that starts with [FAIL] is refused by the database. *)

Module Examples.

Import GoString Sqlm.

#[export] Instance runtime : Runtime := {|
  unicode_lower_table r := r;
  commentsRegex_ReplaceAllString s _ := s;
  time_Now n := 1000 * Z.of_nat n;
  scan_string v := match v with VString s => Ok s | _ => Err "unsupported Scan" end;
  scan_int64 v := match v with VInt64 n => Ok n | _ => Err "unsupported Scan" end;
  scan_time v := match v with VTime t => Ok t | _ => Err "unsupported Scan" end;
  scan_string_same _ := eq_refl;
  scan_int64_same _ := eq_refl;
  scan_time_same _ := eq_refl;
|}.

#[export] Instance statements : RefDB.UserSQL (list string) :=
  fun u stmt =>
    if HasPrefix stmt "FAIL" then (u, Some "syntax error") else (u ++ [stmt], None).

(** A handle that answers every query with one row holding its banner. *)
Definition banner_db : DB string :=
  {| Exec := fun s _ _ => (s, None);
     Query := fun s _ _ => (s, Ok (mkRows [[VString s]] None)) |}.

Definition fresh (pg : bool) : world (RefDB.t (list string)) :=
  World (RefDB.mk pg None []) 0 [].

Definition m (group : string) (version : Z) (statements : list string) : Migration :=
  Migration.mk group version statements
    (group ++ "_" ++ pretty version ++ ".sql")%string.

(** What a run shows: the result, the caller's statements executed, the
    rows of the history table as (group, version, status, log), and the
    sites of the calls. *)
Definition summary (r : res error unit * world (RefDB.t (list string)))
  : res error unit * list string * list (string * Z * string * string) * list site :=
  (r.1, RefDB.user (w_db r.2),
   map (fun e => (HistoryEntry.Group e, HistoryEntry.Version e, HistoryEntry.Status e,
                  HistoryEntry.Log e))
       (RefDB.history (w_db r.2)),
   map ev_site (w_trace r.2)).

(** The dialect, the history and the world the first three steps of
    [Apply] give on [w]. *)
Definition loaded (w : world (RefDB.t (list string)))
  : string * list HistoryEntry * world (RefDB.t (list string)) :=
  match Spec.load_history (DBI := RefDB.handle (USQL := statements)) w with
  | (Ok (dbType, entries), w') => (dbType, entries, w')
  | (Err _, w') => (EmptyString, [], w')
  end.

Definition run (migrations : list Migration) (w : world (RefDB.t (list string)))
  : res error unit * world (RefDB.t (list string)) :=
  Apply (DBI := RefDB.handle (USQL := statements)) [] [] migrations w.

(** A database after a migration whose statement failed. *)
Definition dirty_world : world (RefDB.t (list string)) :=
  (run [m "g" 1 ["CREATE TABLE a (id INT)"]; m "g" 2 ["FAIL"]] (fresh true)).2.

(** A database after two migrations that went through. *)
Definition applied_world : world (RefDB.t (list string)) :=
  (run [m "g" 1 ["CREATE TABLE a (id INT)"]; m "h" 1 ["CREATE TABLE b (id INT)"]]
       (fresh true)).2.

End Examples.

(** ** Vocabulary for the statements the splitter hands out *)

Module Shape.

Import GoString Utf8 Spec.

(** Runes without the white space in front. *)
Fixpoint drop_space_runes (rs : list Z) : list Z :=
  match rs with
  | [] => []
  | r :: rs' => if IsSpace r then drop_space_runes rs' else rs
  end.

(** Runes without the white space at both ends. *)
Definition trim_runes (rs : list Z) : list Z :=
  rev (drop_space_runes (rev (drop_space_runes rs))).

(** A rune other than the separator [;] and the three characters the loop
    of [parseStatementsFromString] replaces by a space. *)
Definition kept (r : Z) : Prop := r <> 59 /\ r <> 9 /\ r <> 10 /\ r <> 13.

Definition no_double_space (rs : list Z) : Prop :=
  forall a b, rs <> a ++ 32 :: 32 :: b.

(** A statement in normal form: well-formed UTF-8 that is not empty, with
    no white space at its ends, no [;], tab, line feed or carriage return,
    and no two spaces in a row. *)
Definition statement_shape (s : string) : Prop :=
  runes s <> []
  /\ s = of_bytes (encode_all (runes s))
  /\ (forall r, head (runes s) = Some r -> IsSpace r = false)
  /\ (forall r, last (runes s) = Some r -> IsSpace r = false)
  /\ Forall kept (runes s)
  /\ no_double_space (runes s).

(** An ASCII digit, as a byte or as a rune. *)
Definition is_digit (b : Z) : Prop := 48 <= b <= 57.

(** What the loop of [parseStatementsFromString] keeps true of its
    variables: the statements found are in normal form, and the builder
    holds runes [ws] that may still become one. *)
Definition scanner_inv (st : Parse.scanner) : Prop :=
  Forall statement_shape (Parse.stmts st)
  /\ exists ws, written ws (Parse.sb st) /\ Forall kept ws /\ no_double_space ws
                /\ (forall a, ws = a ++ [32] -> Parse.lastRune st = 32).

(** The text that is written back from statements: each one followed by
    its [;]. *)
Definition terminated (l : list string) : string := (Join l ";" ++ ";")%string.

(** *** The text between two separators *)

(** The replacement of carriage return, line feed and tab by a space. *)
Definition blank (r : Z) : Z := if (r =? 13) || (r =? 10) || (r =? 9) then 32 else r.

(** The runes the loop writes for the runes [rs] of one segment, when the
    rune written last is [last]: blanks are replaced, and a space after a
    space is dropped. *)
Fixpoint collapse (last : Z) (rs : list Z) : list Z :=
  match rs with
  | [] => []
  | r :: rs' =>
      if (last =? 32) && (blank r =? 32) then collapse last rs'
      else blank r :: collapse (blank r) rs'
  end.

(** The runes cut at the separators: the segments that end with a [;],
    and the runes after the last [;]. [cur] holds the runes of the segment
    being read. *)
Fixpoint pieces_from (cur : list Z) (rs : list Z) : list (list Z) * list Z :=
  match rs with
  | [] => ([], cur)
  | r :: rs' =>
      if r =? 59 then
        let '(segs, rest) := pieces_from [] rs' in (cur :: segs, rest)
      else pieces_from (cur ++ [r]) rs'
  end.

Definition pieces (rs : list Z) : list (list Z) * list Z := pieces_from [] rs.

(** The statement of a segment, read on its own. *)
Definition statement_of (seg : list Z) : string :=
  TrimSpace (of_bytes (encode_all (collapse 0 seg))).

(** The result of the splitter, segment by segment. *)
Definition by_segments (rs : list Z) : res Parse.parse_error (list string) :=
  let '(segs, rest) := pieces rs in
  if (0 <? String.length (statement_of rest))%nat then Err Parse.ErrNonTerminated
  else Ok (filter (fun s => s <> EmptyString) (map statement_of segs)).

End Shape.

(** ** Vocabulary for the runs of [Apply] *)

Module Terms.

Import Spec.

(** The history agrees with the migrations supplied: a row with the group
    and version of one of them has its checksum. *)
Definition no_drift (entries : list HistoryEntry) (migrations : list Migration) : Prop :=
  forall m e, m ∈ migrations -> e ∈ entries -> entry_key e = migration_key m ->
              HistoryEntry.Checksum e = Sqlm.hash m.

(** A call the handle answered without an error. *)
Definition went_through (e : event) : Prop := ev_err e = None.

(** The calls of the last loop of [Apply]. *)
Definition applying (e : event) : Prop :=
  ev_site e = AtInsert \/ ev_site e = AtExecute \/ ev_site e = AtUpdate.

(** What the last loop of [Apply] leaves in the trace, by its result. When
    the insert of a history row fails, that call is the last and every call
    before it went through. When the update of a row to success fails, it is
    the last call, every call before it went through, and the statements of
    the migration were the last ones executed. *)
Definition run_shape (candidates : list Migration) (r : res error unit)
    (evs : list event) : Prop :=
  Forall applying evs
  /\ match r with
     | Ok _ => Forall went_through evs
     | Err (ErrInsertHistory c) =>
         exists evs0 e msg m appliedAt,
           evs = evs0 ++ [e] /\ Forall went_through evs0 /\ m ∈ candidates
           /\ ev_site e = AtInsert
           /\ ev_args e = Sqlm.entry_args_insert (entry_executing m appliedAt)
           /\ ev_err e = Some msg /\ c = ErrDriver msg
     | Err (ErrUpdateHistory c) =>
         exists evs0 e msg m appliedAt duration,
           evs = evs0 ++ [e] /\ Forall went_through evs0 /\ m ∈ candidates
           /\ Migration.Statements m `suffix_of` executed evs0
           /\ ev_site e = AtUpdate
           /\ ev_args e = Sqlm.entry_args_update (entry_success m appliedAt duration)
           /\ ev_err e = Some msg /\ c = ErrDriver msg
     | Err (ErrExecuteMigration _ _ _) => True
     | Err _ => False
     end.

(** What the three loading steps of [Apply] leave in the trace, by their
    result. *)
Definition load_shape {A} (r : res error A) (evs : list event) : Prop :=
  match r with
  | Ok _ =>
      map ev_site evs = [AtVersion; AtCreateTable; AtHistory] /\ Forall went_through evs
  | Err (ErrUnknownDatabaseType _) => map ev_site evs = [AtVersion]
  | Err (ErrCannotCreateTable c) =>
      exists e1 e2 msg,
        evs = [e1; e2] /\ ev_site e1 = AtVersion /\ went_through e1
        /\ ev_site e2 = AtCreateTable /\ ev_err e2 = Some msg /\ c = ErrDriver msg
  | Err (ErrCannotGetHistory _) =>
      exists e1 e2 e3,
        evs = [e1; e2; e3] /\ ev_site e1 = AtVersion /\ went_through e1
        /\ ev_site e2 = AtCreateTable /\ went_through e2 /\ ev_site e3 = AtHistory
  | Err _ => False
  end.

(** What [Apply] may send to a database of the dialect [pg] for the
    migrations supplied: the three loading calls, the insert and the update
    of the dialect for the history row of a migration supplied, and the
    statements of a migration supplied. *)
Definition allowed (pg : bool) (migrations : list Migration) (e : event) : Prop :=
  match ev_site e with
  | AtVersion => ev_query e = Sqlm.versionQuery /\ ev_args e = []
  | AtCreateTable => ev_query e = Sqlm.createMigrationTable /\ ev_args e = []
  | AtHistory => ev_query e = Sqlm.historyQuery /\ ev_args e = []
  | AtInsert =>
      ev_query e = RefDB.insert_stmt pg
      /\ exists m entry, m ∈ migrations /\ entry_key entry = migration_key m
                         /\ HistoryEntry.Checksum entry = Sqlm.hash m
                         /\ ev_args e = Sqlm.entry_args_insert entry
  | AtUpdate =>
      ev_query e = RefDB.update_stmt pg
      /\ exists m entry, m ∈ migrations /\ entry_key entry = migration_key m
                         /\ HistoryEntry.Checksum entry = Sqlm.hash m
                         /\ ev_args e = Sqlm.entry_args_update entry
  | AtExecute =>
      ev_args e = [] /\ exists m, m ∈ migrations /\ ev_query e ∈ Migration.Statements m
  end.

(** A computation that makes calls of the kind [P] only. *)
Definition emits {S E A} (P : event -> Prop) (m : M S E A) : Prop :=
  forall w r w', m w = (r, w') ->
                 exists evs, w_trace w' = w_trace w ++ evs /\ Forall P evs.

End Terms.

(** ** Vocabulary for the database of the history table *)

Module RefTerms.

(** A statement of the caller that goes through on a database of the
    dialect [pg]: it is not the insert or the update of the history table,
    and the caller's database accepts it in every state. *)
Definition goes_through {U : Type} {USQL : RefDB.UserSQL U} (pg : bool) (s : string) : Prop :=
  s <> RefDB.insert_stmt pg /\ s <> RefDB.update_stmt pg
  /\ forall u : U, (RefDB.run_statement u s).2 = None.

(** The migrations supplied that have no row in the history. *)
Definition pending (entries : list HistoryEntry) (migrations : list Migration)
  : list Migration :=
  filter (fun m => Spec.is_pending entries m) migrations.

End RefTerms.

(** ** A handle that loses one call

    The state counts the calls of [Exec]; the call of number [bad] fails,
    every other call goes through. The version query is answered with a
    PostgreSQL banner, every other query with no rows. *)

Module Flaky.

Definition handle (bad : nat) : DB nat :=
  {| Exec := fun n _ _ =>
       (Datatypes.S n, if (n =? bad)%nat then Some "connection lost"%string else None);
     Query := fun n q _ =>
       (n, if String.eqb q Sqlm.versionQuery
           then Ok (mkRows [[VString "PostgreSQL 12.2"]] None)
           else Ok (mkRows [] None)) |}.

Definition run (bad : nat) (migrations : list Migration) : res error unit * world nat :=
  Sqlm.Apply (RT := Examples.runtime) (DBI := handle bad) [] [] migrations
    (World 0%nat 0%nat []).

End Flaky.

(** ** A handle that answers with several rows

    The state is the list of the banners; every query is answered with one
    row for each of them. *)

Module Banners.

Definition handle : DB (list string) :=
  {| Exec := fun s _ _ => (s, None);
     Query := fun s _ _ => (s, Ok (mkRows (map (fun b => [VString b]) s) None)) |}.

End Banners.

(** ** More tactics of Part II *)

(** Turns the comparisons among the hypotheses into propositions. *)
Ltac props :=
  repeat match goal with
    | H : _ && _ = true |- _ => apply andb_true_iff in H as [? ?]
    | H : _ || _ = false |- _ => apply orb_false_iff in H as [? ?]
    | H : negb _ = true |- _ => apply negb_true_iff in H
    | H : negb _ = false |- _ => apply negb_false_iff in H
    | H : (_ <=? _) = true |- _ => apply Z.leb_le in H
    | H : (_ <=? _) = false |- _ => apply Z.leb_gt in H
    | H : (_ <? _) = true |- _ => apply Z.ltb_lt in H
    | H : (_ <? _) = false |- _ => apply Z.ltb_ge in H
    | H : (_ =? _) = true |- _ => apply Z.eqb_eq in H
    | H : (_ =? _) = false |- _ => apply Z.eqb_neq in H
    end.


(** ** writer.go *)

(** [fmt.Sprintf] of the Go library, on arguments of type [A]. *)
Class Fmt (A : Type) : Type :=
  fmt_Sprintf : string -> list A -> string.

Module Writer.

Import GoString.

(** [strings.HasSuffix(s, suffix)] *)
Definition HasSuffix (s suffix : string) : bool :=
  (String.length suffix <=? String.length s)%nat
  && String.eqb (substring (String.length s - String.length suffix)
                           (String.length suffix) s) suffix.

(** An [int] of Go on a 64-bit platform, kept in its range. *)
Definition int (x : Z) : Z := (x + 2 ^ 63) mod 2 ^ 64 - 2 ^ 63.

(** [type writer struct]; [sb] is the content of the builder. *)
Record writer : Type := mk {
  sb : string;
  indent : Z;
  newLine : bool;
}.

Definition newWriter : writer := mk EmptyString 0 false.

Definition Indent (w : writer) (i : Z) : writer :=
  mk (sb w) (int (indent w + i)) (newLine w).

Definition ShiftLeft (w : writer) : writer := Indent w (-2).
Definition ShiftRight (w : writer) : writer := Indent w 2.

(** [for i := 0; i < w.indent; i++ { w.sb.WriteByte(' ') }] from [i]. *)
Fixpoint write_spaces (fuel : nat) (i : Z) (indent : Z) (sb : string) : string :=
  match fuel with
  | O => sb
  | Datatypes.S fuel' =>
      if i <? indent then write_spaces fuel' (int (i + 1)) indent (sb ++ " ")%string
      else sb
  end.

Section WithFmt.
Context {A : Type} {F : Fmt A}.

Definition Printf (w : writer) (str : string) (args : list A) : writer :=
  let sb1 :=
    if newLine w then write_spaces (Z.to_nat (indent w)) 0 (indent w) (sb w) else sb w in
  mk (sb1 ++ fmt_Sprintf str args)%string (indent w) (HasSuffix str nl).

Definition String (w : writer) : string := sb w.

(** Calls of [Printf] in a row. *)
Definition print_all (w : writer) (calls : list (string * list A)) : writer :=
  fold_left (fun w c => Printf w c.1 c.2) calls w.

End WithFmt.

(** [n] spaces; none when [n] is not positive. *)
Definition spaces (n : Z) : string := of_bytes (replicate (Z.to_nat n) 32).

(** The indentation is a value of type [int]. *)
Definition in_range (w : writer) : Prop := - 2 ^ 63 <= indent w < 2 ^ 63.

End Writer.

(** ** parse.go: the migration files of a group *)

(** What [parseMigrations] takes from outside [src/]: the file system
    behind [ioutil.ReadDir] (the names of the entries of a directory,
    sorted by name) and [ioutil.ReadFile], and the path functions
    [filepath.Dir] and [filepath.Join]. *)
Class FileSystem : Type := {
  filepath_Dir : string -> string;
  filepath_Join : string -> string -> string;
  ioutil_ReadDir : string -> res string (list string);
  ioutil_ReadFile : string -> res string string;
}.

(** The entries of [config.Packages] (declared outside [src/]): the code
    reads their fields [Schema] and [Group] and copies them as a whole. *)
Class Package (P : Type) : Type := {
  pkg_Schema : P -> string;
  pkg_Group : P -> string;
}.

Module Scan.

Import GoString.

(** The errors [parseMigrations] and [parseStatements] return. *)
Inductive load_error : Type :=
| ErrReadDir (msg : string)
| ErrReadFile (msg : string)
| ErrInvalidName (name : string)
| ErrCannotParse (fname : string) (cause : Parse.parse_error)
| ErrNoStatements (fname : string).

(** How a call ends: with a value, with an error, or in a panic. *)
Inductive ending (A : Type) : Type :=
| Done (a : A)
| Failed (e : load_error)
| Panicked (v : string).
Arguments Done {A} a.
Arguments Failed {A} e.
Arguments Panicked {A} v.

Section WithFiles.
Context {RT : Runtime} {FS : FileSystem} {P : Type} {PK : Package P}.

(** [type dialect struct], with the fields the code sets. *)
Record dialect : Type := Dialect {
  pkg : P;
  migrations : list Migration;
}.

(** [type migrationGroup struct], with the fields the code reads. *)
Record migrationGroup : Type := MigrationGroup {
  file : string;
  Packages : list P;
}.

Definition parseStatements (fname : string) : res load_error (list string) :=
  match ioutil_ReadFile fname with
  | Err e => Err (ErrReadFile e)
  | Ok b =>
      match Parse.parseStatementsFromString b with
      | Err e => Err (ErrCannotParse fname e)
      | Ok stmts => Ok stmts
      end
  end.

(** The loop [for _, file := range files] for one package; [out] is what
    [fmt.Printf] has written to the standard output. *)
Fixpoint parse_files (p : P) (schemaDir : string) (files : list string)
    (found : list Migration) (out : string) : ending (list Migration) * string :=
  match files with
  | [] => (Done found, out)
  | name :: rest =>
      if Writer.HasSuffix name ".sql" then
        match Parse.extractVersion name with
        | Panics v => (Panicked v, out)
        | Returns version =>
            if version =? -1 then (Failed (ErrInvalidName name), out)
            else
              let out := (out ++ "migration " ++ name ++ nl)%string in
              let fname := filepath_Join schemaDir name in
              match parseStatements fname with
              | Err e => (Failed e, out)
              | Ok stmts =>
                  if (length stmts =? 0)%nat then (Failed (ErrNoStatements fname), out)
                  else
                    let out :=
                      (out ++ "   " ++ pretty (length stmts) ++ " statements" ++ nl)%string in
                    let migration := Migration.mk (pkg_Group p) version stmts name in
                    parse_files p schemaDir rest (found ++ [migration]) out
              end
        end
      else parse_files p schemaDir rest found out
  end.

(** The loop [for _, pkg := range cfg.config.Packages]. *)
Fixpoint parse_packages (dir : string) (pkgs : list P) (res_ : list dialect)
    (out : string) : ending (list dialect) * string :=
  match pkgs with
  | [] => (Done res_, out)
  | p :: rest =>
      let schemaDir := filepath_Join dir (pkg_Schema p) in
      let out := (out ++ "reading schema dir " ++ schemaDir ++ nl)%string in
      match ioutil_ReadDir schemaDir with
      | Err e => (Failed (ErrReadDir e), out)
      | Ok files =>
          match parse_files p schemaDir files [] out with
          | (Done found, out) => parse_packages dir rest (res_ ++ [Dialect p found]) out
          | (Failed e, out) => (Failed e, out)
          | (Panicked v, out) => (Panicked v, out)
          end
      end
  end.

Definition parseMigrations (cfg : migrationGroup) (out : string)
  : ending (list dialect) * string :=
  parse_packages (filepath_Dir (file cfg)) (Packages cfg) [] out.

End WithFiles.

Arguments dialect P : clear implicits.
Arguments migrationGroup P : clear implicits.

End Scan.

(** ** Vocabulary for the migrations read from files *)

Module Loaded.

Import GoString.

(** A migration as [parseMigrations] builds it from a file of package [p]:
    the group is that of the package, the name ends in [.sql], the version
    is the number of the digits of the name and fits an [int64], and the
    statements are at least one, each in normal form. *)
Definition from_file {P : Type} {PK : Package P} (p : P) (m : Migration) : Prop :=
  Migration.Group m = pkg_Group p
  /\ Writer.HasSuffix (Migration.ScriptName m) ".sql" = true
  /\ filter Shape.is_digit (bytes (Migration.ScriptName m)) <> []
  /\ Migration.Version m
     = Spec.decimal (filter Shape.is_digit (bytes (Migration.ScriptName m)))
  /\ 0 <= Migration.Version m <= Strconv.maxInt64
  /\ Migration.Statements m <> []
  /\ Forall Shape.statement_shape (Migration.Statements m).

(** A migration and the file of the directory [schemaDir] it was read
    from: it has the name of the file, and its statements are those of the
    text of the file. *)
Definition read_from {RT : Runtime} {FS : FileSystem} (schemaDir name : string)
    (m : Migration) : Prop :=
  Migration.ScriptName m = name
  /\ exists text,
       ioutil_ReadFile (filepath_Join schemaDir name) = Ok text
       /\ Parse.parseStatementsFromString text = Ok (Migration.Statements m).

(** The files of a listing [parseMigrations] reads. *)
Definition sql_files (files : list string) : list string :=
  filter (fun n => Writer.HasSuffix n ".sql" = true) files.

(** What an error or a panic of [parseMigrations] says of the file [name]
    of the directory [schemaDir]. *)
Definition blames {RT : Runtime} {FS : FileSystem} (schemaDir name : string)
    (r : Scan.load_error + string) : Prop :=
  match r with
  | inl (Scan.ErrInvalidName n) =>
      n = name /\ Forall (fun b => ~ Shape.is_digit b) (bytes name)
  | inl (Scan.ErrNoStatements fname) =>
      fname = filepath_Join schemaDir name
      /\ exists text, ioutil_ReadFile fname = Ok text
                      /\ Parse.parseStatementsFromString text = Ok []
  | inl (Scan.ErrReadFile msg) =>
      ioutil_ReadFile (filepath_Join schemaDir name) = Err msg
  | inl (Scan.ErrCannotParse fname cause) =>
      fname = filepath_Join schemaDir name
      /\ exists text, ioutil_ReadFile fname = Ok text
                      /\ Parse.parseStatementsFromString text = Err cause
  | inl (Scan.ErrReadDir _) => False
  | inr v =>
      v = of_bytes (filter Shape.is_digit (bytes name))
      /\ Strconv.maxInt64 < Spec.decimal (filter Shape.is_digit (bytes name))
  end.

(** A file system with one directory of three files, and a package. *)
Definition files : FileSystem :=
  {| filepath_Dir := fun f => "db"%string;
     filepath_Join := fun d n => (d ++ "/" ++ n)%string;
     ioutil_ReadDir := fun d =>
       if String.eqb d "db/pg" then Ok ["001_init.sql"; "002_users.sql"; "README.md"]%string
       else Err "no such directory"%string;
     ioutil_ReadFile := fun f =>
       if String.eqb f "db/pg/001_init.sql" then Ok "CREATE TABLE a (id INT);"%string
       else if String.eqb f "db/pg/002_users.sql"
            then Ok "CREATE TABLE u (id INT); CREATE INDEX i ON u (id);"%string
       else Err "no such file"%string |}.

(** The same with a file whose name has no digit. *)
Definition files_bad : FileSystem :=
  {| filepath_Dir := fun f => "db"%string;
     filepath_Join := fun d n => (d ++ "/" ++ n)%string;
     ioutil_ReadDir := fun d =>
       if String.eqb d "db/pg" then Ok ["001_init.sql"; "init.sql"]%string
       else Err "no such directory"%string;
     ioutil_ReadFile := fun f =>
       if String.eqb f "db/pg/001_init.sql" then Ok "CREATE TABLE a (id INT);"%string
       else Err "no such file"%string |}.

Definition package : Package (string * string) :=
  {| pkg_Schema := fst; pkg_Group := snd |}.

Definition group : Scan.migrationGroup (string * string) :=
  Scan.MigrationGroup "db/sqlm.json" [("pg"%string, "shop"%string)].

End Loaded.

(** ** migration.go: [MustMigrate] *)

(** [*sql.DB] with the transaction [*sql.Tx] it begins: the transaction is
    used through [Exec] and [Query], and rolled back or committed. *)
Class SqlDB (S : Type) : Type := {
  sql_Tx : DB S;
  sql_BeginTx : S -> S * option string;
  sql_Rollback : S -> S * option string;
  sql_Commit : S -> S * option string;
}.

(** A call that begins or ends the transaction, with the error it gave. *)
Inductive tx_call : Type :=
| TxBegin (err : option string)
| TxRollback (err : option string)
| TxCommit (err : option string).

Module Must.

Import GoString.

(** How [MustMigrate] ends: it returns, or panics with an error. *)
Inductive ending : Type :=
| Returned
| Panicked (err : error).

(** What a call leaves behind: the world of the calls of [Apply], the
    calls on the transaction in their order, and what [fmt.Println] has
    written to the standard output. *)
Record session (S : Type) : Type := Session {
  s_world : world S;
  s_tx : list tx_call;
  s_out : string;
}.
Arguments Session {S} _ _ _.
Arguments s_world {S} _.
Arguments s_tx {S} _.
Arguments s_out {S} _.

Section WithDB.
Context {RT : Runtime} {S : Type} {SQL : SqlDB S}.

Definition with_db (w : world S) (db : S) : world S :=
  World db (w_clock w) (w_trace w).

Definition MustMigrate (seed1 seed2 : list nat) (migrations : list Migration)
    (w : world S) : ending * session S :=
  let '(db1, r1) := sql_BeginTx (w_db w) in
  match r1 with
  | Some e => (Panicked (ErrDriver e), Session (with_db w db1) [TxBegin (Some e)] EmptyString)
  | None =>
      match Sqlm.Apply (DBI := sql_Tx) seed1 seed2 migrations (with_db w db1) with
      | (Err err, w2) =>
          let '(db3, suppressedErr) := sql_Rollback (w_db w2) in
          (Panicked err,
           Session (with_db w2 db3) [TxBegin None; TxRollback suppressedErr]
             match suppressedErr with
             | Some e => (e ++ nl)%string
             | None => EmptyString
             end)
      | (Ok _, w2) =>
          let '(db3, r3) := sql_Commit (w_db w2) in
          (match r3 with
           | Some e => Panicked (ErrDriver e)
           | None => Returned
           end,
           Session (with_db w2 db3) [TxBegin None; TxCommit r3] EmptyString)
      end
  end.

End WithDB.

End Must.

(** ** A database with transactions

    The committed state and, inside a transaction, the state the
    transaction works on: [BeginTx] starts from the committed state,
    [Commit] makes the working state the committed one, [Rollback] drops
    it. The statements reach the working state, as on the database of the
    history table above. *)

Module TxRef.

Record t (U : Type) : Type := mk {
  committed : RefDB.t U;
  working : option (RefDB.t U);
}.
Arguments mk {U} _ _.
Arguments committed {U} _.
Arguments working {U} _.

Section WithUser.
Context {U : Type} {USQL : RefDB.UserSQL U}.

Definition exec (s : t U) (query : string) (args : list value) : t U * option string :=
  match working s with
  | None => (s, Some "sql: transaction has already been committed or rolled back"%string)
  | Some db =>
      let '(db', r) := RefDB.exec db query args in
      (mk (committed s) (Some db'), r)
  end.

Definition query (s : t U) (q : string) (args : list value) : t U * res string Rows :=
  match working s with
  | None => (s, Err "sql: transaction has already been committed or rolled back"%string)
  | Some db =>
      let '(db', r) := RefDB.query db q args in
      (mk (committed s) (Some db'), r)
  end.

#[export] Instance handle : SqlDB (t U) := {|
  sql_Tx := {| Exec := exec; Query := query |};
  sql_BeginTx := fun s => (mk (committed s) (Some (committed s)), None);
  sql_Rollback := fun s => (mk (committed s) None, None);
  sql_Commit := fun s =>
    match working s with
    | Some db => (mk db None, None)
    | None => (s, Some "sql: transaction has already been committed or rolled back"%string)
    end;
|}.

End WithUser.

(** A database with nothing committed yet. *)
Definition fresh (pg : bool) : world (t (list string)) :=
  World (mk (RefDB.mk pg None []) None) 0 [].

End TxRef.

(** ** A transaction whose rollback fails *)

Module NoRollback.

(** The handle loses the call of [Exec] of number [bad]; the rollback is
    refused. *)
Definition handle (bad : nat) : SqlDB nat :=
  {| sql_Tx := Flaky.handle bad;
     sql_BeginTx := fun n => (n, None);
     sql_Rollback := fun n => (n, Some "rollback refused"%string);
     sql_Commit := fun n => (n, None) |}.

End NoRollback.

(** ** Two handles that answer alike *)

Module Sim.

Section WithHandles.
Context {S1 S2 : Type} {D1 : DB S1} {D2 : DB S2} (R : S1 -> S2 -> Prop).

(** The handles give the same answers on related states, and leave
    related states. *)
Definition alike : Prop :=
  (forall s1 s2 q a, R s1 s2 ->
     R (Exec s1 q a).1 (Exec s2 q a).1 /\ (Exec s1 q a).2 = (Exec s2 q a).2)
  /\ (forall s1 s2 q a, R s1 s2 ->
        R (Query s1 q a).1 (Query s2 q a).1 /\ (Query s1 q a).2 = (Query s2 q a).2).

Definition worlds (w1 : world S1) (w2 : world S2) : Prop :=
  R (w_db w1) (w_db w2) /\ w_clock w1 = w_clock w2 /\ w_trace w1 = w_trace w2.

Definition runs {E A} (m1 : M S1 E A) (m2 : M S2 E A) : Prop :=
  forall w1 w2, worlds w1 w2 -> (m1 w1).1 = (m2 w2).1 /\ worlds (m1 w1).2 (m2 w2).2.

End WithHandles.

End Sim.

(** ** Databases that keep the history table

    [Apply] works on whatever is behind its handle: a connection, a
    transaction, a fake. What a call of [Apply] leaves in the history table
    can be said for the handles whose database keeps that table:
    [history_rows] is the table by (group, version), [speaks_postgres] the
    dialect, and the laws say what a call of the handle leaves of them. The
    database may refuse any call; a refused call leaves the table as it
    is. *)

Class HistoryView (S : Type) : Type := {
  history_rows : S -> gmap (string * Z) RefDB.columns;
  speaks_postgres : S -> bool;
}.

Module Store.

Definition dialect (pg : bool) : string :=
  if pg then Sqlm.PostgreSQL else Sqlm.MySQL.



End Store.

Class HistoryStore (S : Type) {RT : Runtime} {DBI : DB S} {HV : HistoryView S} : Prop := {
  (** the banner tells the dialect *)
  store_banner (s s' : S) rows str dbType :
    Query s Sqlm.versionQuery [] = (s', Ok rows) ->
    Sqlm.version_scan (rows_cells rows) EmptyString = Ok str ->
    Sqlm.version_of str = Ok dbType ->
    dbType = Store.dialect (speaks_postgres s);
  (** a query changes no row *)
  store_query (s s' : S) q args r :
    Query s q args = (s', r) ->
    history_rows s' = history_rows s /\ speaks_postgres s' = speaks_postgres s;
  store_dialect (s s' : S) q args r :
    Exec s q args = (s', r) -> speaks_postgres s' = speaks_postgres s;
  (** a refused statement changes no row *)
  store_refused (s s' : S) q args msg :
    Exec s q args = (s', Some msg) -> history_rows s' = history_rows s;
  (** an insert that goes through carries a row and puts it under its key *)
  store_insert (s s' : S) args :
    Exec s (RefDB.insert_stmt (speaks_postgres s)) args = (s', None) ->
    exists entry,
      RefDB.entry_of_insert args = Some entry
      /\ history_rows s'
         = <[RefDB.key entry := RefDB.columns_of entry]> (history_rows s);
  (** an update that goes through carries a row and rewrites the row of
      its key *)
  store_update (s s' : S) args :
    Exec s (RefDB.update_stmt (speaks_postgres s)) args = (s', None) ->
    exists entry,
      RefDB.entry_of_update args = Some entry
      /\ history_rows s'
         = alter (fun _ => RefDB.columns_of entry) (RefDB.key entry) (history_rows s);
  (** no other statement reaches the rows *)
  store_other (s s' : S) q args :
    q <> RefDB.insert_stmt (speaks_postgres s) ->
    q <> RefDB.update_stmt (speaks_postgres s) ->
    Exec s q args = (s', None) -> history_rows s' = history_rows s;
}.

#[export] Instance RefDB_view {U : Type} : HistoryView (RefDB.t U) := {|
  history_rows db := default ∅ (RefDB.table db);
  speaks_postgres db := RefDB.postgres db;
|}.

(** ** A transaction that a failed statement aborts

    [Apply] takes a [*sql.Tx] as well as a [*sql.DB]. In a transaction of
    PostgreSQL a statement that fails aborts the transaction: the database
    refuses every later call until the transaction ends. *)

Module Aborting.

Import GoString Sqlm.

Record t (U : Type) : Type := mk {
  db : RefDB.t U;
  aborted : bool;
}.
Arguments mk {U} _ _.
Arguments db {U} _.
Arguments aborted {U} _.

Definition refused : string :=
  "current transaction is aborted, commands ignored until end of transaction block".

Section WithUser.
Context {U : Type} {USQL : RefDB.UserSQL U}.

Definition exec (s : t U) (query : string) (args : list value) : t U * option string :=
  if aborted s then (s, Some refused)
  else
    let '(db', r) := RefDB.exec (db s) query args in
    (mk db' (match r with Some _ => true | None => false end), r).

Definition query (s : t U) (q : string) (args : list value) : t U * res string Rows :=
  if aborted s then (s, Err refused)
  else
    let '(db', r) := RefDB.query (db s) q args in
    (mk db' (match r with Err _ => true | Ok _ => false end), r).

#[export] Instance handle : DB (t U) := {| Exec := exec; Query := query |}.

End WithUser.

(** Two migrations of one group, the second with a statement the
    database of the examples refuses, in a fresh transaction. *)
Definition migrations : list Migration :=
  [Examples.m "g" 1 ["CREATE TABLE a (id INT)"]; Examples.m "g" 2 ["FAIL"]].

Definition fresh : world (t (list string)) :=
  World (mk (RefDB.mk true None []) false) 0 [].

Definition run : res error unit * world (t (list string)) :=
  Apply (RT := Examples.runtime) (DBI := handle (USQL := Examples.statements))
    [] [] migrations fresh.

End Aborting.

#[export] Instance Aborting_view {U : Type} : HistoryView (Aborting.t U) := {|
  history_rows s := default ∅ (RefDB.table (Aborting.db s));
  speaks_postgres s := RefDB.postgres (Aborting.db s);
|}.

(** * Part II: lemmas and theorems *)

(** ** Strings and bytes *)

Module GoStringFacts.

Import GoString.

Lemma string_app_cons c (s t : string) :
  (String c s ++ t)%string = String c (s ++ t)%string.
Proof. reflexivity. Qed.

Lemma string_app_nil_l (t : string) : (EmptyString ++ t)%string = t.
Proof. reflexivity. Qed.

Lemma byte_of_range c : 0 <= byte_of c < 256.
Proof.
  unfold byte_of. pose proof (N_ascii_bounded c). lia.
Qed.

Lemma byte_of_ascii_of b : 0 <= b < 256 -> byte_of (ascii_of b) = b.
Proof.
  intros Hb. unfold byte_of, ascii_of.
  rewrite N_ascii_embedding by lia. lia.
Qed.

Lemma ascii_of_byte_of c : ascii_of (byte_of c) = c.
Proof.
  unfold byte_of, ascii_of. rewrite N2Z.id. apply ascii_N_embedding.
Qed.

Lemma bytes_range s : Forall (fun b => 0 <= b < 256) (bytes s).
Proof.
  induction s as [|c s IH]; simpl; constructor; auto using byte_of_range.
Qed.

Lemma bytes_of_bytes l :
  Forall (fun b => 0 <= b < 256) l -> bytes (of_bytes l) = l.
Proof.
  induction 1 as [|b l Hb _ IH]; simpl; [done|].
  by rewrite byte_of_ascii_of, IH.
Qed.

Lemma of_bytes_bytes s : of_bytes (bytes s) = s.
Proof.
  induction s as [|c s IH]; simpl; [done|].
  by rewrite ascii_of_byte_of, IH.
Qed.

Lemma of_bytes_app l1 l2 : of_bytes (l1 ++ l2) = (of_bytes l1 ++ of_bytes l2)%string.
Proof.
  induction l1 as [|b l1 IH]; simpl; [done|]. by rewrite string_app_cons, IH.
Qed.

Lemma bytes_app s1 s2 : bytes (s1 ++ s2)%string = bytes s1 ++ bytes s2.
Proof.
  induction s1 as [|c s1 IH]; [done|]. rewrite string_app_cons. simpl. by rewrite IH.
Qed.

Lemma length_of_bytes l : String.length (of_bytes l) = length l.
Proof. induction l as [|b l IH]; simpl; [done|]. by rewrite IH. Qed.

Lemma length_bytes s : length (bytes s) = String.length s.
Proof. induction s as [|c s IH]; simpl; [done|]. by rewrite IH. Qed.

Lemma bytes_inj s1 s2 : bytes s1 = bytes s2 -> s1 = s2.
Proof.
  intros H. rewrite <- (of_bytes_bytes s1), <- (of_bytes_bytes s2). by rewrite H.
Qed.

Lemma string_app_nil_r (s : string) : (s ++ EmptyString)%string = s.
Proof. induction s as [|c s IH]; [done|]. by rewrite string_app_cons, IH. Qed.

Lemma string_app_assoc (s1 s2 s3 : string) :
  ((s1 ++ s2) ++ s3)%string = (s1 ++ (s2 ++ s3))%string.
Proof. induction s1 as [|c s1 IH]; [done|]. by rewrite !string_app_cons, IH. Qed.

End GoStringFacts.

(** ** [strconv.ParseInt] on digits, and [extractVersion] *)

Module StrconvFacts.

Import GoString GoStringFacts Utf8 Strconv Parse Spec.

Lemma value_from_ge n ds :
  0 <= n -> Forall (fun d => 48 <= d <= 57) ds -> n <= value_from n ds.
Proof.
  intros Hn Hds. revert n Hn.
  induction Hds as [|d ds Hd _ IH]; intros n Hn; simpl; [lia|].
  etrans; [|apply IH]; lia.
Qed.

(** The loop of [ParseUint] computes the decimal value and reports a range
    error exactly when that value does not fit 64 bits. *)
Lemma ParseUint_loop_digits ds : forall n,
  0 <= n <= maxUint64 ->
  Forall (fun d => 48 <= d <= 57) ds ->
  ParseUint_loop n ds =
    if value_from n ds <=? maxUint64 then Ok (value_from n ds) else Err ErrRange.
Proof.
  unfold maxUint64.
  induction ds as [|d ds IH]; intros n Hn Hds.
  - simpl. case_match; [done|lia].
  - inversion_clear Hds as [|? ? Hd Hds'].
    cbn [ParseUint_loop].
    replace ((48 <=? d) && (d <=? 57)) with true by lia.
    unfold maxUint64. change (2 ^ 64 - 1) with 18446744073709551615.
    change (18446744073709551615 / 10 + 1) with 1844674407370955162.
    change (2 ^ 64) with 18446744073709551616.
    pose proof (value_from_ge (10 * n + (d - 48)) ds ltac:(lia) Hds') as Hge.
    change (value_from n (d :: ds)) with (value_from (10 * n + (d - 48)) ds).
    destruct (Z.leb_spec 1844674407370955162 n) as [Hcut|Hcut].
    { case_match; [lia|done]. }
    rewrite (Z.mod_small (n * 10)) by lia.
    destruct (Z_lt_le_dec (n * 10 + (d - 48)) 18446744073709551616) as [Hfit|Hover].
    + rewrite (Z.mod_small (n * 10 + (d - 48))) by lia.
      replace ((n * 10 + (d - 48) <? n * 10) || (18446744073709551615 <? n * 10 + (d - 48)))
        with false by lia.
      replace (n * 10 + (d - 48)) with (10 * n + (d - 48)) by lia.
      change 18446744073709551615 with (2 ^ 64 - 1).
      apply IH; [lia|done].
    + replace ((n * 10 + (d - 48)) mod 18446744073709551616)
        with (n * 10 + (d - 48) - 18446744073709551616).
      2:{ apply Z.mod_unique with 1; lia. }
      replace ((n * 10 + (d - 48) - 18446744073709551616 <? n * 10)
               || (18446744073709551615 <? n * 10 + (d - 48) - 18446744073709551616))
        with true by lia.
      case_match; [lia|done].
Qed.

Lemma ParseInt_digits ds :
  ds <> [] ->
  Forall (fun d => 48 <= d <= 57) ds ->
  ParseInt (of_bytes ds) =
    if decimal ds <=? maxInt64 then Ok (decimal ds) else Err ErrRange.
Proof.
  intros Hne Hds. unfold ParseInt.
  rewrite bytes_of_bytes by (eapply Forall_impl; [done|]; simpl; lia).
  destruct ds as [|d ds]; [done|].
  pose proof (Forall_inv Hds) as Hd. simpl in Hd.
  replace (d =? 45) with false by lia.
  replace ((d =? 43) || false) with false by lia.
  unfold ParseUint.
  rewrite ParseUint_loop_digits by (done || unfold maxUint64; lia).
  pose proof (value_from_ge 0 (d :: ds) ltac:(lia) Hds) as Hge.
  change (value_from 0 (d :: ds)) with (decimal (d :: ds)) in *.
  unfold maxUint64, maxInt64.
  change (2 ^ 64 - 1) with 18446744073709551615.
  change (2 ^ 63 - 1) with 9223372036854775807.
  change (2 ^ 63) with 9223372036854775808.
  simpl negb. cbn [andb].
  destruct (Z.leb_spec (decimal (d :: ds)) 18446744073709551615);
    destruct (Z.leb_spec (decimal (d :: ds)) 9223372036854775807); try lia; try done.
  - by replace (9223372036854775808 <=? decimal (d :: ds)) with false by lia.
  - by replace (9223372036854775808 <=? decimal (d :: ds)) with true by lia.
Qed.

Lemma EncodeRune_ascii r : 0 <= r <= 0x7F -> EncodeRune r = [r].
Proof.
  intros Hr. unfold EncodeRune.
  replace ((0 <=? r) && (r <=? 127)) with true by lia. done.
Qed.

(** The loop of [extractVersion] leaves the digits in the builder. *)
Lemma extractVersion_digits_spec name :
  extractVersion_digits name = of_bytes (digit_runes name).
Proof.
  unfold extractVersion_digits, digit_runes.
  change EmptyString with (of_bytes []) at 1.
  rewrite <- (app_nil_l (filter _ _)).
  generalize (@nil Z) as acc. generalize (runes name) as rs.
  induction rs as [|r rs IH]; intros acc; simpl.
  - by rewrite filter_nil, app_nil_r.
  - rewrite filter_cons. case_decide as Hd.
    + replace ((48 <=? r) && (r <=? 57)) with true by lia.
      unfold WriteRune. rewrite EncodeRune_ascii by lia.
      rewrite <- of_bytes_app, IH. by rewrite <- app_assoc.
    + replace ((48 <=? r) && (r <=? 57)) with false by lia. apply IH.
Qed.

Lemma digit_runes_digits name : Forall (fun d => 48 <= d <= 57) (digit_runes name).
Proof.
  unfold digit_runes. apply Forall_forall. intros d Hd.
  by apply list_elem_of_filter in Hd as [Hd _].
Qed.

End StrconvFacts.

(** C10: [extractVersion] returns -1 for a name without digit characters and
    the number its digit characters denote when that number fits an [int64];
    when it does not fit, as for twenty nines, it panics with the digits and
    returns no error value. *)
Theorem extractVersion_spec :
  (forall name : string,
     Parse.extractVersion name =
       match Spec.digit_runes name with
       | [] => Returns (-1)
       | ds =>
           if Spec.decimal ds <=? Strconv.maxInt64 then Returns (Spec.decimal ds)
           else Panics (GoString.of_bytes ds)
       end)
  /\ Strconv.maxInt64 < Spec.decimal (Spec.digit_runes "99999999999999999999.sql")
  /\ Parse.extractVersion "99999999999999999999.sql" = Panics "99999999999999999999".
Proof.
  split; [|split; [by vm_compute|by vm_compute]].
  intros name. unfold Parse.extractVersion.
  rewrite StrconvFacts.extractVersion_digits_spec, GoStringFacts.length_of_bytes.
  pose proof (StrconvFacts.digit_runes_digits name) as Hds.
  destruct (Spec.digit_runes name) as [|d ds] eqn:E; [done|].
  cbn [length Nat.eqb].
  rewrite StrconvFacts.ParseInt_digits by done.
  by destruct (Spec.decimal (d :: ds) <=? Strconv.maxInt64).
Qed.

(** ** UTF-8: what is written to a builder is read back *)

Module Utf8Facts.

Import GoString GoStringFacts Utf8 Spec.

Lemma norm_valid r : valid (norm r).
Proof.
  unfold norm, valid, RuneError.
  destruct (Z.leb_spec 0 r), (Z.leb_spec r 0x10FFFF), (Z.leb_spec 0xD800 r),
    (Z.leb_spec r 0xDFFF); simpl; lia.
Qed.

Lemma norm_id r : valid r -> norm r = r.
Proof.
  unfold norm, valid. intros [? ?].
  destruct (Z.leb_spec 0 r), (Z.leb_spec r 0x10FFFF), (Z.leb_spec 0xD800 r),
    (Z.leb_spec r 0xDFFF); simpl; lia.
Qed.

Lemma EncodeRune_norm r : EncodeRune r = EncodeRune (norm r).
Proof.
  unfold norm.
  destruct (Z.leb_spec 0 r), (Z.leb_spec r 0x10FFFF), (Z.leb_spec 0xD800 r),
    (Z.leb_spec r 0xDFFF); simpl; try done;
    change (EncodeRune RuneError) with [0xEF; 0xBF; 0xBD];
    unfold EncodeRune, MaxRune;
    replace ((0 <=? r) && (r <=? 127)) with false by lia;
    replace ((0 <=? r) && (r <=? 2047)) with false by lia;
    by replace ((r <? 0) || (1114111 <? r) || (55296 <=? r) && (r <=? 57343))
      with true by lia.
Qed.

Lemma IsSpace_norm r : IsSpace r = false -> IsSpace (norm r) = false.
Proof.
  intros H. unfold norm. by destruct (_ && _).
Qed.

(** Bit operations on disjoint bits are sums. *)
Lemma lor_disjoint a x k :
  0 <= k -> 0 <= x < 2 ^ k -> Z.lor (a * 2 ^ k) x = a * 2 ^ k + x.
Proof.
  intros Hk Hx.
  assert (Hland : Z.land (a * 2 ^ k) x = 0).
  { apply Z.bits_inj'. intros n Hn. rewrite Z.land_spec, Z.bits_0.
    destruct (Z_lt_le_dec n k) as [Hlt|Hge].
    - by rewrite Z.mul_pow2_bits_low.
    - rewrite <- (Z.mod_small x (2 ^ k)) by lia.
      rewrite Z.mod_pow2_bits_high by lia. apply andb_false_r. }
  rewrite <- Z.lxor_lor by done. symmetry. by apply Z.add_nocarry_lxor.
Qed.

Lemma lor_byte (hi x : Z) (k : Z) a :
  hi = a * 2 ^ k -> 0 <= k -> 0 <= x < 2 ^ k -> Z.lor hi x = hi + x.
Proof. intros -> ? ?. by apply lor_disjoint. Qed.

Lemma land_low x k : 0 <= k -> Z.land x (Z.ones k) = x mod 2 ^ k.
Proof. intros. by apply Z.land_ones. Qed.

(** The encodings, in arithmetic. *)
Lemma EncodeRune_arith r :
  valid r ->
  EncodeRune r =
    if r <=? 0x7F then [r]
    else if r <=? 0x7FF then [0xC0 + r / 64; 0x80 + r mod 64]
    else if r <=? 0xFFFF then
      [0xE0 + r / 4096; 0x80 + (r / 64) mod 64; 0x80 + r mod 64]
    else
      [0xF0 + r / 262144; 0x80 + (r / 4096) mod 64; 0x80 + (r / 64) mod 64;
       0x80 + r mod 64].
Proof.
  intros [Hr Hs]. unfold EncodeRune, MaxRune.
  change 0x3F with (Z.ones 6).
  rewrite !land_low, !Z.shiftr_div_pow2 by lia.
  change (2 ^ 6) with 64. change (2 ^ 12) with 4096. change (2 ^ 18) with 262144.
  assert (H64 : forall y, 0 <= y mod 64 < 2 ^ 6)
    by (intros y; change (2 ^ 6) with 64; apply Z.mod_pos_bound; lia).
  destruct (Z.leb_spec r 0x7F) as [H1|H1].
  { by replace ((0 <=? r) && true) with true by lia. }
  replace ((0 <=? r) && false) with false by lia.
  destruct (Z.leb_spec r 0x7FF) as [H2|H2].
  { replace ((0 <=? r) && true) with true by lia.
    rewrite (lor_byte 0xC0 (r / 64) 6 3), (lor_byte 0x80 (r mod 64) 6 2); try done; try lia.
    change (2 ^ 6) with 64. Z.div_mod_to_equations. lia. }
  replace ((0 <=? r) && false) with false by lia.
  replace ((r <? 0) || (1114111 <? r) || (55296 <=? r) && (r <=? 57343))
    with false by lia.
  destruct (Z.leb_spec r 0xFFFF) as [H3|H3].
  { rewrite (lor_byte 0xE0 (r / 4096) 4 14), (lor_byte 0x80 (r mod 64) 6 2),
      (lor_byte 0x80 ((r / 64) mod 64) 6 2); try done; try lia.
    change (2 ^ 4) with 16. Z.div_mod_to_equations. lia. }
  rewrite (lor_byte 0xF0 (r / 262144) 3 30), (lor_byte 0x80 (r mod 64) 6 2),
    (lor_byte 0x80 ((r / 64) mod 64) 6 2), (lor_byte 0x80 ((r / 4096) mod 64) 6 2);
    try done; try lia.
  change (2 ^ 3) with 8. Z.div_mod_to_equations. lia.
Qed.

(** The value of a well-formed sequence, in arithmetic. *)
Lemma decode2 s0 s1 :
  0xC0 <= s0 <= 0xDF -> 0x80 <= s1 <= 0xBF ->
  Z.lor (Z.shiftl (Z.land s0 0x1F) 6) (Z.land s1 0x3F) = (s0 - 0xC0) * 64 + (s1 - 0x80).
Proof.
  intros H0 H1. change 0x1F with (Z.ones 5). change 0x3F with (Z.ones 6).
  rewrite !land_low, Z.shiftl_mul_pow2 by lia.
  change (2 ^ 5) with 32. change (2 ^ 6) with 64.
  replace (s0 mod 32) with (s0 - 0xC0) by (Z.div_mod_to_equations; lia).
  replace (s1 mod 64) with (s1 - 0x80) by (Z.div_mod_to_equations; lia).
  apply (lor_disjoint (s0 - 0xC0) (s1 - 0x80) 6); lia.
Qed.

Lemma decode3 s0 s1 s2 :
  0xE0 <= s0 <= 0xEF -> 0x80 <= s1 <= 0xBF -> 0x80 <= s2 <= 0xBF ->
  Z.lor (Z.lor (Z.shiftl (Z.land s0 0x0F) 12) (Z.shiftl (Z.land s1 0x3F) 6))
        (Z.land s2 0x3F)
  = (s0 - 0xE0) * 4096 + (s1 - 0x80) * 64 + (s2 - 0x80).
Proof.
  intros H0 H1 H2. change 0x0F with (Z.ones 4). change 0x3F with (Z.ones 6).
  rewrite !land_low, !Z.shiftl_mul_pow2 by lia.
  change (2 ^ 4) with 16. change (2 ^ 6) with 64. change (2 ^ 12) with 4096.
  replace (s0 mod 16) with (s0 - 0xE0) by (Z.div_mod_to_equations; lia).
  replace (s1 mod 64) with (s1 - 0x80) by (Z.div_mod_to_equations; lia).
  replace (s2 mod 64) with (s2 - 0x80) by (Z.div_mod_to_equations; lia).
  change 4096 with (2 ^ 12).
  rewrite (lor_disjoint (s0 - 0xE0) ((s1 - 0x80) * 64) 12) by lia.
  replace ((s0 - 224) * 2 ^ 12 + (s1 - 128) * 64)
    with (((s0 - 224) * 64 + (s1 - 128)) * 2 ^ 6) by lia.
  rewrite (lor_disjoint _ (s2 - 0x80) 6) by lia. lia.
Qed.

Lemma decode4 s0 s1 s2 s3 :
  0xF0 <= s0 <= 0xF7 -> 0x80 <= s1 <= 0xBF -> 0x80 <= s2 <= 0xBF -> 0x80 <= s3 <= 0xBF ->
  Z.lor (Z.lor (Z.lor (Z.shiftl (Z.land s0 0x07) 18) (Z.shiftl (Z.land s1 0x3F) 12))
               (Z.shiftl (Z.land s2 0x3F) 6))
        (Z.land s3 0x3F)
  = (s0 - 0xF0) * 262144 + (s1 - 0x80) * 4096 + (s2 - 0x80) * 64 + (s3 - 0x80).
Proof.
  intros H0 H1 H2 H3. change 0x07 with (Z.ones 3). change 0x3F with (Z.ones 6).
  rewrite !land_low, !Z.shiftl_mul_pow2 by lia.
  change (2 ^ 3) with 8. change (2 ^ 6) with 64.
  replace (s0 mod 8) with (s0 - 0xF0) by (Z.div_mod_to_equations; lia).
  replace (s1 mod 64) with (s1 - 0x80) by (Z.div_mod_to_equations; lia).
  replace (s2 mod 64) with (s2 - 0x80) by (Z.div_mod_to_equations; lia).
  replace (s3 mod 64) with (s3 - 0x80) by (Z.div_mod_to_equations; lia).
  rewrite (lor_disjoint (s0 - 0xF0) ((s1 - 0x80) * 2 ^ 12) 18) by lia.
  replace ((s0 - 240) * 2 ^ 18 + (s1 - 128) * 2 ^ 12)
    with (((s0 - 240) * 64 + (s1 - 128)) * 2 ^ 12) by lia.
  rewrite (lor_disjoint _ ((s2 - 0x80) * 64) 12) by lia.
  replace (((s0 - 240) * 64 + (s1 - 128)) * 2 ^ 12 + (s2 - 128) * 64)
    with ((((s0 - 240) * 64 + (s1 - 128)) * 64 + (s2 - 128)) * 2 ^ 6) by lia.
  rewrite (lor_disjoint _ (s3 - 0x80) 6) by lia. lia.
Qed.

(** A rune written by [WriteRune] is the next rune a [range] loop reads. *)
Lemma DecodeRune_EncodeRune r rest :
  valid r -> DecodeRune (EncodeRune r ++ rest) = (r, length (EncodeRune r)).
Proof.
  intros Hv. rewrite (EncodeRune_arith r Hv). destruct Hv as [Hr Hs].
  destruct (Z.leb_spec r 0x7F) as [H1|H1].
  { cbn [app DecodeRune length]. by replace (r <? 128) with true by lia. }
  destruct (Z.leb_spec r 0x7FF) as [H2|H2].
  { assert (Hd : r = 64 * (r / 64) + r mod 64 /\ 0 <= r mod 64 < 64)
      by (Z.div_mod_to_equations; lia).
    revert Hd. generalize (r / 64) (r mod 64). intros y z [Hd Hz].
    cbn [app length]. unfold DecodeRune, first, cont. zbool. cbn.
    zbool. cbn. rewrite decode2 by lia. f_equal. lia. }
  destruct (Z.leb_spec r 0xFFFF) as [H3|H3].
  { assert (Hd : r = 4096 * (r / 4096) + 64 * ((r / 64) mod 64) + r mod 64
                 /\ 0 <= (r / 64) mod 64 < 64 /\ 0 <= r mod 64 < 64)
      by (Z.div_mod_to_equations; lia).
    revert Hd. generalize (r / 4096) ((r / 64) mod 64) (r mod 64).
    intros x y z (Hd & Hy & Hz).
    cbn [app length]. unfold DecodeRune, cont.
    replace (224 + x <? 128) with false by lia.
    destruct (Z.eq_dec x 0) as [->|Hx0]; [|destruct (Z.eq_dec x 13) as [->|Hx13]];
      unfold first; zbool; cbn; zbool; cbn; rewrite decode3 by lia; f_equal; lia. }
  assert (Hd : r = 262144 * (r / 262144) + 4096 * ((r / 4096) mod 64)
                   + 64 * ((r / 64) mod 64) + r mod 64
               /\ 0 <= (r / 4096) mod 64 < 64 /\ 0 <= (r / 64) mod 64 < 64
               /\ 0 <= r mod 64 < 64)
    by (Z.div_mod_to_equations; lia).
  revert Hd. generalize (r / 262144) ((r / 4096) mod 64) ((r / 64) mod 64) (r mod 64).
  intros u x y z (Hd & Hx & Hy & Hz).
  cbn [app length]. unfold DecodeRune, cont.
  replace (240 + u <? 128) with false by lia.
  destruct (Z.eq_dec u 0) as [->|Hu0]; [|destruct (Z.eq_dec u 4) as [->|Hu4]];
    unfold first; zbool; cbn; zbool; cbn; rewrite decode4 by lia; f_equal; lia.
Qed.

Lemma EncodeRune_range r : Forall (fun b => 0 <= b < 256) (EncodeRune (norm r)).
Proof.
  pose proof (norm_valid r) as Hv. rewrite (EncodeRune_arith _ Hv).
  destruct Hv as [Hr Hs]. revert Hr Hs. generalize (norm r). clear r. intros r Hr Hs.
  destruct (Z.leb_spec r 0x7F); [repeat constructor; lia|].
  destruct (Z.leb_spec r 0x7FF);
    [repeat constructor; Z.div_mod_to_equations; lia|].
  destruct (Z.leb_spec r 0xFFFF); repeat constructor; Z.div_mod_to_equations; lia.
Qed.

Lemma EncodeRune_nonempty r : EncodeRune r <> [].
Proof.
  unfold EncodeRune. by repeat (destruct (_ : bool)).
Qed.

Lemma chunks_from_skip t rest :
  chunks_from (length t) (t ++ rest) = chunks_from 0 rest.
Proof. induction t as [|b t IH]; [done|]. simpl. apply IH. Qed.

Lemma chunks_from_EncodeRune r rest :
  valid r ->
  chunks_from 0 (EncodeRune r ++ rest) = (r, EncodeRune r) :: chunks_from 0 rest.
Proof.
  intros Hv. pose proof (DecodeRune_EncodeRune r rest Hv) as Hd.
  pose proof (EncodeRune_nonempty r) as Hne.
  destruct (EncodeRune r) as [|b t] eqn:E; [done|].
  cbn [app chunks_from]. cbn [app] in Hd. rewrite Hd.
  cbn [length]. rewrite Nat.sub_succ, Nat.sub_0_r, chunks_from_skip.
  f_equal. f_equal. change (b :: t ++ rest) with ((b :: t) ++ rest).
  change (Datatypes.S (length t)) with (length (b :: t)). by rewrite take_app_length.
Qed.

Lemma chunks_from_encode_all rs :
  Forall valid rs ->
  chunks_from 0 (encode_all rs) = map (fun r => (r, EncodeRune r)) rs.
Proof.
  unfold encode_all. induction 1 as [|r rs Hr _ IH]; [done|].
  cbn [map mjoin]. change (mjoin (map EncodeRune rs)) with (mjoin (map EncodeRune rs)).
  simpl. rewrite chunks_from_EncodeRune by done. by rewrite IH.
Qed.

Lemma encode_all_range rs : Forall valid rs -> Forall (fun b => 0 <= b < 256) (encode_all rs).
Proof.
  unfold encode_all. induction 1 as [|r rs Hr _ IH]; [constructor|].
  simpl. apply Forall_app. split; [|done].
  rewrite <- (norm_id r Hr). apply EncodeRune_range.
Qed.

Lemma encode_all_app rs1 rs2 : encode_all (rs1 ++ rs2) = encode_all rs1 ++ encode_all rs2.
Proof. unfold encode_all. by rewrite map_app, join_app. Qed.

(** White space is dropped from both ends and from nowhere else. *)
Lemma drop_spaces_keeps x l :
  x ∈ l -> space_chunk x = false -> x ∈ drop_spaces l.
Proof.
  intros Hin Hx. induction l as [|y l IH]; [done|].
  simpl. destruct (space_chunk y) eqn:Ey; [|done].
  apply elem_of_cons in Hin as [->|Hin]; [congruence|by apply IH].
Qed.

Lemma elem_of_rev {A} (x : A) l : x ∈ rev l <-> x ∈ l.
Proof. rewrite !list_elem_of_In. symmetry. apply in_rev. Qed.

Lemma TrimSpace_nonempty rs r :
  Forall valid rs -> r ∈ rs -> IsSpace r = false ->
  (0 < String.length (TrimSpace (of_bytes (encode_all rs))))%nat.
Proof.
  intros Hv Hr Hsp. unfold TrimSpace, chunks.
  rewrite bytes_of_bytes by (by apply encode_all_range).
  rewrite chunks_from_encode_all by done.
  set (l := map (fun r => (r, EncodeRune r)) rs).
  assert (Hx : (r, EncodeRune r) ∈ rev (drop_spaces (rev (drop_spaces l)))).
  { rewrite elem_of_rev. apply drop_spaces_keeps; [|done].
    rewrite elem_of_rev. apply drop_spaces_keeps; [|done].
    apply list_elem_of_fmap. by exists r. }
  rewrite length_of_bytes.
  generalize dependent (rev (drop_spaces (rev (drop_spaces l)))). intros k Hx.
  induction k as [|y k IH]; [by apply elem_of_nil in Hx|].
  rewrite fmap_cons. cbn [mjoin list_join]. rewrite length_app.
  apply elem_of_cons in Hx as [<-|Hx].
  - cbn [snd]. pose proof (EncodeRune_nonempty r).
    destruct (EncodeRune r); [done|]. cbn [length]. lia.
  - eapply Nat.lt_le_trans; [exact (IH Hx)|]. apply Nat.le_add_l.
Qed.

End Utf8Facts.

(** ** The statement splitter *)

Module SplitFacts.

Import GoString GoStringFacts Utf8 Utf8Facts Parse Spec.

Lemma written_empty : written [] EmptyString.
Proof. by split. Qed.

Lemma written_WriteRune rs s r :
  written rs s -> written (rs ++ [norm r]) (WriteRune s r).
Proof.
  intros [Hv ->]. split.
  - apply Forall_app. split; [done|]. apply Forall_cons. split; [apply norm_valid|constructor].
  - unfold WriteRune. rewrite encode_all_app, of_bytes_app. f_equal.
    unfold encode_all. simpl. by rewrite app_nil_r, <- EncodeRune_norm.
Qed.

Lemma scan_rune_written st r :
  (exists rs, written rs (sb st)) -> exists rs, written rs (sb (scan_rune st r)).
Proof.
  intros [rs Hw]. unfold scan_rune.
  destruct (r =? 59); [exists []; apply written_empty|].
  destruct (_ && _); [by exists rs|].
  eexists. cbn [sb]. by apply written_WriteRune.
Qed.

Lemma scan_rune_text st c :
  (exists rs, written rs (sb st)) ->
  c <> 59 -> IsSpace c = false -> holds_text (sb (scan_rune st c)).
Proof.
  intros [rs Hw] Hc Hsp. unfold scan_rune.
  replace (c =? 59) with false by lia.
  assert (Hne : c <> 13 /\ c <> 10 /\ c <> 9 /\ c <> 32).
  { split_and!; intros ->; by vm_compute in Hsp. }
  replace ((c =? 13) || (c =? 10) || (c =? 9)) with false by lia.
  replace (c =? 32) with false by lia. rewrite andb_false_r. cbn [sb].
  exists (rs ++ [norm c]), (norm c). split_and!.
  - by apply written_WriteRune.
  - apply elem_of_app. right. by left.
  - by apply IsSpace_norm.
Qed.

Lemma scan_rune_keeps st r :
  r <> 59 -> holds_text (sb st) -> holds_text (sb (scan_rune st r)).
Proof.
  intros Hr (rs & x & Hw & Hx & Hsp). unfold scan_rune.
  replace (r =? 59) with false by lia.
  destruct (_ && _); [by exists rs, x|]. cbn [sb].
  eexists _, x. split_and!; [by apply written_WriteRune| |done].
  apply elem_of_app. by left.
Qed.

Lemma fold_scan_written rs' st :
  (exists rs, written rs (sb st)) ->
  exists rs, written rs (sb (fold_left scan_rune rs' st)).
Proof.
  revert st. induction rs' as [|r rs' IH]; intros st H; [done|].
  simpl. by apply IH, scan_rune_written.
Qed.

Lemma fold_scan_keeps rs' st :
  59 ∉ rs' -> holds_text (sb st) -> holds_text (sb (fold_left scan_rune rs' st)).
Proof.
  revert st. induction rs' as [|r rs' IH]; intros st Hno H; [done|].
  simpl. apply IH.
  - intros Hin. apply Hno. by right.
  - apply scan_rune_keeps; [|done]. intros ->. apply Hno. by left.
Qed.

End SplitFacts.

(** C8: when the text left by the removal of the comments holds a rune
    that is neither white space nor [;] with no [;] after it (so also when
    the text holds no [;] at all), [parseStatementsFromString] returns the
    error of a statement that is not terminated, and no statements. *)
Theorem unterminated_statement_rejected {RT : Runtime}
    (str : string) (before after : list Z) (c : Z) :
  Utf8.runes (commentsRegex_ReplaceAllString str " ") = before ++ c :: after ->
  Utf8.IsSpace c = false ->
  c <> 59 ->
  59 ∉ after ->
  Parse.parseStatementsFromString str = Err Parse.ErrNonTerminated.
Proof.
  intros Hrunes Hsp Hc Hafter. unfold Parse.parseStatementsFromString.
  rewrite Hrunes, fold_left_app. cbn [fold_left].
  set (st0 := fold_left Parse.scan_rune before (Parse.Scanner [] EmptyString 0)).
  assert (H0 : exists rs, Spec.written rs (Parse.sb st0)).
  { apply SplitFacts.fold_scan_written. exists []. apply SplitFacts.written_empty. }
  pose proof (SplitFacts.scan_rune_text st0 c H0 Hc Hsp) as H1.
  pose proof (SplitFacts.fold_scan_keeps after _ Hafter H1) as (rs & r & [Hv ->] & Hr & Hr').
  pose proof (Utf8Facts.TrimSpace_nonempty rs r Hv Hr Hr') as Hlen.
  apply Nat.ltb_lt in Hlen. by rewrite Hlen.
Qed.

Lemma unterminated_statement_rejected_witness :
  Parse.parseStatementsFromString (RT := Examples.runtime)
    "INSERT INTO t VALUES (1); INSERT INTO t VALUES (2)" = Err Parse.ErrNonTerminated.
Proof.
  apply (unterminated_statement_rejected (RT := Examples.runtime)
           "INSERT INTO t VALUES (1); INSERT INTO t VALUES (2)"
           (Utf8.runes "INSERT INTO t VALUES (1); INSERT INTO t VALUES (2")
           [] 41).
  - by vm_compute.
  - by vm_compute.
  - discriminate.
  - apply not_elem_of_nil.
Defined.

(** The splitter on the examples of the specification. *)
Example split_examples :
  Parse.parseStatementsFromString (RT := Examples.runtime)
    ("INSERT INTO t VALUES (1);" ++ GoString.nl ++ "INSERT INTO   t VALUES (2);")
  = Ok ["INSERT INTO t VALUES (1)"%string; "INSERT INTO t VALUES (2)"%string]
  /\ Parse.parseStatementsFromString (RT := Examples.runtime) "INSERT INTO t VALUES (1)"
     = Err Parse.ErrNonTerminated
  /\ Parse.parseStatementsFromString (RT := Examples.runtime) ";;" = Ok [].
Proof. by vm_compute. Qed.

(** ** The checksum *)

Module HashFacts.

Import GoString GoStringFacts Spec Sqlm.

Lemma bytes_Join l : bytes (Join l ";") = join_bytes (map bytes l).
Proof.
  induction l as [|s l IH]; [done|]. destruct l as [|s' l]; [done|].
  change (Join (s :: s' :: l) ";") with (s ++ ";" ++ Join (s' :: l) ";")%string.
  rewrite !bytes_app, IH. done.
Qed.

(** Two texts cut at their first separator agree piece by piece. *)
Lemma first_separator s1 s2 t1 t2 :
  59 ∉ s1 -> 59 ∉ s2 ->
  s1 ++ 59 :: t1 = s2 ++ 59 :: t2 -> s1 = s2 /\ t1 = t2.
Proof.
  revert s2. induction s1 as [|b s1 IH]; intros [|b' s2] H1 H2 Heq; simpl in *.
  - by injection Heq.
  - injection Heq as Hb _. subst b'. destruct H2. by left.
  - injection Heq as Hb _. subst b. destruct H1. by left.
  - injection Heq as Hb Heq. subst b'.
    destruct (IH s2) as [E1 E2]; [| |done|by subst].
    + intros Hin. apply H1. by right.
    + intros Hin. apply H2. by right.
Qed.

Lemma join_bytes_inj l1 l2 :
  Forall (fun s => s <> [] /\ 59 ∉ s) l1 ->
  Forall (fun s => s <> [] /\ 59 ∉ s) l2 ->
  join_bytes l1 = join_bytes l2 -> l1 = l2.
Proof.
  intros H1. revert l2.
  induction H1 as [|s1 l1 [Hne1 Hs1] Hl1 IH]; intros l2 H2 Heq.
  - destruct H2 as [|s2 l2 [Hne2 _] _]; [done|].
    destruct l2; simpl in Heq; [by subst|]. by destruct s2.
  - destruct H2 as [|s2 l2 [Hne2 Hs2] Hl2].
    { destruct l1; simpl in Heq; [by subst|]. by destruct s1. }
    destruct l1 as [|x l1], l2 as [|y l2]; simpl in Heq.
    + by subst.
    + subst s1. destruct Hs1. apply elem_of_app. right. by left.
    + subst s2. destruct Hs2. apply elem_of_app. right. by left.
    + apply first_separator in Heq as [-> Heq]; [|done..].
      f_equal. by apply IH.
Qed.

Lemma Join_inj l1 l2 :
  Forall plain_statement l1 -> Forall plain_statement l2 ->
  Join l1 ";" = Join l2 ";" -> l1 = l2.
Proof.
  intros H1 H2 Heq.
  assert (Hb : forall l, Forall plain_statement l ->
                         Forall (fun s => s <> [] /\ 59 ∉ s) (map bytes l)).
  { intros l Hl. apply Forall_map. eapply Forall_impl; [exact Hl|].
    intros s [Hne Hs]. split; [|done]. by destruct s. }
  apply (f_equal bytes) in Heq. rewrite !bytes_Join in Heq.
  apply join_bytes_inj in Heq; [|auto..].
  revert Heq. clear. revert l2.
  induction l1 as [|s l1 IH]; intros [|s' l2] Heq; simplify_eq/=; [done|].
  f_equal; [by apply bytes_inj|by apply IH].
Qed.

(** [hex.EncodeToString] loses nothing. *)
Lemma undigit_digit n : 0 <= n < 16 -> undigit (Hex.digit n) = n.
Proof.
  intros Hn.
  assert (Hall : forallb (fun k => undigit (Hex.digit (Z.of_nat k)) =? Z.of_nat k)
                         (seq 0 16) = true) by (by vm_compute).
  rewrite forallb_forall in Hall.
  specialize (Hall (Z.to_nat n)). rewrite Z2Nat.id in Hall by lia.
  apply Z.eqb_eq, Hall, in_seq. lia.
Qed.

Lemma EncodeToString_inj l1 l2 :
  Forall (fun b => 0 <= b < 256) l1 -> Forall (fun b => 0 <= b < 256) l2 ->
  Hex.EncodeToString l1 = Hex.EncodeToString l2 -> l1 = l2.
Proof.
  intros H1. revert l2.
  induction H1 as [|b l1 Hb _ IH]; intros l2 H2 Heq;
    destruct H2 as [|b' l2 Hb' H2]; simpl in Heq; try done.
  injection Heq as Hhi Hlo Heq.
  apply (f_equal undigit) in Hhi, Hlo.
  change 15 with (Z.ones 4) in Hlo.
  rewrite !Z.land_ones in Hlo by lia.
  rewrite !Z.shiftr_div_pow2 in Hhi by lia.
  change (2 ^ 4) with 16 in *.
  rewrite !undigit_digit in Hhi, Hlo by (Z.div_mod_to_equations; lia).
  f_equal; [Z.div_mod_to_equations; lia|by apply IH].
Qed.

Lemma be_bytes_range n x : Forall (fun b => 0 <= b < 256) (Sha256.be_bytes n x).
Proof.
  unfold Sha256.be_bytes. apply Forall_map, Forall_forall. intros i _. simpl.
  apply Z.mod_pos_bound. lia.
Qed.

Lemma Sum256_range data : Forall (fun b => 0 <= b < 256) (Sha256.Sum256 data).
Proof.
  unfold Sha256.Sum256. generalize (Sha256.blocks (length (Sha256.pad data)) Sha256.H0 (Sha256.pad data)).
  induction l as [|x l IH]; cbn [flat_map]; [constructor|].
  apply Forall_app. split; [apply be_bytes_range|done].
Qed.

Lemma hash_eq_digest m1 m2 :
  hash m1 = hash m2 <->
  Sha256.Sum256 (bytes (hashed_text m1)) = Sha256.Sum256 (bytes (hashed_text m2)).
Proof.
  unfold hash, hashed_text. split; [|by intros ->].
  apply EncodeToString_inj; apply Sum256_range.
Qed.

(** The digests of the standard's sample messages (FIPS 180-4: the empty
    message, one block, two blocks). *)
Example Sum256_samples :
  Hex.EncodeToString (Sha256.Sum256 (bytes EmptyString)) =
    "e3b0c44298fc1c149afbf4c8996fb92427ae41e4649b934ca495991b7852b855"
  /\ Hex.EncodeToString (Sha256.Sum256 (bytes "abc")) =
    "ba7816bf8f01cfea414140de5dae2223b00361a396177a9cb410ff61f20015ad"
  /\ Hex.EncodeToString (Sha256.Sum256
       (bytes "abcdbcdecdefdefgefghfghighijhijkijkljklmklmnlmnomnopnopq")) =
    "248d6a61d20638b8e5c026930c3e6039a33ce45964ff2167f6ecedd419db06c1".
Proof. by vm_compute. Qed.

End HashFacts.

(** C2, as the code has it: the checksum is the hexadecimal SHA-256 digest
    of the statements joined by [;]. For migrations whose statements are
    not empty and hold no [;], a change of a statement's text or of the
    number of statements changes the text that is digested; and the
    checksums of two migrations are equal exactly when the digests of their
    texts are. *)
Theorem hash_detects_change (m1 m2 : Migration) :
  Forall Spec.plain_statement (Migration.Statements m1) ->
  Forall Spec.plain_statement (Migration.Statements m2) ->
  Migration.Statements m1 <> Migration.Statements m2 ->
  Spec.hashed_text m1 <> Spec.hashed_text m2
  /\ (Sqlm.hash m1 = Sqlm.hash m2 <->
      Sha256.Sum256 (GoString.bytes (Spec.hashed_text m1)) =
      Sha256.Sum256 (GoString.bytes (Spec.hashed_text m2))).
Proof.
  intros H1 H2 Hne. split; [|apply HashFacts.hash_eq_digest].
  intros Heq. apply Hne. by apply HashFacts.Join_inj.
Qed.

Lemma hash_detects_change_witness :
  Spec.hashed_text (Migration.mk "g" 1 ["a"] "g_1.sql")
    <> Spec.hashed_text (Migration.mk "g" 1 ["a"; "b"] "g_1.sql")
  /\ (Sqlm.hash (Migration.mk "g" 1 ["a"] "g_1.sql")
        = Sqlm.hash (Migration.mk "g" 1 ["a"; "b"] "g_1.sql") <->
      Sha256.Sum256 (GoString.bytes (Spec.hashed_text (Migration.mk "g" 1 ["a"] "g_1.sql"))) =
      Sha256.Sum256 (GoString.bytes (Spec.hashed_text (Migration.mk "g" 1 ["a"; "b"] "g_1.sql")))).
Proof.
  apply hash_detects_change.
  - repeat constructor; [discriminate|]. intros H. by repeat (apply elem_of_cons in H as [H|H]; [discriminate H|]); apply elem_of_nil in H.
  - repeat constructor; try discriminate; intros H; by repeat (apply elem_of_cons in H as [H|H]; [discriminate H|]); apply elem_of_nil in H.
  - discriminate.
Defined.

(** C2 as stated fails: one statement [a;b] and the two statements [a] and
    [b] are different sequences with one checksum. *)
Lemma hash_collision_on_split :
  Migration.Statements (Migration.mk "g" 1 ["a;b"] "g_1.sql")
    <> Migration.Statements (Migration.mk "g" 1 ["a"; "b"] "g_1.sql")
  /\ Sqlm.hash (Migration.mk "g" 1 ["a;b"] "g_1.sql")
     = Sqlm.hash (Migration.mk "g" 1 ["a"; "b"] "g_1.sql").
Proof.
  split; [discriminate|]. unfold Sqlm.hash.
  apply (f_equal (fun s => Hex.EncodeToString (Sha256.Sum256 (GoString.bytes s)))).
  reflexivity.
Qed.

(** ** [Apply] up to the uniqueness check, on any database *)

Module ApplyFacts.

Import GoString Spec Sqlm.

Section WithDB.
Context {RT : Runtime} {S : Type} {DBI : DB S}.

Implicit Types w : world S.

Lemma calls_since_app w w' evs :
  w_trace w' = w_trace w ++ evs -> calls_since w w' = evs.
Proof. unfold calls_since. intros ->. by rewrite drop_app_length. Qed.

Lemma call_Exec_spec at_ q args w :
  exists db r,
    Exec (w_db w) q args = (db, r)
    /\ call_Exec at_ q args w =
       (match r with None => Ok tt | Some e => Err e end,
        World db (w_clock w) (w_trace w ++ [Event at_ q args r])).
Proof.
  unfold call_Exec. destruct (Exec (w_db w) q args) as [db r].
  exists db, r. split; [done|]. by destruct r.
Qed.

Lemma call_Query_spec at_ q args w :
  exists db r,
    Query (w_db w) q args = (db, r)
    /\ call_Query at_ q args w =
       (r, World db (w_clock w)
             (w_trace w ++ [Event at_ q args (match r with Err e => Some e | Ok _ => None end)])).
Proof.
  unfold call_Query. destruct (Query (w_db w) q args) as [db r]. by exists db, r.
Qed.

(** [version], [CreateTable] and [History] each call the handle once. *)
Lemma version_trace w r w' :
  version w = (r, w') ->
  exists e, ev_site e = AtVersion /\ w_trace w' = w_trace w ++ [e]
            /\ w_clock w' = w_clock w.
Proof.
  unfold version, bind, wrap, lift.
  destruct (call_Query_spec AtVersion versionQuery [] w) as (db & q & _ & ->).
  destruct q as [e|rows]; [|destruct (version_scan _ _)];
    intros H; injection H as _ <-; simpl;
    (eexists; split; [|split]; [|reflexivity|reflexivity]; reflexivity).
Qed.

Lemma CreateTable_trace w r w' :
  CreateTable w = (r, w') ->
  exists e, ev_site e = AtCreateTable /\ w_trace w' = w_trace w ++ [e]
            /\ w_clock w' = w_clock w.
Proof.
  unfold CreateTable, wrap.
  destruct (call_Exec_spec AtCreateTable createMigrationTable [] w) as (db & q & _ & ->).
  destruct q; intros H; injection H as _ <-; simpl;
    (eexists; split; [|split]; [|reflexivity|reflexivity]; reflexivity).
Qed.

Lemma History_trace w r w' :
  History w = (r, w') ->
  exists e, ev_site e = AtHistory /\ w_trace w' = w_trace w ++ [e]
            /\ w_clock w' = w_clock w.
Proof.
  unfold History, bind, wrap, lift, ret.
  destruct (call_Query_spec AtHistory historyQuery [] w) as (db & q & _ & ->).
  destruct q as [e|rows]; [|destruct (History_scan _ _); [|destruct (rows_Err rows)]];
    intros H; injection H as _ <-; simpl;
    (eexists; split; [|split]; [|reflexivity|reflexivity]; reflexivity).
Qed.

Lemma load_history_trace w r w' :
  load_history w = (Ok r, w') ->
  map ev_site (calls_since w w') = [AtVersion; AtCreateTable; AtHistory]
  /\ w_clock w' = w_clock w.
Proof.
  unfold load_history, bind, wrap, ret.
  destruct (version w) as [[e|dbType] w1] eqn:E1; [done|].
  destruct (CreateTable w1) as [[e|[]] w2] eqn:E2; [done|].
  destruct (History w2) as [[e|entries] w3] eqn:E3; [done|].
  intros H. injection H as _ <-.
  apply version_trace in E1 as (e1 & Hs1 & Ht1 & Hc1).
  apply CreateTable_trace in E2 as (e2 & Hs2 & Ht2 & Hc2).
  apply History_trace in E3 as (e3 & Hs3 & Ht3 & Hc3).
  split; [|congruence].
  rewrite (calls_since_app w w3 [e1; e2; e3]).
  - simpl. by rewrite Hs1, Hs2, Hs3.
  - rewrite Ht3, Ht2, Ht1, <- !app_assoc. done.
Qed.

(** [Apply] is its first three steps followed by the checks and the loop. *)
Lemma Apply_load seed1 seed2 migrations w :
  Apply seed1 seed2 migrations w =
    match load_history w with
    | (Err e, w') => (Err e, w')
    | (Ok (dbType, entries), w') =>
        match check_dirty entries with
        | Err e => (Err e, w')
        | Ok _ =>
            match group_pending entries migrations ∅ with
            | Err e => (Err e, w')
            | Ok groups =>
                match uniqueness_check (range_keys seed1 groups) groups with
                | Err e => (Err e, w')
                | Ok groups =>
                    apply_groups dbType (range_keys seed2 groups) groups w'
                end
            end
        end
    end.
Proof.
  unfold Apply, load_history, bind, wrap, lift, ret.
  destruct (version w) as [[e|dbType] w1]; [done|].
  destruct (CreateTable w1) as [[e|[]] w2]; [done|].
  destruct (History w2) as [[e|entries] w3]; [done|].
  destruct (check_dirty entries) as [e|[]]; [done|].
  destruct (group_pending entries migrations ∅) as [e|groups]; [done|].
  by destruct (uniqueness_check (range_keys seed1 groups) groups).
Qed.

Lemma check_dirty_Err entries :
  (exists entry, entry ∈ entries /\ HistoryEntry.Status entry <> Success) ->
  exists bad, bad ∈ entries /\ HistoryEntry.Status bad <> Success
              /\ check_dirty entries = Err (ErrDirty bad).
Proof.
  induction entries as [|e entries IH]; intros (entry & Hin & Hne).
  - by apply elem_of_nil in Hin.
  - simpl. destruct (String.eqb_spec (HistoryEntry.Status e) Success) as [Heq|Hneq]; simpl.
    + apply elem_of_cons in Hin as [->|Hin]; [done|].
      destruct IH as (bad & Hbad & Hst & ->); [by exists entry|].
      exists bad. split; [by right|done].
    + exists e. split; [by left|done].
Qed.

Lemma check_dirty_Ok entries :
  check_dirty entries = Ok tt <->
  Forall (fun e => HistoryEntry.Status e = Success) entries.
Proof.
  induction entries as [|e entries IH]; simpl.
  - split; [constructor|done].
  - destruct (String.eqb_spec (HistoryEntry.Status e) Success) as [Heq|Hneq]; simpl.
    + rewrite IH. split; [by constructor|by inversion 1].
    + split; [done|]. by inversion 1.
Qed.

(** The inner loop: what its three results mean. *)
Lemma already_applied_Err m entries e :
  already_applied m entries = Err e ->
  exists entry, e = ErrModified entry m /\ entry ∈ entries
                /\ entry_key entry = migration_key m
                /\ HistoryEntry.Checksum entry <> hash m.
Proof.
  induction entries as [|x entries IH]; simpl; [done|].
  destruct (String.eqb_spec (Migration.Group m) (HistoryEntry.Group x)) as [Hg|Hg]; simpl.
  2:{ intros H. destruct (IH H) as (entry & ? & ? & ?).
      exists entry. split_and!; [done|by right|tauto..]. }
  destruct (Z.eqb_spec (Migration.Version m) (HistoryEntry.Version x)) as [Hv|Hv].
  2:{ intros H. destruct (IH H) as (entry & ? & ? & ?).
      exists entry. split_and!; [done|by right|tauto..]. }
  destruct (String.eqb_spec (hash m) (HistoryEntry.Checksum x)) as [Hc|Hc]; simpl; [done|].
  intros [= <-]. exists x. split_and!; [done|by left| |done].
  unfold entry_key, migration_key. by rewrite Hg, Hv.
Qed.

Lemma already_applied_drift m entries entry :
  NoDup (map entry_key entries) ->
  entry ∈ entries ->
  entry_key entry = migration_key m ->
  HistoryEntry.Checksum entry <> hash m ->
  already_applied m entries = Err (ErrModified entry m).
Proof.
  intros Hnd Hin Hkey Hsum.
  induction entries as [|x entries IH]; [by apply elem_of_nil in Hin|].
  simpl in Hnd. apply NoDup_cons in Hnd as [Hx Hnd].
  simpl. apply elem_of_cons in Hin as [<-|Hin].
  - injection Hkey as Hg Hv. rewrite <- Hg, <- Hv, String.eqb_refl, Z.eqb_refl. simpl.
    destruct (String.eqb_spec (hash m) (HistoryEntry.Checksum entry)); [congruence|done].
  - destruct (String.eqb_spec (Migration.Group m) (HistoryEntry.Group x)) as [Hg|Hg];
      simpl; [|by apply IH].
    destruct (Z.eqb_spec (Migration.Version m) (HistoryEntry.Version x)) as [Hv|Hv];
      [|by apply IH].
    destruct Hx. apply list_elem_of_fmap. exists entry. split; [|done].
    rewrite Hkey. unfold entry_key, migration_key. by rewrite Hg, Hv.
Qed.

Lemma already_applied_Ok m entries b :
  already_applied m entries = Ok b -> b = negb (is_pending entries m).
Proof.
  unfold is_pending. rewrite negb_involutive.
  induction entries as [|x entries IH]; simpl; [by intros [= <-]|].
  destruct (String.eqb (Migration.Group m) (HistoryEntry.Group x)
            && (Migration.Version m =? HistoryEntry.Version x)); simpl; [|done].
  destruct (negb _); [done|]. by intros [= <-].
Qed.

Lemma group_pending_drift entries migrations groups m entry :
  NoDup (map entry_key entries) ->
  m ∈ migrations -> entry ∈ entries ->
  entry_key entry = migration_key m ->
  HistoryEntry.Checksum entry <> hash m ->
  exists entry' m',
    group_pending entries migrations groups = Err (ErrModified entry' m')
    /\ m' ∈ migrations /\ entry' ∈ entries
    /\ entry_key entry' = migration_key m'
    /\ HistoryEntry.Checksum entry' <> hash m'.
Proof.
  intros Hnd Hm Hin Hkey Hsum. revert groups.
  induction migrations as [|x migrations IH]; intros groups;
    [by apply elem_of_nil in Hm|].
  simpl. destruct (already_applied x entries) as [e|b] eqn:E.
  - apply already_applied_Err in E as (entry' & -> & ? & ? & ?).
    exists entry', x. split_and!; [done|by left|done..].
  - apply elem_of_cons in Hm as [->|Hm].
    { by rewrite (already_applied_drift x entries entry) in E. }
    destruct b.
    + destruct (IH Hm groups) as (entry' & m' & ? & ? & ?).
      exists entry', m'. split_and!; [done|by right|tauto..].
    + destruct (IH Hm (<[Migration.Group x := default [] (groups !! Migration.Group x) ++ [x]]> groups))
        as (entry' & m' & ? & ? & ?).
      exists entry', m'. split_and!; [done|by right|tauto..].
Qed.

(** The check of the versions lets every list without a negative version
    pass: [strictMonotonicVersion] stays at -1. *)
Lemma check_versions_negative candidates :
  check_versions (-1) candidates = Ok tt <->
  Forall (fun m => 0 <= Migration.Version m) candidates.
Proof.
  induction candidates as [|m candidates IH]; simpl.
  - split; [constructor|done].
  - destruct (Z.leb_spec (Migration.Version m) (-1)).
    + split; [done|]. inversion 1; lia.
    + rewrite IH. split; [constructor; [lia|done]|by inversion 1].
Qed.

End WithDB.

End ApplyFacts.

(** C3: when the loaded history holds an entry whose status is not success,
    [Apply] returns the dirty-state error with such an entry, whatever the
    migrations supplied and their groups; the handle has been called for the
    version, the table and the history and for nothing else: no row was
    inserted, no statement executed. *)
Theorem dirty_history_blocks {RT : Runtime} {S : Type} {DBI : DB S}
    (seed1 seed2 : list nat) (migrations : list Migration) (w w' : world S)
    (dbType : string) (entries : list HistoryEntry) (entry : HistoryEntry) :
  Spec.load_history w = (Ok (dbType, entries), w') ->
  entry ∈ entries ->
  HistoryEntry.Status entry <> Sqlm.Success ->
  exists bad,
    bad ∈ entries /\ HistoryEntry.Status bad <> Sqlm.Success
    /\ Sqlm.Apply seed1 seed2 migrations w = (Err (ErrDirty bad), w')
    /\ map ev_site (Spec.calls_since w w') = [AtVersion; AtCreateTable; AtHistory].
Proof.
  intros Hload Hin Hst.
  destruct (ApplyFacts.check_dirty_Err entries) as (bad & Hbad & Hne & Hdirty);
    [by exists entry|].
  exists bad. split_and!; [done..| |by eapply ApplyFacts.load_history_trace].
  by rewrite ApplyFacts.Apply_load, Hload, Hdirty.
Qed.

(** C4, as the code has it: when every entry of the loaded history has
    status success, the entries have distinct identities (the primary key
    of the table), and an entry has the group and version of a supplied
    migration and another checksum than its [hash], [Apply] returns the
    drift error for such a pair; the handle has been called for the
    version, the table and the history and for nothing else. *)
Theorem drift_blocks {RT : Runtime} {S : Type} {DBI : DB S}
    (seed1 seed2 : list nat) (migrations : list Migration) (w w' : world S)
    (dbType : string) (entries : list HistoryEntry) (entry : HistoryEntry)
    (m : Migration) :
  Spec.load_history w = (Ok (dbType, entries), w') ->
  Forall (fun e => HistoryEntry.Status e = Sqlm.Success) entries ->
  NoDup (map Spec.entry_key entries) ->
  m ∈ migrations -> entry ∈ entries ->
  Spec.entry_key entry = Spec.migration_key m ->
  HistoryEntry.Checksum entry <> Sqlm.hash m ->
  exists entry' m',
    m' ∈ migrations /\ entry' ∈ entries
    /\ Spec.entry_key entry' = Spec.migration_key m'
    /\ HistoryEntry.Checksum entry' <> Sqlm.hash m'
    /\ Sqlm.Apply seed1 seed2 migrations w = (Err (ErrModified entry' m'), w')
    /\ map ev_site (Spec.calls_since w w') = [AtVersion; AtCreateTable; AtHistory].
Proof.
  intros Hload Hclean Hnd Hm Hin Hkey Hsum.
  destruct (ApplyFacts.group_pending_drift entries migrations ∅ m entry)
    as (entry' & m' & Hgp & ? & ? & ? & ?); [done..|].
  exists entry', m'. split_and!; [done..| |by eapply ApplyFacts.load_history_trace].
  apply ApplyFacts.check_dirty_Ok in Hclean.
  by rewrite ApplyFacts.Apply_load, Hload, Hclean, Hgp.
Qed.

(** ** The order of the pending candidates *)

Module OrderFacts.

Import GoString Spec Sqlm ApplyFacts.

(** [sort.Slice] by version gives a sorted permutation. *)
Lemma insertionSort_place_perm (x : Migration) l :
  insertionSort_place by_version x l ≡ₚ x :: l.
Proof.
  induction l as [|y l IH]; simpl; [done|].
  destruct (by_version x y); [done|]. rewrite IH. apply Permutation_swap.
Qed.


Lemma sort_Slice_perm (l : list Migration) : sort_Slice by_version l ≡ₚ l.
Proof.
  unfold sort_Slice.
  assert (H : forall acc, fold_left (fun acc x => insertionSort_place by_version x acc) l acc
                          ≡ₚ acc ++ l).
  { induction l as [|x l IH]; intros acc; simpl; [by rewrite app_nil_r|].
    rewrite IH, insertionSort_place_perm. simpl. apply Permutation_middle. }
  by rewrite H.
Qed.


(** The order of a [range] over a map is a permutation of its keys. *)
Lemma pick_order_perm {A} (seed : list nat) (l : list A) : pick_order seed l ≡ₚ l.
Proof.
  revert l. induction seed as [|i seed IH]; intros l; simpl; [done|].
  destruct (l !! (i mod length l)%nat) as [x|] eqn:E.
  - rewrite IH. symmetry. by apply delete_Permutation.
  - destruct l as [|y l]; [done|].
    apply lookup_ge_None in E. simpl in E.
    pose proof (Nat.mod_upper_bound i (Datatypes.S (length l))). lia.
Qed.

Lemma range_keys_NoDup {V} seed (m : gmap string V) : NoDup (range_keys seed m).
Proof.
  unfold range_keys. rewrite pick_order_perm. apply NoDup_fst_map_to_list.
Qed.

Lemma elem_of_range_keys {V} seed (m : gmap string V) k :
  k ∈ range_keys seed m <-> is_Some (m !! k).
Proof.
  unfold range_keys. rewrite pick_order_perm, list_elem_of_fmap. split.
  - intros ([k' v] & -> & Hin). apply elem_of_map_to_list in Hin. by exists v.
  - intros [v Hv]. exists (k, v). split; [done|]. by apply elem_of_map_to_list.
Qed.

(** Every order of the keys is one that some seed draws. *)
Lemma pick_order_any {A} (l l' : list A) :
  l ≡ₚ l' -> exists seed, pick_order seed l = l'.
Proof.
  intros Hp. revert l Hp.
  induction l' as [|x l' IH]; intros l Hp.
  - apply Permutation_nil_r in Hp as ->. by exists [].
  - assert (Hx : x ∈ l) by (rewrite Hp; by left).
    apply list_elem_of_lookup in Hx as [i Hi].
    destruct (IH (delete i l)) as [seed Hseed].
    { apply (delete_Permutation l i x) in Hi. rewrite Hi in Hp.
      by apply (inj (cons x)) in Hp. }
    exists (i :: seed). simpl.
    assert (Hlt : (i < length l)%nat) by (by eapply lookup_lt_Some).
    rewrite Nat.mod_small by done. by rewrite Hi, Hseed.
Qed.

(** What the grouping loop builds: under each group, the pending candidates
    of the group in the order supplied. *)
Lemma group_pending_spec entries migrations acc groups g :
  group_pending entries migrations acc = Ok groups ->
  default [] (groups !! g) = default [] (acc !! g) ++ candidates_of entries migrations g.
Proof.
  unfold candidates_of.
  revert acc. induction migrations as [|m migrations IH]; intros acc; simpl.
  - intros [= ->]. by rewrite app_nil_r.
  - destruct (already_applied m entries) as [e|b] eqn:E; [done|].
    apply already_applied_Ok in E.
    rewrite (filter_cons (fun m => is_pending entries m)).
    destruct b; intros H; apply IH in H; rewrite H;
      destruct (is_pending entries m); simpl in E; try discriminate E.
    + by rewrite decide_False by (by intros []).
    + rewrite decide_True by done.
      rewrite filter_cons. case_decide as Hg.
      * subst g. rewrite lookup_insert_eq. simpl. by rewrite <- app_assoc.
      * by rewrite lookup_insert_ne.
Qed.

Lemma group_pending_nonempty entries migrations acc groups g l :
  (forall g l, acc !! g = Some l -> l <> []) ->
  group_pending entries migrations acc = Ok groups ->
  groups !! g = Some l -> l <> [].
Proof.
  revert acc. induction migrations as [|m migrations IH]; intros acc Hacc; simpl.
  - intros [= ->]. apply Hacc.
  - destruct (already_applied m entries) as [e|[]]; [done|by apply IH|].
    apply IH. intros g' l'. destruct (decide (Migration.Group m = g')) as [->|Hne].
    + rewrite lookup_insert_eq. intros [= <-]. by destruct (default [] _).
    + rewrite lookup_insert_ne by done. apply Hacc.
Qed.

(** The uniqueness check, when it passes, leaves every group sorted. *)
Lemma uniqueness_check_Ok keys groups groups' :
  NoDup keys ->
  uniqueness_check keys groups = Ok groups' ->
  forall k, groups' !! k =
            if decide (k ∈ keys) then Some (sort_Slice by_version (default [] (groups !! k)))
            else groups !! k.
Proof.
  intros Hnd. revert groups.
  induction Hnd as [|x keys Hx Hnd IH]; intros groups; cbn [uniqueness_check].
  - intros [= ->] k. rewrite decide_False; [done|]. apply not_elem_of_nil.
  - fold by_version.
    destruct (check_versions (-1) _) as [e|[]]; [done|].
    intros H k. rewrite (IH _ H).
    destruct (decide (k = x)) as [->|Hne].
    + rewrite decide_False by done. rewrite lookup_insert_eq.
      rewrite decide_True; [done|by left].
    + rewrite lookup_insert_ne by done.
      destruct (decide (k ∈ keys)) as [Hin|Hnin].
      * rewrite decide_True; [done|by right].
      * rewrite decide_False; [done|]. intros [?|?]%elem_of_cons; done.
Qed.

End OrderFacts.

(** ** The calls of the last loop of [Apply], on any database *)

Module TraceFacts.

Import GoString Spec Sqlm ApplyFacts.


Lemma executed_app evs1 evs2 : executed (evs1 ++ evs2) = executed evs1 ++ executed evs2.
Proof. apply omap_app. Qed.


Lemma executed_cons e evs : executed (e :: evs) = executed [e] ++ executed evs.
Proof. apply (executed_app [e]). Qed.


Lemma executed_AtExecute evs :
  Forall (fun e => ev_site e = AtExecute) evs -> executed evs = map ev_query evs.
Proof.
  induction 1 as [|e evs He _ IH]; [done|].
  rewrite executed_cons, IH.
  unfold executed. simpl. by rewrite He.
Qed.

Section WithDB.
Context {RT : Runtime} {S : Type} {DBI : DB S}.

Implicit Types w : world S.

Lemma insert_spec dbType entry w r w' :
  insert dbType entry w = (r, w') ->
  exists e, w_trace w' = w_trace w ++ [e] /\ w_clock w' = w_clock w
            /\ ev_site e = AtInsert /\ ev_args e = entry_args_insert entry
            /\ r = match ev_err e with None => Ok tt | Some msg => Err (ErrDriver msg) end.
Proof.
  unfold insert, wrap.
  match goal with |- context [call_Exec ?a ?q ?args w] =>
    destruct (call_Exec_spec a q args w) as (db & x & _ & ->) end.
  destruct x; intros [= <- <-]; eexists; split_and!; reflexivity.
Qed.

Lemma update_spec dbType entry w r w' :
  update dbType entry w = (r, w') ->
  exists e, w_trace w' = w_trace w ++ [e] /\ w_clock w' = w_clock w
            /\ ev_site e = AtUpdate /\ ev_args e = entry_args_update entry
            /\ r = match ev_err e with None => Ok tt | Some msg => Err (ErrDriver msg) end.
Proof.
  unfold update, wrap.
  match goal with |- context [call_Exec ?a ?q ?args w] =>
    destruct (call_Exec_spec a q args w) as (db & x & _ & ->) end.
  destruct x; intros [= <- <-]; eexists; split_and!; reflexivity.
Qed.

(** [execute] runs the statements in order and stops at the first error. *)
Lemma execute_stmts_spec stmts w r w' :
  execute_stmts stmts w = (r, w') ->
  exists evs,
    w_trace w' = w_trace w ++ evs /\ w_clock w' = w_clock w
    /\ Forall (fun e => ev_site e = AtExecute /\ ev_args e = []) evs
    /\ match r with
       | Ok _ => map ev_query evs = stmts /\ Forall (fun e => ev_err e = None) evs
       | Err err =>
           exists evs0 rest,
             evs = evs0 ++ [Event AtExecute (failed_stmt err) [] (Some (failed_cause err))]
             /\ Forall (fun e => ev_err e = None) evs0
             /\ stmts = map ev_query evs0 ++ failed_stmt err :: rest
       end.
Proof.
  revert w. induction stmts as [|stmt stmts IH]; intros w; simpl.
  - unfold ret. intros [= <- <-]. exists []. rewrite app_nil_r. by split_and!.
  - unfold bind, wrap.
    destruct (call_Exec_spec AtExecute stmt [] w) as (db & x & _ & ->).
    destruct x as [msg|].
    + intros [= <- <-]. eexists [_]. split_and!; [done|done|by repeat constructor|].
      exists [], stmts. by split_and!.
    + intros H. apply IH in H as (evs & Ht & Hc & Hs & Hr). simpl in Ht, Hc.
      exists (Event AtExecute stmt [] None :: evs).
      split_and!; [by rewrite Ht, <- app_assoc|done|by constructor|].
      destruct r as [err|[]].
      * destruct Hr as (evs0 & rest & -> & H0 & ->).
        exists (Event AtExecute stmt [] None :: evs0), rest.
        split_and!; [done|by constructor|done].
      * destruct Hr as [<- H0]. split; [done|by constructor].
Qed.





End WithDB.

End TraceFacts.

Module PlanFacts.

Import GoString Spec Sqlm ApplyFacts OrderFacts TraceFacts.

Lemma candidates_of_group entries migrations g :
  Forall (fun m => Migration.Group m = g) (candidates_of entries migrations g).
Proof.
  unfold candidates_of. apply Forall_forall. intros m Hm.
  by apply list_elem_of_filter in Hm as [Hm _].
Qed.

(** After the uniqueness check every group holds its pending candidates,
    sorted by version. *)
Lemma checked_groups entries migrations groups0 seed1 groups g :
  group_pending entries migrations ∅ = Ok groups0 ->
  uniqueness_check (range_keys seed1 groups0) groups0 = Ok groups ->
  default [] (groups !! g) = sort_Slice by_version (candidates_of entries migrations g).
Proof.
  intros Hgp Huc.
  rewrite (uniqueness_check_Ok _ _ _ (range_keys_NoDup seed1 groups0) Huc g).
  pose proof (group_pending_spec entries migrations ∅ groups0 g Hgp) as Hg.
  rewrite lookup_empty in Hg. simpl in Hg.
  case_decide as Hin; simpl; [by rewrite Hg|].
  rewrite elem_of_range_keys in Hin.
  destruct (groups0 !! g) as [l|] eqn:E; [by destruct Hin|].
  simpl in *. by rewrite <- Hg.
Qed.

Lemma plan_filter keys groups g :
  NoDup keys ->
  (forall k, Forall (fun m => Migration.Group m = k) (default [] (groups !! k))) ->
  (g ∉ keys -> default [] (groups !! g) = []) ->
  filter (fun m => Migration.Group m = g) (plan keys groups) = default [] (groups !! g).
Proof.
  intros Hnd Hgroup. unfold plan.
  induction Hnd as [|k keys Hk Hnd IH]; intros Hg; simpl.
  - symmetry. apply Hg, not_elem_of_nil.
  - rewrite filter_app. destruct (decide (k = g)) as [->|Hne].
    + assert (Hrest : forall l, Forall (fun m => Migration.Group m ∈ keys) l ->
                filter (fun m : Migration => Migration.Group m = g) l = []).
      { induction 1 as [|x l Hx _ IHl]; [done|].
        rewrite filter_cons, decide_False; [done|]. intros Heq. by rewrite Heq in Hx. }
      rewrite (Hrest (mjoin (map (fun k => default [] (groups !! k)) keys))).
      2:{ apply Forall_forall. intros m Hm.
          apply list_elem_of_join in Hm as (l & Hm & Hl).
          apply list_elem_of_fmap in Hl as (k' & -> & Hk').
          pose proof (Hgroup k') as Hf. rewrite Forall_forall in Hf.
          by rewrite (Hf m Hm). }
      rewrite app_nil_r.
      pose proof (Hgroup g) as Hf. revert Hf. generalize (default [] (groups !! g)).
      induction 1 as [|x l Hx _ IHl]; [done|].
      by rewrite filter_cons, decide_True, IHl.
    + rewrite IH.
      2:{ intros Hnin. apply Hg. intros [?|?]%elem_of_cons; done. }
      pose proof (Hgroup k) as Hf. revert Hf. generalize (default [] (groups !! k)).
      induction 1 as [|x l Hx _ IHl]; [done|].
      rewrite filter_cons, decide_False by congruence. done.
Qed.

(** The part of the plan in a group is the group's candidates, sorted. *)
Lemma plan_groups entries migrations groups0 seed1 seed2 groups g :
  group_pending entries migrations ∅ = Ok groups0 ->
  uniqueness_check (range_keys seed1 groups0) groups0 = Ok groups ->
  filter (fun m => Migration.Group m = g) (plan (range_keys seed2 groups) groups)
  = sort_Slice by_version (candidates_of entries migrations g).
Proof.
  intros Egp Euc.
  pose proof (fun g => checked_groups entries migrations groups0 seed1 groups g Egp Euc)
    as Hgroups.
  rewrite <- Hgroups. apply plan_filter.
  - apply range_keys_NoDup.
  - intros k. rewrite Hgroups, sort_Slice_perm. apply candidates_of_group.
  - rewrite elem_of_range_keys. intros Hnone.
    destruct (groups !! g); [|done]. by destruct Hnone.
Qed.

Lemma elem_of_plan entries migrations groups0 seed1 seed2 groups m :
  group_pending entries migrations ∅ = Ok groups0 ->
  uniqueness_check (range_keys seed1 groups0) groups0 = Ok groups ->
  m ∈ plan (range_keys seed2 groups) groups <->
  m ∈ migrations /\ is_pending entries m = true.
Proof.
  intros Egp Euc.
  pose proof (plan_groups entries migrations groups0 seed1 seed2 groups
                (Migration.Group m) Egp Euc) as Hp.
  assert (Hin : m ∈ plan (range_keys seed2 groups) groups <->
                m ∈ filter (fun m0 => Migration.Group m0 = Migration.Group m)
                      (plan (range_keys seed2 groups) groups)).
  { rewrite list_elem_of_filter. tauto. }
  rewrite Hin, Hp, sort_Slice_perm. unfold candidates_of.
  rewrite !list_elem_of_filter.
  destruct (is_pending entries m); simpl; intuition congruence.
Qed.




End PlanFacts.


(** ** A failing statement, on any database *)

Module FailureFacts.

Import GoString Spec Sqlm ApplyFacts TraceFacts.

Section WithDB.
Context {RT : Runtime} {S : Type} {DBI : DB S}.

Implicit Types w : world S.






(** The loop over the groups is the loop over their candidates in a row. *)
Lemma apply_candidates_app dbType l1 l2 w :
  apply_candidates dbType (l1 ++ l2) w =
    match apply_candidates dbType l1 w with
    | (Ok _, w1) => apply_candidates dbType l2 w1
    | (Err e, w1) => (Err e, w1)
    end.
Proof.
  revert w. induction l1 as [|m l1 IH]; intros w; simpl; [done|].
  unfold bind. destruct (apply_migration dbType m w) as [[e|[]] w1]; [done|].
  apply IH.
Qed.

Lemma apply_groups_plan dbType keys groups w :
  apply_groups dbType keys groups w = apply_candidates dbType (plan keys groups) w.
Proof.
  unfold plan. revert w. induction keys as [|k keys IH]; intros w; simpl; [done|].
  rewrite apply_candidates_app. unfold bind.
  destruct (apply_candidates dbType (default [] (groups !! k)) w) as [[e|[]] w1]; [done|].
  apply IH.
Qed.

End WithDB.

End FailureFacts.

(** ** [Apply] on the database for the history table *)

Module RefFacts.

Import GoString Spec Sqlm RefDB ApplyFacts OrderFacts TraceFacts FailureFacts.

Lemma history_not_version : String.eqb historyQuery versionQuery = false.
Proof. by vm_compute. Qed.

Lemma insert_not_create pg : String.eqb (insert_stmt pg) createMigrationTable = false.
Proof. destruct pg; by vm_compute. Qed.

Lemma update_not_create pg : String.eqb (update_stmt pg) createMigrationTable = false.
Proof. destruct pg; by vm_compute. Qed.

Lemma update_not_insert pg : String.eqb (update_stmt pg) (insert_stmt pg) = false.
Proof. destruct pg; by vm_compute. Qed.

Lemma insert_stmt_dialect (pg : bool) :
  (if String.eqb (if pg then PostgreSQL else MySQL) MySQL then insertMySQL
   else if String.eqb (if pg then PostgreSQL else MySQL) PostgreSQL then insertPostgreSQL
   else EmptyString) = insert_stmt pg.
Proof. by destruct pg. Qed.

Lemma update_stmt_dialect (pg : bool) :
  (if String.eqb (if pg then PostgreSQL else MySQL) MySQL then updateMySQL
   else if String.eqb (if pg then PostgreSQL else MySQL) PostgreSQL then updatePostgreSQL
   else EmptyString) = update_stmt pg.
Proof. by destruct pg. Qed.

Lemma entry_of_insert_args entry : entry_of_insert (entry_args_insert entry) = Some entry.
Proof. by destruct entry. Qed.

Lemma entry_of_update_args entry : entry_of_update (entry_args_update entry) = Some entry.
Proof. by destruct entry. Qed.

Section WithUser.
Context {RT : Runtime} {U : Type} {USQL : UserSQL U}.

Implicit Types (w : world (RefDB.t U)) (db : RefDB.t U).
Implicit Types T : gmap (string * Z) columns.

Lemma version_of_banner pg :
  version_of (banner pg) = Ok (if pg then PostgreSQL else MySQL).
Proof. destruct pg; by vm_compute. Qed.

Lemma scan_entry_row k c : scan_entry (row_of k c) = Ok (entry_of k c).
Proof.
  unfold scan_entry, row_of.
  by rewrite !scan_string_same, !scan_int64_same, scan_time_same.
Qed.

Lemma History_scan_rows (l : list (string * Z * columns)) acc :
  History_scan (map (fun kc => row_of kc.1 kc.2) l) acc
  = Ok (acc ++ map (fun kc => entry_of kc.1 kc.2) l).
Proof.
  revert acc. induction l as [|kc l IH]; intros acc; cbn [map History_scan].
  - by rewrite app_nil_r.
  - rewrite scan_entry_row, IH, <- app_assoc. done.
Qed.

Lemma query_version db :
  query db versionQuery [] = (db, Ok (mkRows [[VString (banner (postgres db))]] None)).
Proof. unfold query. by rewrite String.eqb_refl. Qed.

Lemma query_history db T :
  table db = Some T ->
  query db historyQuery []
  = (db, Ok (mkRows (map (fun kc => row_of kc.1 kc.2) (map_to_list T)) None)).
Proof. intros HT. unfold query. by rewrite history_not_version, String.eqb_refl, HT. Qed.

Lemma exec_create db args :
  exec db createMigrationTable args
  = (RefDB.mk (postgres db) (Some (default ∅ (table db))) (user db), None).
Proof. unfold exec. by rewrite String.eqb_refl. Qed.

Lemma version_ref w :
  version w =
    (Ok (dialect (w_db w)),
     World (w_db w) (w_clock w) (w_trace w ++ [Event AtVersion versionQuery [] None])).
Proof.
  unfold version, bind, wrap, lift, call_Query. cbn [Query handle].
  rewrite query_version. cbn [rows_cells version_scan].
  by rewrite scan_string_same, version_of_banner.
Qed.

Lemma CreateTable_ref w :
  CreateTable w =
    (Ok tt,
     World (RefDB.mk (postgres (w_db w)) (Some (default ∅ (table (w_db w))))
                     (user (w_db w)))
       (w_clock w) (w_trace w ++ [Event AtCreateTable createMigrationTable [] None])).
Proof.
  unfold CreateTable, wrap, call_Exec. cbn [Exec handle]. by rewrite exec_create.
Qed.

Lemma History_ref w T :
  table (w_db w) = Some T ->
  History w =
    (Ok (history (w_db w)),
     World (w_db w) (w_clock w) (w_trace w ++ [Event AtHistory historyQuery [] None])).
Proof.
  intros HT. unfold History, bind, wrap, lift, ret, call_Query. cbn [Query handle].
  rewrite (query_history _ T HT). cbn [rows_cells rows_Err].
  rewrite History_scan_rows. unfold history. by rewrite HT.
Qed.

(** The first three steps succeed: they create the table when it is
    missing and read the rows. *)
Lemma load_history_ref w :
  load_history w =
    (Ok (dialect (w_db w),
         history (RefDB.mk (postgres (w_db w)) (Some (default ∅ (table (w_db w))))
                           (user (w_db w)))),
     World (RefDB.mk (postgres (w_db w)) (Some (default ∅ (table (w_db w))))
                     (user (w_db w)))
       (w_clock w)
       (w_trace w ++ [Event AtVersion versionQuery [] None;
                      Event AtCreateTable createMigrationTable [] None;
                      Event AtHistory historyQuery [] None])).
Proof.
  unfold load_history, bind, wrap, ret.
  rewrite version_ref, CreateTable_ref.
  erewrite History_ref by reflexivity.
  cbn [w_db w_clock w_trace]. by rewrite <- !app_assoc.
Qed.

Lemma insert_ref dbType entry w T :
  table (w_db w) = Some T -> dbType = dialect (w_db w) ->
  insert dbType entry w =
    match T !! key entry with
    | Some _ =>
        (Err (ErrDriver "duplicate key"),
         World (w_db w) (w_clock w)
           (w_trace w ++ [Event AtInsert (insert_stmt (postgres (w_db w)))
                            (entry_args_insert entry) (Some "duplicate key")]))
    | None =>
        (Ok tt,
         World (RefDB.mk (postgres (w_db w)) (Some (<[key entry := columns_of entry]> T))
                         (user (w_db w)))
           (w_clock w)
           (w_trace w ++ [Event AtInsert (insert_stmt (postgres (w_db w)))
                            (entry_args_insert entry) None]))
    end.
Proof.
  intros HT ->. unfold insert, dialect. rewrite insert_stmt_dialect.
  unfold wrap, call_Exec. cbn [Exec handle]. unfold exec.
  rewrite insert_not_create, String.eqb_refl, HT, entry_of_insert_args.
  by destruct (T !! key entry).
Qed.

Lemma update_ref dbType entry w T :
  table (w_db w) = Some T -> dbType = dialect (w_db w) ->
  update dbType entry w =
    (Ok tt,
     World (RefDB.mk (postgres (w_db w))
              (Some (alter (fun _ => columns_of entry) (key entry) T)) (user (w_db w)))
       (w_clock w)
       (w_trace w ++ [Event AtUpdate (update_stmt (postgres (w_db w)))
                        (entry_args_update entry) None])).
Proof.
  intros HT ->. unfold update, dialect. rewrite update_stmt_dialect.
  unfold wrap, call_Exec. cbn [Exec handle]. unfold exec.
  by rewrite update_not_create, update_not_insert, String.eqb_refl, HT,
    entry_of_update_args.
Qed.

(** A statement of the caller leaves the history table as it is. *)
Lemma exec_statement db q T :
  table db = Some T ->
  table (exec db q []).1 = Some T /\ postgres (exec db q []).1 = postgres db.
Proof.
  intros HT. unfold exec.
  destruct (String.eqb q createMigrationTable); [by rewrite HT|].
  destruct (String.eqb q (insert_stmt (postgres db))); [by rewrite HT|].
  destruct (String.eqb q (update_stmt (postgres db))); [by rewrite HT|].
  by destruct (run_statement (user db) q).
Qed.

Lemma execute_stmts_ref stmts w r w' T :
  table (w_db w) = Some T ->
  execute_stmts stmts w = (r, w') ->
  table (w_db w') = Some T /\ postgres (w_db w') = postgres (w_db w).
Proof.
  revert w. induction stmts as [|stmt stmts IH]; intros w HT; simpl.
  - unfold ret. by intros [= <- <-].
  - unfold bind, wrap, call_Exec. cbn [Exec handle].
    destruct (exec_statement (w_db w) stmt T HT) as [HT1 Hpg1].
    destruct (exec (w_db w) stmt []) as [db1 [msg|]]; simpl in *.
    + by intros [= <- <-].
    + intros H. apply IH in H as [? ?]; [|done]. simpl in *. split; congruence.
Qed.

(** One migration on the table [T]. *)
Lemma apply_migration_ref dbType m w r w' T :
  table (w_db w) = Some T -> dbType = dialect (w_db w) ->
  apply_migration dbType m w = (r, w') ->
  postgres (w_db w') = postgres (w_db w)
  /\ match r with
     | Ok _ =>
         T !! migration_key m = None
         /\ exists c, table (w_db w') = Some (<[migration_key m := c]> T)
                      /\ c_status c = Success /\ c_checksum c = hash m
     | Err (ErrInsertHistory _) => table (w_db w') = Some T
     | Err (ErrExecuteMigration g v err) =>
         (g, v) = migration_key m /\ T !! migration_key m = None
         /\ exists c, table (w_db w') = Some (<[migration_key m := c]> T)
                      /\ c_status c = Failed /\ c_log c = stmt_error_Error err
     | Err _ => False
     end.
Proof.
  intros HT Hd. unfold apply_migration, bind, time_now. simpl.
  unfold wrap at 1.
  erewrite insert_ref; [|exact HT|exact Hd]. simpl.
  change (key _) with (migration_key m).
  destruct (T !! migration_key m) as [c0|] eqn:Ek.
  { by intros [= <- <-]. }
  unfold execute.
  match goal with |- context [execute_stmts _ ?w0] =>
    destruct (execute_stmts (Migration.Statements m) w0) as [re w2] eqn:Ee end.
  eapply execute_stmts_ref in Ee as [HT2 Hpg2]; [|reflexivity]. simpl in Hpg2.
  assert (Hd2 : dbType = dialect (w_db w2)) by (by rewrite Hd; unfold dialect; rewrite Hpg2).
  destruct re as [err|[]].
  - erewrite update_ref; [|exact HT2|exact Hd2].
    intros [= <- <-]. simpl. split; [done|]. split_and!; [done..|].
    eexists. split; [by rewrite alter_insert_eq|]. done.
  - unfold wrap. erewrite update_ref; [|exact HT2|exact Hd2].
    intros [= <- <-]. simpl. split; [done|]. split; [done|].
    eexists. split; [by rewrite alter_insert_eq|]. done.
Qed.

(** The loop on the table [T]: the rows there stay, every row it adds is
    the success row of a candidate, but for the row of the migration whose
    statement failed. *)
Lemma apply_candidates_ref dbType candidates w r w' T :
  table (w_db w) = Some T -> dbType = dialect (w_db w) ->
  apply_candidates dbType candidates w = (r, w') ->
  exists T',
    table (w_db w') = Some T' /\ postgres (w_db w') = postgres (w_db w)
    /\ (forall k c, T !! k = Some c -> T' !! k = Some c)
    /\ (forall k c, T' !! k = Some c -> T !! k = None ->
          (c_status c = Success
           /\ exists m, m ∈ candidates /\ migration_key m = k /\ c_checksum c = hash m)
          \/ (exists err, r = Err (ErrExecuteMigration k.1 k.2 err)
                          /\ c_status c = Failed /\ c_log c = stmt_error_Error err))
    /\ (r = Ok tt -> forall m, m ∈ candidates ->
          exists c, T' !! migration_key m = Some c
                    /\ c_status c = Success /\ c_checksum c = hash m)
    /\ (forall g v err, r = Err (ErrExecuteMigration g v err) ->
          exists c, T' !! (g, v) = Some c /\ T !! (g, v) = None
                    /\ c_status c = Failed /\ c_log c = stmt_error_Error err).
Proof.
  revert w T. induction candidates as [|m candidates IH]; intros w T HT Hd; simpl.
  - unfold ret. intros [= <- <-]. exists T.
    split; [done|]. split; [done|]. split; [done|].
    split; [intros k c H1 H2; congruence|].
    split; [|done]. intros _ m Hm. by apply elem_of_nil in Hm.
  - unfold bind. destruct (apply_migration dbType m w) as [rm w1] eqn:Em.
    eapply apply_migration_ref in Em as [Hpg1 Hcase]; [|exact HT|exact Hd].
    destruct rm as [e|[]].
    + intros [= <- <-]. destruct e; try done.
      * exists T.
        split; [done|]. split; [done|]. split; [done|].
        split; [intros k c H1 H2; congruence|]. done.
      * destruct Hcase as (Hkey & Hnone & c & HT1 & Hst & Hlog).
        exists (<[migration_key m := c]> T).
        split; [done|]. split; [done|].
        split; [|split; [|split; [done|]]].
        -- intros k c' Hk. rewrite lookup_insert_ne; [done|]. congruence.
        -- intros k c' Hk Hk0.
           destruct (decide (migration_key m = k)) as [<-|Hne].
           ++ rewrite lookup_insert_eq in Hk. injection Hk as <-.
              right. exists cause. rewrite <- Hkey. done.
           ++ rewrite lookup_insert_ne in Hk by done. congruence.
        -- intros g v err [= -> -> ->]. exists c. rewrite Hkey.
           by rewrite lookup_insert_eq.
    + destruct Hcase as (Hnone & c & HT1 & Hst & Hsum).
      intros H.
      assert (Hd1 : dbType = dialect (w_db w1))
        by (by rewrite Hd; unfold dialect; rewrite Hpg1).
      destruct (IH w1 _ HT1 Hd1 H) as (T' & HT' & Hpg' & Hold & Hnew & Hok & Hfail).
      assert (Hm : T' !! migration_key m = Some c)
        by (apply Hold; by rewrite lookup_insert_eq).
      exists T'.
      split; [done|]. split; [congruence|].
      split; [|split; [|split]].
      * intros k c' Hk. apply Hold. rewrite lookup_insert_ne; [done|]. congruence.
      * intros k c' Hk Hk0.
        destruct (decide (migration_key m = k)) as [<-|Hne].
        -- left. rewrite Hm in Hk. injection Hk as <-.
           split; [done|]. exists m. split; [by left|done].
        -- destruct (Hnew k c' Hk) as [[? (m' & ? & ? & ?)]|?];
             [by rewrite lookup_insert_ne| |by right].
           left. split; [done|]. exists m'. split; [by right|done].
      * intros Hr m' [->|Hm']%elem_of_cons; [by exists c|by apply Hok].
      * intros g v err Hr. destruct (Hfail g v err Hr) as (c' & ? & Hn & ? & ?).
        exists c'. split; [done|]. split; [|done].
        destruct (decide (migration_key m = (g, v))) as [Heq|Hne].
        -- by rewrite Heq, lookup_insert_eq in Hn.
        -- by rewrite lookup_insert_ne in Hn.
Qed.

End WithUser.

End RefFacts.

Module IdempotenceFacts.

Import GoString Spec Sqlm RefDB ApplyFacts OrderFacts TraceFacts FailureFacts PlanFacts
       RefFacts.

Lemma already_applied_true m entries :
  already_applied m entries = Ok true ->
  exists entry, entry ∈ entries /\ entry_key entry = migration_key m
                /\ HistoryEntry.Checksum entry = hash m.
Proof.
  induction entries as [|x entries IH]; simpl; [done|].
  destruct (String.eqb_spec (Migration.Group m) (HistoryEntry.Group x)) as [Hg|Hg]; simpl.
  2:{ intros H. destruct (IH H) as (entry & ? & ?). exists entry. split; [by right|done]. }
  destruct (Z.eqb_spec (Migration.Version m) (HistoryEntry.Version x)) as [Hv|Hv].
  2:{ intros H. destruct (IH H) as (entry & ? & ?). exists entry. split; [by right|done]. }
  destruct (String.eqb_spec (hash m) (HistoryEntry.Checksum x)) as [Hc|Hc]; simpl; [|done].
  intros _. exists x. split; [by left|]. split; [|done].
  unfold entry_key, migration_key. by rewrite Hg, Hv.
Qed.


Lemma group_pending_no_drift entries migrations acc groups m :
  group_pending entries migrations acc = Ok groups ->
  m ∈ migrations ->
  already_applied m entries = Ok (negb (is_pending entries m)).
Proof.
  revert acc. induction migrations as [|x migrations IH]; intros acc H Hm;
    [by apply elem_of_nil in Hm|].
  simpl in H. destruct (already_applied x entries) as [e|b] eqn:E; [done|].
  apply elem_of_cons in Hm as [->|Hm].
  - by rewrite (already_applied_Ok _ _ _ E) in E.
  - destruct b; by eapply IH.
Qed.

Lemma group_pending_all_applied entries migrations acc :
  (forall m, m ∈ migrations -> already_applied m entries = Ok true) ->
  group_pending entries migrations acc = Ok acc.
Proof.
  induction migrations as [|x migrations IH]; intros H; simpl; [done|].
  rewrite H by (by left). apply IH. intros m Hm. apply H. by right.
Qed.

Lemma pick_order_nil {A} seed : pick_order seed (@nil A) = [].
Proof. by destruct seed. Qed.

Lemma range_keys_empty {V} seed : range_keys seed (∅ : gmap string V) = [].
Proof. unfold range_keys. rewrite map_to_list_empty. apply pick_order_nil. Qed.

Section WithUser.
Context {U : Type}.

Implicit Types db : RefDB.t U.

Lemma elem_of_history db e :
  e ∈ history db <->
  exists k c, default ∅ (table db) !! k = Some c /\ e = entry_of k c.
Proof.
  unfold history. rewrite list_elem_of_fmap. split.
  - intros ([k c] & -> & Hin). apply elem_of_map_to_list in Hin. by exists k, c.
  - intros (k & c & Hk & ->). exists (k, c). split; [done|].
    by apply elem_of_map_to_list.
Qed.


Lemma lookup_row_Some db k row :
  lookup_row db k = Some row <->
  exists c, default ∅ (table db) !! k = Some c /\ row = entry_of k c.
Proof.
  unfold lookup_row. destruct (default ∅ (table db) !! k) as [c|]; simpl.
  - split; [intros [= <-]; by exists c|]. by intros (c' & [= <-] & ->).
  - split; [done|]. by intros (c' & ? & _).
Qed.

End WithUser.

End IdempotenceFacts.


(** ** A failing statement, on a database that keeps the history table *)

Module StoreFacts.

Import GoString Spec Sqlm RefDB Store ApplyFacts TraceFacts FailureFacts RefFacts.





Section WithStore.
Context {RT : Runtime} {S : Type} {DBI : DB S} {HV : HistoryView S} {HS : HistoryStore S}.

Implicit Types w : world S.











End WithStore.

(** The database of the history table keeps the history table, and so
    does the transaction a failed statement aborts. *)
Section WithUser.
Context {RT : Runtime} {U : Type} {USQL : UserSQL U}.

Lemma refdb_store : HistoryStore (RefDB.t U).
Proof.
  split; cbn [Exec Query handle history_rows speaks_postgres RefDB_view].
  - intros s s' rows str dbType HQ. rewrite query_version in HQ.
    injection HQ as _ <-. cbn [rows_cells version_scan].
    rewrite scan_string_same. intros [= <-]. rewrite version_of_banner.
    by intros [= <-].
  - intros s s' q args r H. assert (s' = s) as ->; [|done]. revert H. unfold query.
    destruct (String.eqb q versionQuery); [by intros [= <- _]|].
    destruct (String.eqb q historyQuery); [|by intros [= <- _]].
    destruct (table s); by intros [= <- _].
  - intros s s' q args r. unfold exec.
    destruct (String.eqb q createMigrationTable); [by intros [= <- _]|].
    destruct (String.eqb q (insert_stmt (postgres s))).
    { destruct (table s) as [T|]; [|by intros [= <- _]].
      destruct (entry_of_insert args) as [entry|]; [|by intros [= <- _]].
      destruct (T !! key entry); by intros [= <- _]. }
    destruct (String.eqb q (update_stmt (postgres s))).
    { destruct (table s) as [T|]; [|by intros [= <- _]].
      destruct (entry_of_update args) as [entry|]; by intros [= <- _]. }
    destruct (run_statement (user s) q). by intros [= <- _].
  - intros s s' q args msg H. assert (table s' = table s) as ->; [|done].
    revert H. unfold exec.
    destruct (String.eqb q createMigrationTable); [done|].
    destruct (String.eqb q (insert_stmt (postgres s))).
    { destruct (table s) as [T|] eqn:ET; [|by intros [= <- _]].
      destruct (entry_of_insert args) as [entry|]; [|by intros [= <- _]].
      destruct (T !! key entry); [by intros [= <- _]|done]. }
    destruct (String.eqb q (update_stmt (postgres s))).
    { destruct (table s) as [T|] eqn:ET; [|by intros [= <- _]].
      destruct (entry_of_update args) as [entry|]; [done|by intros [= <- _]]. }
    destruct (run_statement (user s) q). by intros [= <- _].
  - intros s s' args. unfold exec.
    rewrite insert_not_create, String.eqb_refl.
    destruct (table s) as [T|]; [|done].
    destruct (entry_of_insert args) as [entry|]; [|done].
    destruct (T !! key entry); [done|]. intros [= <-]. by exists entry.
  - intros s s' args. unfold exec.
    rewrite update_not_create, update_not_insert, String.eqb_refl.
    destruct (table s) as [T|]; [|done].
    destruct (entry_of_update args) as [entry|]; [|done].
    intros [= <-]. by exists entry.
  - intros s s' q args Hi Hu. unfold exec.
    destruct (String.eqb q createMigrationTable); [by intros [= <-]|].
    destruct (String.eqb_spec q (insert_stmt (postgres s))); [done|].
    destruct (String.eqb_spec q (update_stmt (postgres s))); [done|].
    destruct (run_statement (user s) q). by intros [= <- _].
Qed.

Lemma aborting_store :
  HistoryStore (Aborting.t U) (DBI := Aborting.handle) (HV := Aborting_view).
Proof.
  split; cbn [Exec Query Aborting.handle history_rows speaks_postgres Aborting_view].
  - intros s s' rows str dbType. unfold Aborting.query.
    destruct (Aborting.aborted s); [done|].
    destruct (RefDB.query (Aborting.db s) versionQuery []) as [db' r] eqn:HQ.
    intros [= _ ->] Hs Hv.
    exact (store_banner (HistoryStore := refdb_store) _ _ _ _ _ HQ Hs Hv).
  - intros s s' q args r. unfold Aborting.query.
    destruct (Aborting.aborted s); [by intros [= <- _]|].
    destruct (RefDB.query (Aborting.db s) q args) as [db' r'] eqn:HQ.
    intros [= <- _]. exact (store_query (HistoryStore := refdb_store) _ _ _ _ _ HQ).
  - intros s s' q args r. unfold Aborting.exec.
    destruct (Aborting.aborted s); [by intros [= <- _]|].
    destruct (RefDB.exec (Aborting.db s) q args) as [db' r'] eqn:HE.
    intros [= <- _]. exact (store_dialect (HistoryStore := refdb_store) _ _ _ _ _ HE).
  - intros s s' q args msg. unfold Aborting.exec.
    destruct (Aborting.aborted s); [by intros [= <- _]|].
    destruct (RefDB.exec (Aborting.db s) q args) as [db' r'] eqn:HE.
    intros [= <- ->]. exact (store_refused (HistoryStore := refdb_store) _ _ _ _ _ HE).
  - intros s s' args. unfold Aborting.exec.
    destruct (Aborting.aborted s); [done|].
    destruct (RefDB.exec (Aborting.db s) _ args) as [db' r'] eqn:HE.
    intros [= <- ->]. exact (store_insert (HistoryStore := refdb_store) _ _ _ HE).
  - intros s s' args. unfold Aborting.exec.
    destruct (Aborting.aborted s); [done|].
    destruct (RefDB.exec (Aborting.db s) _ args) as [db' r'] eqn:HE.
    intros [= <- ->]. exact (store_update (HistoryStore := refdb_store) _ _ _ HE).
  - intros s s' q args Hi Hu. unfold Aborting.exec.
    destruct (Aborting.aborted s); [done|].
    destruct (RefDB.exec (Aborting.db s) q args) as [db' r'] eqn:HE.
    intros [= <- ->]. exact (store_other (HistoryStore := refdb_store) _ _ _ _ Hi Hu HE).
Qed.

End WithUser.

End StoreFacts.


(** ** The dialect *)

(** C9, as the code has it: [version] lowers the banner the database
    answers with and returns PostgreSQL when the lowered banner contains
    [postgresql]; MySQL when it does not and contains [mariadb] or
    [mysql]; the error for an unknown database type when it contains none
    of the three. *)
Theorem version_first_match {RT : Runtime} {S : Type} {DBI : DB S}
    (w : world S) (db : S) (rows : Rows) (banner : string) :
  Query (w_db w) Sqlm.versionQuery [] = (db, Ok rows) ->
  rows_cells rows = [[VString banner]] ->
  (GoString.Contains (Strings.ToLower banner) "postgresql" = true ->
   (Sqlm.version w).1 = Ok Sqlm.PostgreSQL)
  /\ (GoString.Contains (Strings.ToLower banner) "postgresql" = false ->
      GoString.Contains (Strings.ToLower banner) "mariadb" = true
      \/ GoString.Contains (Strings.ToLower banner) "mysql" = true ->
      (Sqlm.version w).1 = Ok Sqlm.MySQL)
  /\ (GoString.Contains (Strings.ToLower banner) "postgresql" = false ->
      GoString.Contains (Strings.ToLower banner) "mariadb" = false ->
      GoString.Contains (Strings.ToLower banner) "mysql" = false ->
      (Sqlm.version w).1 = Err (ErrUnknownBanner (Strings.ToLower banner))).
Proof.
  intros Hq Hrows.
  assert (Hv : (Sqlm.version w).1 = Sqlm.version_of banner).
  { unfold Sqlm.version, bind, wrap, lift, Sqlm.call_Query. rewrite Hq, Hrows.
    cbn [Sqlm.version_scan]. by rewrite scan_string_same. }
  rewrite Hv. unfold Sqlm.version_of.
  split_and!.
  - by intros ->.
  - intros -> [-> | Hm]; [done|]. rewrite Hm. by destruct (GoString.Contains _ "mariadb").
  - by intros -> -> ->.
Qed.

Lemma version_first_match_witness :
  (GoString.Contains (Strings.ToLower (RT := Examples.runtime) "10.4.11-MariaDB")
     "postgresql" = true ->
   (Sqlm.version (RT := Examples.runtime) (DBI := Examples.banner_db)
      (World "10.4.11-MariaDB"%string 0 [])).1 = Ok Sqlm.PostgreSQL)
  /\ (GoString.Contains (Strings.ToLower (RT := Examples.runtime) "10.4.11-MariaDB")
        "postgresql" = false ->
      GoString.Contains (Strings.ToLower (RT := Examples.runtime) "10.4.11-MariaDB")
        "mariadb" = true
      \/ GoString.Contains (Strings.ToLower (RT := Examples.runtime) "10.4.11-MariaDB")
           "mysql" = true ->
      (Sqlm.version (RT := Examples.runtime) (DBI := Examples.banner_db)
         (World "10.4.11-MariaDB"%string 0 [])).1 = Ok Sqlm.MySQL)
  /\ (GoString.Contains (Strings.ToLower (RT := Examples.runtime) "10.4.11-MariaDB")
        "postgresql" = false ->
      GoString.Contains (Strings.ToLower (RT := Examples.runtime) "10.4.11-MariaDB")
        "mariadb" = false ->
      GoString.Contains (Strings.ToLower (RT := Examples.runtime) "10.4.11-MariaDB")
        "mysql" = false ->
      (Sqlm.version (RT := Examples.runtime) (DBI := Examples.banner_db)
         (World "10.4.11-MariaDB"%string 0 [])).1
      = Err (ErrUnknownBanner (Strings.ToLower (RT := Examples.runtime) "10.4.11-MariaDB"))).
Proof.
  exact (version_first_match (RT := Examples.runtime) (DBI := Examples.banner_db)
           (World "10.4.11-MariaDB"%string 0 []) "10.4.11-MariaDB"%string
           (mkRows [[VString "10.4.11-MariaDB"]] None) "10.4.11-MariaDB"%string
           eq_refl eq_refl).
Defined.

(** C9 as stated fails: a banner that contains both [postgresql] and
    [mysql] gives PostgreSQL, not MySQL. *)
Lemma version_prefers_postgresql :
  GoString.Contains
    (Strings.ToLower (RT := Examples.runtime) "PostgreSQL 12.2 with mysql_fdw") "mysql"
  = true
  /\ (Sqlm.version (RT := Examples.runtime) (DBI := Examples.banner_db)
        (World "PostgreSQL 12.2 with mysql_fdw"%string 0 [])).1 = Ok Sqlm.PostgreSQL
  /\ (Sqlm.version (RT := Examples.runtime) (DBI := Examples.banner_db)
        (World "PostgreSQL 12.2 with mysql_fdw"%string 0 [])).1 <> Ok Sqlm.MySQL.
Proof. split_and!; [by vm_compute|by vm_compute|]. vm_compute. discriminate. Qed.

Example version_examples :
  Sqlm.version_of (RT := Examples.runtime) "PostgreSQL 12.2 on x86_64-apple-darwin19.4.0"
    = Ok Sqlm.PostgreSQL
  /\ Sqlm.version_of (RT := Examples.runtime) "10.4.11-MariaDB" = Ok Sqlm.MySQL
  /\ Sqlm.version_of (RT := Examples.runtime) "8.0.19 MySQL Community Server"
     = Ok Sqlm.MySQL
  /\ Sqlm.version_of (RT := Examples.runtime) "SQLite 3.31" = Err (ErrUnknownBanner "sqlite 3.31").
Proof. by vm_compute. Qed.

(** ** Runs on the database for the history table *)

(** C1 on the code: two pending candidates of group [g] with version 3.
    The uniqueness check lets them pass; the first is executed and
    recorded, and only the insert of the second row is refused, by the
    primary key of the table. *)
Lemma duplicate_versions_run :
  Examples.summary
    (Examples.run [Examples.m "g" 3 ["CREATE TABLE a (id INT)"];
                   Examples.m "g" 3 ["CREATE TABLE b (id INT)"]] (Examples.fresh true))
  = (Err (ErrInsertHistory (ErrDriver "duplicate key")),
     ["CREATE TABLE a (id INT)"%string],
     [("g"%string, 3, "success"%string, EmptyString)],
     [AtVersion; AtCreateTable; AtHistory; AtInsert; AtExecute; AtUpdate; AtInsert]).
Proof. by vm_compute. Qed.

(** The check of the versions refuses a negative version and nothing else. *)
Lemma duplicate_versions_pass_check :
  Sqlm.check_versions (-1)
    (Sqlm.sort_Slice (fun a b => Migration.Version a <? Migration.Version b)
       [Examples.m "g" 3 ["CREATE TABLE a (id INT)"];
        Examples.m "g" 3 ["CREATE TABLE b (id INT)"]]) = Ok tt
  /\ Sqlm.check_versions (-1) [Examples.m "g" (-1) ["CREATE TABLE a (id INT)"]]
     = Err (ErrVersionNotUnique (Examples.m "g" (-1) ["CREATE TABLE a (id INT)"])).
Proof. by vm_compute. Qed.

Lemma dirty_history_blocks_witness :
  exists bad,
    bad ∈ (Examples.loaded Examples.dirty_world).1.2
    /\ HistoryEntry.Status bad <> Sqlm.Success
    /\ Examples.run [Examples.m "h" 1 ["CREATE TABLE b (id INT)"]] Examples.dirty_world
       = (Err (ErrDirty bad), (Examples.loaded Examples.dirty_world).2)
    /\ map ev_site (Spec.calls_since Examples.dirty_world
                      (Examples.loaded Examples.dirty_world).2)
       = [AtVersion; AtCreateTable; AtHistory].
Proof.
  eapply (dirty_history_blocks (RT := Examples.runtime) (DBI := RefDB.handle (USQL := Examples.statements)) [] []
            [Examples.m "h" 1 ["CREATE TABLE b (id INT)"]] Examples.dirty_world
            (Examples.loaded Examples.dirty_world).2
            (Examples.loaded Examples.dirty_world).1.1
            (Examples.loaded Examples.dirty_world).1.2
            (Spec.entry_failed (Examples.m "g" 2 ["FAIL"]) 3000
               (StmtError "FAIL" "syntax error"))).
  - by vm_compute.
  - vm_compute. right. left.
  - vm_compute. discriminate.
Defined.

Lemma drift_blocks_witness :
  exists entry' m',
    m' ∈ [Examples.m "g" 1 ["CREATE TABLE a (id BIGINT)"]]
    /\ entry' ∈ (Examples.loaded Examples.applied_world).1.2
    /\ Spec.entry_key entry' = Spec.migration_key m'
    /\ HistoryEntry.Checksum entry' <> Sqlm.hash m'
    /\ Examples.run [Examples.m "g" 1 ["CREATE TABLE a (id BIGINT)"]] Examples.applied_world
       = (Err (ErrModified entry' m'), (Examples.loaded Examples.applied_world).2)
    /\ map ev_site (Spec.calls_since Examples.applied_world
                      (Examples.loaded Examples.applied_world).2)
       = [AtVersion; AtCreateTable; AtHistory].
Proof.
  eapply (drift_blocks (RT := Examples.runtime) (DBI := RefDB.handle (USQL := Examples.statements)) [] []
            [Examples.m "g" 1 ["CREATE TABLE a (id BIGINT)"]] Examples.applied_world
            (Examples.loaded Examples.applied_world).2
            (Examples.loaded Examples.applied_world).1.1
            (Examples.loaded Examples.applied_world).1.2
            (Spec.entry_success (Examples.m "g" 1 ["CREATE TABLE a (id INT)"]) 0 1000)
            (Examples.m "g" 1 ["CREATE TABLE a (id BIGINT)"])).
  - by vm_compute.
  - vm_compute. repeat constructor.
  - vm_compute. repeat constructor; intros H;
      repeat (apply elem_of_cons in H as [H|H]; [discriminate H|]);
      by apply elem_of_nil in H.
  - left.
  - vm_compute. left.
  - reflexivity.
  - vm_compute. discriminate.
Defined.

(** C4 as stated fails: the history holds a success row of ("g", 1) whose
    checksum differs from that of the migration supplied, and a failed row;
    [Apply] returns the dirty-state error, not the drift error. *)
Lemma drift_behind_dirty_row :
  exists entry bad,
    entry ∈ (Examples.loaded Examples.dirty_world).1.2
    /\ HistoryEntry.Status entry = Sqlm.Success
    /\ Spec.entry_key entry
       = Spec.migration_key (Examples.m "g" 1 ["CREATE TABLE a (id BIGINT)"])
    /\ HistoryEntry.Checksum entry
       <> Sqlm.hash (Examples.m "g" 1 ["CREATE TABLE a (id BIGINT)"])
    /\ HistoryEntry.Status bad = Sqlm.Failed
    /\ Examples.run [Examples.m "g" 1 ["CREATE TABLE a (id BIGINT)"]] Examples.dirty_world
       = (Err (ErrDirty bad), (Examples.loaded Examples.dirty_world).2).
Proof.
  exists (Spec.entry_success (Examples.m "g" 1 ["CREATE TABLE a (id INT)"]) 0 1000),
         (Spec.entry_failed (Examples.m "g" 2 ["FAIL"]) 3000
            (StmtError "FAIL" "syntax error")).
  split_and!.
  - vm_compute. left.
  - reflexivity.
  - reflexivity.
  - vm_compute. discriminate.
  - reflexivity.
  - by vm_compute.
Qed.




(** Versions supplied as 3 and 1 run as 1 and 3, whatever the order in
    which the groups are visited. *)
Example supplied_3_1_runs_1_3 :
  Spec.started
    (Spec.calls_since (Examples.fresh true)
       (Sqlm.Apply (RT := Examples.runtime) (DBI := RefDB.handle (USQL := Examples.statements)) [1%nat] [1%nat]
          [Examples.m "g" 3 ["c"]; Examples.m "h" 2 ["x"]; Examples.m "g" 1 ["a"; "b"]]
          (Examples.fresh true)).2)
  = [("h"%string, 2); ("g"%string, 1); ("g"%string, 3)]
  /\ Spec.executed
       (Spec.calls_since (Examples.fresh true)
          (Sqlm.Apply (RT := Examples.runtime) (DBI := RefDB.handle (USQL := Examples.statements)) [1%nat] [1%nat]
             [Examples.m "g" 3 ["c"]; Examples.m "h" 2 ["x"]; Examples.m "g" 1 ["a"; "b"]]
             (Examples.fresh true)).2)
     = ["x"%string; "a"%string; "b"%string; "c"%string].
Proof. by vm_compute. Qed.

(** ** More on the statement splitter and on file names *)

Module ShapeFacts.

Import GoString GoStringFacts Utf8 Utf8Facts Parse Spec SplitFacts Shape.

Lemma first_Some s0 sz lo hi :
  first s0 = Some (sz, lo, hi) ->
  0xC2 <= s0 <= 0xF4 /\ 0x80 <= lo /\ hi <= 0xBF /\
  ((sz = 2%nat /\ s0 <= 0xDF)
   \/ (sz = 3%nat /\ 0xE0 <= s0 <= 0xEF
       /\ (s0 = 0xE0 -> 0xA0 <= lo) /\ (s0 = 0xED -> hi <= 0x9F))
   \/ (sz = 4%nat /\ 0xF0 <= s0
       /\ (s0 = 0xF0 -> 0x90 <= lo) /\ (s0 = 0xF4 -> hi <= 0x8F))).
Proof.
  unfold first.
  destruct ((0xC2 <=? s0) && (s0 <=? 0xDF)) eqn:H1; [intros [= <- <- <-]; props; lia|].
  destruct (s0 =? 0xE0) eqn:H2; [intros [= <- <- <-]; props; lia|].
  destruct (s0 =? 0xED) eqn:H3; [intros [= <- <- <-]; props; lia|].
  destruct ((0xE1 <=? s0) && (s0 <=? 0xEF)) eqn:H4; [intros [= <- <- <-]; props; lia|].
  destruct (s0 =? 0xF0) eqn:H5; [intros [= <- <- <-]; props; lia|].
  destruct ((0xF1 <=? s0) && (s0 <=? 0xF3)) eqn:H6; [intros [= <- <- <-]; props; lia|].
  destruct (s0 =? 0xF4) eqn:H7; [intros [= <- <- <-]; props; lia|].
  done.
Qed.

Lemma RuneError_valid : valid RuneError.
Proof. unfold valid, RuneError. lia. Qed.

(** What the decoder returns: an ASCII byte; the replacement rune for one
    byte; or a rune above ASCII for two to four bytes, none of them ASCII. *)
Lemma DecodeRune_cases s0 t r n :
  0 <= s0 ->
  DecodeRune (s0 :: t) = (r, n) ->
  (n = 1%nat /\ s0 < 0x80 /\ r = s0)
  \/ (n = 1%nat /\ 0x80 <= s0 /\ r = RuneError)
  \/ ((2 <= n)%nat /\ 0x80 <= s0 /\ 0x80 <= r /\ valid r
      /\ Forall (fun b => 0x80 <= b) (take (n - 1) t)).
Proof.
  intros Hs0. cbn [DecodeRune].
  destruct (s0 <? 0x80) eqn:Hlt; [intros [= <- <-]; props; left; lia|].
  props. destruct (first s0) as [[[sz lo] hi]|] eqn:Hf; [|intros [= <- <-]; right; left; lia].
  apply first_Some in Hf as (Hr0 & Hlo & Hhi & Hsz).
  destruct t as [|s1 t1]; [intros [= <- <-]; right; left; lia|].
  destruct ((s1 <? lo) || (hi <? s1)) eqn:H1; [intros [= <- <-]; right; left; lia|].
  props.
  destruct (sz <=? 2)%nat eqn:Hsz2.
  { intros [= <- <-]. right. right.
    apply Nat.leb_le in Hsz2. assert (s0 <= 0xDF) by lia.
    rewrite decode2 by lia. unfold valid. split_and!; try lia.
    cbn. repeat constructor. lia. }
  apply Nat.leb_gt in Hsz2.
  destruct t1 as [|s2 t2]; [intros [= <- <-]; right; left; lia|].
  destruct (negb (cont s2)) eqn:Hc2; [intros [= <- <-]; right; left; lia|].
  props. unfold cont in Hc2. props.
  destruct (sz <=? 3)%nat eqn:Hsz3.
  { intros [= <- <-]. right. right.
    apply Nat.leb_le in Hsz3. assert (0xE0 <= s0 <= 0xEF) by lia.
    rewrite decode3 by lia. unfold valid. split_and!; try lia.
    cbn. repeat constructor; lia. }
  apply Nat.leb_gt in Hsz3.
  destruct t2 as [|s3 t3]; [intros [= <- <-]; right; left; lia|].
  destruct (negb (cont s3)) eqn:Hc3; [intros [= <- <-]; right; left; lia|].
  props. unfold cont in Hc3. props.
  intros [= <- <-]. right. right.
  assert (0xF0 <= s0 <= 0xF4) by lia.
  rewrite decode4 by lia. unfold valid. split_and!; try lia.
  cbn. repeat constructor; lia.
Qed.

Lemma DecodeRune_valid s :
  Forall (fun b => 0 <= b < 256) s -> valid (DecodeRune s).1.
Proof.
  destruct s as [|s0 t]; [intros _; apply RuneError_valid|].
  intros Hs. apply Forall_cons in Hs as [Hs0 _].
  destruct (DecodeRune (s0 :: t)) as [r n] eqn:Hd.
  apply DecodeRune_cases in Hd; [|lia].
  destruct Hd as [(_ & ? & ->)|[(_ & _ & ->)|(_ & _ & _ & Hv & _)]];
    [unfold valid; cbn [fst]; lia|apply RuneError_valid|done].
Qed.

Lemma chunks_from_valid s : forall k,
  Forall (fun b => 0 <= b < 256) s -> Forall valid (chunks_from k s).*1.
Proof.
  induction s as [|b t IH]; intros k Hs; [constructor|].
  pose proof Hs as Hs'. apply Forall_cons in Hs' as [Hb Ht].
  cbn [chunks_from]. destruct k as [|k]; [|by apply IH].
  pose proof (DecodeRune_valid (b :: t) Hs) as Hv.
  destruct (DecodeRune (b :: t)) as [r n]. rewrite fmap_cons.
  apply Forall_cons. split; [exact Hv|by apply IH].
Qed.

(** The runes of any string have encodings of their own. *)
Lemma runes_valid s : Forall valid (runes s).
Proof. apply chunks_from_valid, bytes_range. Qed.

(** The runes of the encoding of runes. *)
Lemma runes_encode_all rs :
  Forall valid rs -> runes (of_bytes (encode_all rs)) = rs.
Proof.
  intros Hv. unfold runes, chunks.
  rewrite bytes_of_bytes by (by apply encode_all_range).
  rewrite chunks_from_encode_all by done.
  rewrite <- list_fmap_compose. induction rs as [|r rs IH]; [done|].
  apply Forall_cons in Hv as [_ Hv]. cbn. f_equal. by apply IH.
Qed.

(** *** The digits of a name are its digit bytes *)

Lemma filter_digit_high (l : list Z) :
  Forall (fun b => 0x80 <= b) l -> filter is_digit l = [].
Proof.
  induction 1 as [|b l Hb _ IH]; [done|].
  rewrite filter_cons_False by (unfold is_digit; lia). done.
Qed.

Lemma chunks_from_digits s : forall k,
  Forall (fun b => 0 <= b < 256) s ->
  Forall (fun b => 0x80 <= b) (take k s) ->
  filter is_digit (chunks_from k s).*1 = filter is_digit s.
Proof.
  induction s as [|b t IH]; intros k Hs Hk; [done|].
  apply Forall_cons in Hs as [Hb Ht].
  cbn [chunks_from]. destruct k as [|k].
  - destruct (DecodeRune (b :: t)) as [r n] eqn:Hd. rewrite fmap_cons. cbn [fst].
    apply DecodeRune_cases in Hd; [|lia].
    destruct Hd as [(-> & ? & ->)|[(-> & ? & ->)|(Hn & ? & ? & _ & Hhigh)]].
    + destruct (decide (is_digit b)).
      * rewrite !filter_cons_True by done. f_equal. apply IH; [done|constructor].
      * rewrite !filter_cons_False by done. apply IH; [done|constructor].
    + rewrite !filter_cons_False by (unfold is_digit, RuneError; lia).
      apply IH; [done|constructor].
    + rewrite !filter_cons_False by (unfold is_digit; lia). by apply IH.
  - rewrite firstn_cons in Hk. apply Forall_cons in Hk as [Hb' Hk].
    rewrite (IH k) by done.
    rewrite filter_cons_False by (unfold is_digit; lia). done.
Qed.

Lemma digit_runes_bytes name :
  digit_runes name = filter is_digit (bytes name).
Proof.
  unfold digit_runes, runes, chunks.
  apply (chunks_from_digits (bytes name) 0); [apply bytes_range|constructor].
Qed.

Lemma filter_idemp {A} (P : A -> Prop) `{!forall x, Decision (P x)} (l : list A) :
  filter P (filter P l) = filter P l.
Proof.
  induction l as [|x l IH]; [done|].
  destruct (decide (P x)).
  - rewrite !filter_cons_True by done. by f_equal.
  - by rewrite !filter_cons_False.
Qed.

(** *** [strings.TrimSpace] on encoded runes *)

Lemma rev_reverse {A} (l : list A) : rev l = reverse l.
Proof. induction l as [|x l IH]; [done|]. by rewrite reverse_cons, <- IH. Qed.

Lemma drop_space_runes_split rs :
  exists a, rs = a ++ drop_space_runes rs /\ Forall (fun r => IsSpace r = true) a.
Proof.
  induction rs as [|r rs (a & Ha & Hsp)]; [by exists []|].
  cbn [drop_space_runes]. destruct (IsSpace r) eqn:Hr.
  - exists (r :: a). split; [cbn; by f_equal|by constructor].
  - by exists [].
Qed.

Lemma drop_space_runes_head rs r :
  head (drop_space_runes rs) = Some r -> IsSpace r = false.
Proof.
  induction rs as [|x rs IH]; [done|].
  cbn [drop_space_runes]. destruct (IsSpace x) eqn:Hx; [done|].
  by intros [= <-].
Qed.

Lemma drop_space_runes_id rs :
  (forall r, head rs = Some r -> IsSpace r = false) -> drop_space_runes rs = rs.
Proof.
  destruct rs as [|r rs]; [done|]. intros H. cbn [drop_space_runes].
  by rewrite (H r eq_refl).
Qed.

Lemma drop_space_runes_spaces rs :
  Forall (fun r => IsSpace r = true) rs -> drop_space_runes rs = [].
Proof. induction 1 as [|r rs Hr _ IH]; [done|]. cbn [drop_space_runes]. by rewrite Hr. Qed.

(** The trimmed runes are a part of the runes, between white space. *)
Lemma trim_runes_split rs :
  exists a b, rs = a ++ trim_runes rs ++ b
              /\ Forall (fun r => IsSpace r = true) a
              /\ Forall (fun r => IsSpace r = true) b.
Proof.
  unfold trim_runes.
  destruct (drop_space_runes_split rs) as (a & Ha & Hsa).
  destruct (drop_space_runes_split (rev (drop_space_runes rs))) as (b & Hb & Hsb).
  exists a, (rev b). split_and!; [|done|].
  - rewrite Ha at 1. f_equal.
    rewrite <- (rev_involutive (drop_space_runes rs)) at 1.
    rewrite Hb at 1. by rewrite rev_app_distr.
  - rewrite rev_reverse. by apply Forall_reverse.
Qed.

Lemma trim_runes_last rs r : last (trim_runes rs) = Some r -> IsSpace r = false.
Proof.
  unfold trim_runes. rewrite rev_reverse, last_reverse. apply drop_space_runes_head.
Qed.

Lemma trim_runes_head rs r : head (trim_runes rs) = Some r -> IsSpace r = false.
Proof.
  intros Hh. apply (drop_space_runes_head rs).
  unfold trim_runes in Hh.
  destruct (drop_space_runes_split (rev (drop_space_runes rs))) as (b & Hb & Hsb).
  rewrite <- (rev_involutive (drop_space_runes rs)), Hb, rev_app_distr, head_app.
  by rewrite Hh.
Qed.

Lemma trim_runes_id rs :
  (forall r, head rs = Some r -> IsSpace r = false) ->
  (forall r, last rs = Some r -> IsSpace r = false) ->
  trim_runes rs = rs.
Proof.
  intros Hh Hl. unfold trim_runes. rewrite (drop_space_runes_id rs) by exact Hh.
  rewrite drop_space_runes_id; [apply rev_involutive|].
  intros r. rewrite rev_reverse, head_reverse. apply Hl.
Qed.

Lemma trim_runes_spaces rs :
  Forall (fun r => IsSpace r = true) rs -> trim_runes rs = [].
Proof. intros H. unfold trim_runes. rewrite (drop_space_runes_spaces rs) by done. reflexivity. Qed.

Lemma drop_spaces_encoded rs :
  drop_spaces (map (fun r => (r, EncodeRune r)) rs)
  = map (fun r => (r, EncodeRune r)) (drop_space_runes rs).
Proof.
  induction rs as [|r rs IH]; [done|].
  cbn [map drop_spaces drop_space_runes]. unfold space_chunk. cbn [fst].
  by destruct (IsSpace r).
Qed.

Lemma TrimSpace_encoded rs :
  Forall valid rs ->
  TrimSpace (of_bytes (encode_all rs)) = of_bytes (encode_all (trim_runes rs)).
Proof.
  intros Hv. unfold TrimSpace, chunks.
  rewrite bytes_of_bytes by (by apply encode_all_range).
  rewrite chunks_from_encode_all by done.
  rewrite drop_spaces_encoded, <- map_rev, drop_spaces_encoded, <- map_rev.
  fold (trim_runes rs). f_equal. unfold encode_all.
  generalize (trim_runes rs). intros l. f_equal.
  induction l as [|r l IH]; [done|]. cbn. by f_equal.
Qed.

Lemma Forall_valid_part (a rs b : list Z) :
  Forall valid (a ++ rs ++ b) -> Forall valid rs.
Proof. intros H. apply Forall_app in H as [_ H]. by apply Forall_app in H as [H _]. Qed.

Lemma trim_runes_valid rs : Forall valid rs -> Forall valid (trim_runes rs).
Proof.
  intros Hv. destruct (trim_runes_split rs) as (a & b & Heq & _).
  rewrite Heq in Hv. by eapply Forall_valid_part.
Qed.

(** *** ASCII bytes of an encoding are runes *)

Lemma EncodeRune_low r b :
  valid r -> b ∈ EncodeRune r -> b < 0x80 -> b = r.
Proof.
  intros Hv Hb Hlow. rewrite EncodeRune_arith in Hb by done.
  unfold valid in Hv.
  destruct (r <=? 0x7F) eqn:H1; [by apply list_elem_of_singleton in Hb|].
  exfalso. props.
  destruct (r <=? 0x7FF) eqn:H2; [|destruct (r <=? 0xFFFF) eqn:H3];
    repeat (apply elem_of_cons in Hb as [->|Hb]); try (by apply elem_of_nil in Hb);
    revert Hlow; Z.div_mod_to_equations; lia.
Qed.

Lemma encode_all_low rs b :
  Forall valid rs -> b ∈ encode_all rs -> b < 0x80 -> b ∈ rs.
Proof.
  intros Hv Hb Hlow. unfold encode_all in Hb.
  apply list_elem_of_join in Hb as (l & Hb & Hl).
  apply list_elem_of_fmap in Hl as (r & -> & Hr).
  rewrite Forall_forall in Hv.
  by rewrite (EncodeRune_low r b (Hv r Hr) Hb Hlow).
Qed.

(** *** The loop of [parseStatementsFromString] *)

Lemma norm_cases r : norm r = r \/ norm r = RuneError.
Proof. unfold norm. destruct (_ && _); [by left|by right]. Qed.

Lemma norm_kept r : kept r -> kept (norm r).
Proof.
  intros Hk. destruct (norm_cases r) as [->| ->]; [done|].
  unfold kept, RuneError. lia.
Qed.

Lemma norm_space r : norm r = 32 -> r = 32.
Proof. destruct (norm_cases r) as [->| ->]; [done|]. unfold RuneError. lia. Qed.

Lemma no_double_space_nil : no_double_space [].
Proof. intros a b H. by destruct a. Qed.

Lemma no_double_space_snoc ws r :
  no_double_space ws ->
  ~ (r = 32 /\ exists a, ws = a ++ [32]) ->
  no_double_space (ws ++ [r]).
Proof.
  intros Hws Hr a b Heq.
  destruct b as [|x b _] using rev_ind.
  - change (a ++ [32; 32]) with (a ++ [32] ++ [32]) in Heq.
    rewrite app_assoc in Heq. apply app_inj_tail in Heq as [-> ->].
    apply Hr. split; [done|by exists a].
  - change (a ++ 32 :: 32 :: b ++ [x]) with (a ++ [32; 32] ++ b ++ [x]) in Heq.
    rewrite !app_assoc in Heq. apply app_inj_tail in Heq as [Heq _].
    apply (Hws a b). rewrite Heq. by rewrite <- app_assoc.
Qed.

Lemma no_double_space_part a rs b :
  no_double_space (a ++ rs ++ b) -> no_double_space rs.
Proof.
  intros H x y Heq. apply (H (a ++ x) (y ++ b)). rewrite Heq.
  rewrite <- !app_assoc. done.
Qed.

Lemma shape_of_trim ws :
  Forall valid ws -> Forall kept ws -> no_double_space ws ->
  trim_runes ws <> [] ->
  statement_shape (of_bytes (encode_all (trim_runes ws))).
Proof.
  intros Hv Hk Hn Hne.
  destruct (trim_runes_split ws) as (a & b & Heq & _ & _).
  unfold statement_shape.
  rewrite runes_encode_all by (by apply trim_runes_valid).
  split_and!; [done|done|apply trim_runes_head|apply trim_runes_last| |].
  - rewrite Heq in Hk. apply Forall_app in Hk as [_ Hk]. by apply Forall_app in Hk as [Hk _].
  - rewrite Heq in Hn. by eapply no_double_space_part.
Qed.

Lemma scan_rune_inv st r : scanner_inv st -> scanner_inv (scan_rune st r).
Proof.
  intros (Hst & ws & Hw & Hk & Hn & Hl). unfold scan_rune.
  destruct (r =? 59) eqn:Hr.
  - split.
    + cbn [stmts]. destruct Hw as [Hv ->]. rewrite TrimSpace_encoded by done.
      destruct (0 <? String.length _)%nat eqn:Hlen; [|done].
      apply Forall_app. split; [done|]. apply Forall_cons. split; [|constructor].
      apply shape_of_trim; try done. intros Hnil. rewrite Hnil in Hlen. done.
    + exists []. cbn [sb lastRune]. split_and!.
      * apply written_empty.
      * constructor.
      * apply no_double_space_nil.
      * intros a Ha. by destruct a.
  - props.
    set (r' := if (r =? 13) || (r =? 10) || (r =? 9) then 32 else r).
    assert (Hr' : kept r').
    { unfold r', kept. destruct ((r =? 13) || (r =? 10) || (r =? 9)) eqn:Hb; [lia|].
      props. lia. }
    destruct ((lastRune st =? 32) && (r' =? 32)) eqn:Hskip.
    { split; [done|]. by exists ws. }
    split; [done|]. exists (ws ++ [norm r']). cbn [sb lastRune]. split_and!.
    + by apply written_WriteRune.
    + apply Forall_app. split; [done|]. apply Forall_cons. split; [|constructor].
      by apply norm_kept.
    + apply no_double_space_snoc; [done|]. intros [H32 [a Ha]].
      apply norm_space in H32. pose proof (Hl a Ha) as Hlast.
      rewrite H32, Hlast in Hskip. done.
    + intros a Ha. apply app_inj_tail in Ha as [_ Ha]. by apply norm_space.
Qed.

Lemma fold_scan_inv rs st : scanner_inv st -> scanner_inv (fold_left scan_rune rs st).
Proof.
  revert st. induction rs as [|r rs IH]; intros st H; [done|].
  cbn [fold_left]. by apply IH, scan_rune_inv.
Qed.

Lemma scanner_inv_start : scanner_inv (Scanner [] EmptyString 0).
Proof.
  split; [constructor|]. exists []. split_and!.
  - apply written_empty.
  - constructor.
  - apply no_double_space_nil.
  - intros a Ha. by destruct a.
Qed.

(** A statement in normal form is plain, and trimming leaves it. *)
Lemma shape_nonempty s : statement_shape s -> s <> EmptyString.
Proof. intros (Hne & _) ->. by apply Hne. Qed.

Lemma shape_plain s : statement_shape s -> plain_statement s.
Proof.
  intros Hs. split; [by apply shape_nonempty|].
  destruct Hs as (_ & Heq & _ & _ & Hk & _).
  rewrite Heq, bytes_of_bytes by (apply encode_all_range, runes_valid).
  intros Hin. apply encode_all_low in Hin; [|apply runes_valid|lia].
  rewrite Forall_forall in Hk. destruct (Hk 59 Hin) as [H _]. done.
Qed.

Lemma shape_trimmed s : statement_shape s -> TrimSpace s = s.
Proof.
  intros (_ & Heq & Hh & Hl & _). rewrite Heq at 1.
  rewrite TrimSpace_encoded by apply runes_valid.
  rewrite trim_runes_id by done. done.
Qed.

(** *** Texts the splitter accepts *)

Lemma IsSpace_valid r : IsSpace r = true -> valid r.
Proof.
  unfold IsSpace, valid. destruct ((0 <=? r) && (r <=? 0xFF)) eqn:H; [props; lia|].
  intros Hsp.
  repeat match type of Hsp with
         | _ || _ = true => apply orb_true_iff in Hsp as [Hsp|Hsp]
         end; props; lia.
Qed.

Lemma IsSpace_59 : IsSpace 59 = false.
Proof. reflexivity. Qed.

Lemma scan_rune_space st r :
  IsSpace r = true ->
  (exists ws, written ws (sb st) /\ Forall (fun w => IsSpace w = true) ws) ->
  stmts (scan_rune st r) = stmts st
  /\ exists ws, written ws (sb (scan_rune st r)) /\ Forall (fun w => IsSpace w = true) ws.
Proof.
  intros Hr (ws & Hw & Hsp). unfold scan_rune.
  destruct (r =? 59) eqn:H59; [props; subst r; by rewrite IsSpace_59 in Hr|].
  set (r' := if (r =? 13) || (r =? 10) || (r =? 9) then 32 else r).
  assert (Hr' : IsSpace r' = true).
  { unfold r'. by destruct ((r =? 13) || (r =? 10) || (r =? 9)). }
  destruct ((lastRune st =? 32) && (r' =? 32)); [split; [done|by exists ws]|].
  split; [done|]. exists (ws ++ [norm r']). cbn [sb]. split.
  - by apply written_WriteRune.
  - apply Forall_app. split; [done|]. apply Forall_cons. split; [|constructor].
    by rewrite norm_id by (by apply IsSpace_valid).
Qed.

Lemma fold_scan_spaces rs st :
  Forall (fun r => IsSpace r = true) rs ->
  (exists ws, written ws (sb st) /\ Forall (fun w => IsSpace w = true) ws) ->
  stmts (fold_left scan_rune rs st) = stmts st
  /\ exists ws, written ws (sb (fold_left scan_rune rs st))
                /\ Forall (fun w => IsSpace w = true) ws.
Proof.
  revert st. induction rs as [|r rs IH]; intros st Hrs Hst; [done|].
  apply Forall_cons in Hrs as [Hr Hrs]. cbn [fold_left].
  destruct (scan_rune_space st r Hr Hst) as (Hs & Hst').
  destruct (IH (scan_rune st r) Hrs Hst') as (Hs' & Hst'').
  split; [by rewrite Hs', Hs|done].
Qed.

Lemma TrimSpace_spaces ws :
  Forall (fun w => IsSpace w = true) ws ->
  TrimSpace (of_bytes (encode_all ws)) = EmptyString.
Proof.
  intros Hsp. rewrite TrimSpace_encoded.
  - by rewrite trim_runes_spaces.
  - eapply Forall_impl; [exact Hsp|]. intros r. apply IsSpace_valid.
Qed.

(** The builder is empty at the start and after a [;]. *)
Lemma fold_scan_body body st :
  (body = [] /\ sb st = EmptyString) \/ (exists b, body = b ++ [59]) ->
  sb (fold_left scan_rune body st) = EmptyString.
Proof.
  intros [[-> H]|[b ->]]; [done|].
  rewrite fold_left_app. cbn [fold_left]. unfold scan_rune. by rewrite Z.eqb_refl.
Qed.

(** *** Writing the statements back *)

Lemma fold_scan_statement rs st :
  Forall valid rs -> Forall kept rs -> no_double_space (lastRune st :: rs) ->
  fold_left scan_rune rs st
  = {| stmts := stmts st;
       sb := (sb st ++ of_bytes (encode_all rs))%string;
       lastRune := default (lastRune st) (last rs) |}.
Proof.
  revert st. induction rs as [|r rs IH]; intros st Hv Hk Hn.
  - destruct st. cbn. by rewrite string_app_nil_r.
  - apply Forall_cons in Hv as [Hr Hv]. apply Forall_cons in Hk as [Hkr Hk].
    cbn [fold_left].
    assert (Hstep : scan_rune st r
                    = {| stmts := stmts st; sb := WriteRune (sb st) r; lastRune := r |}).
    { unfold scan_rune. destruct Hkr as (H59 & H9 & H10 & H13).
      replace (r =? 59) with false by lia.
      replace ((r =? 13) || (r =? 10) || (r =? 9)) with false by lia.
      destruct ((lastRune st =? 32) && (r =? 32)) eqn:Hskip; [|done].
      props. exfalso. apply (Hn [] rs). cbn. by f_equal; [|f_equal]. }
    rewrite Hstep, IH; [|done|done|].
    + cbn [stmts sb lastRune]. f_equal.
      * unfold WriteRune. rewrite string_app_assoc, <- of_bytes_app. done.
      * destruct rs as [|x rs]; [reflexivity|]. rewrite last_cons_cons.
        destruct (last (x :: rs)) eqn:E; [done|]. by apply last_None in E.
    + cbn [lastRune]. intros a b Heq. apply (Hn (lastRune st :: a) b).
      cbn. by f_equal.
Qed.

Lemma parts_runes (l : list string) :
  Forall statement_shape l ->
  Forall valid (mjoin (map (fun s => runes s ++ [59]) l))
  /\ of_bytes (encode_all (mjoin (map (fun s => runes s ++ [59]) l)))
     = fold_right (fun s acc => (s ++ ";" ++ acc)%string) EmptyString l.
Proof.
  intros Hl. split.
  - apply Forall_forall. intros r Hr.
    apply list_elem_of_join in Hr as (rs & Hr & Hrs).
    apply list_elem_of_fmap in Hrs as (s & -> & _).
    apply elem_of_app in Hr as [Hr|Hr].
    + pose proof (runes_valid s) as Hv. rewrite Forall_forall in Hv. by apply Hv.
    + apply list_elem_of_singleton in Hr as ->. unfold valid. lia.
  - induction Hl as [|s l Hs Hl IH]; [done|].
    change (mjoin (map (fun s => runes s ++ [59]) (s :: l)))
      with ((runes s ++ [59]) ++ mjoin (map (fun s => runes s ++ [59]) l)).
    cbn [fold_right]. rewrite encode_all_app, of_bytes_app, IH.
    rewrite encode_all_app, of_bytes_app.
    destruct Hs as (_ & Heq & _). rewrite <- Heq.
    rewrite string_app_assoc. done.
Qed.

Lemma terminated_fold (l : list string) :
  l <> [] ->
  terminated l = fold_right (fun s acc => (s ++ ";" ++ acc)%string) EmptyString l.
Proof.
  unfold terminated. induction l as [|s l IH]; [done|]. intros _.
  destruct l as [|s' l].
  - cbn. by rewrite string_app_nil_r.
  - change (Join (s :: s' :: l) ";") with (s ++ ";" ++ Join (s' :: l) ";")%string.
    rewrite !string_app_assoc, IH by done. done.
Qed.

Lemma fold_scan_statements (l : list string) : forall st,
  Forall statement_shape l ->
  sb st = EmptyString -> lastRune st <> 32 ->
  exists lr,
    fold_left scan_rune (mjoin (map (fun s => runes s ++ [59]) l)) st
    = {| stmts := stmts st ++ l; sb := EmptyString; lastRune := lr |}
    /\ lr <> 32.
Proof.
  induction l as [|s l IH]; intros st Hl Hsb Hlr.
  - exists (lastRune st). destruct st. cbn in *. subst. by rewrite app_nil_r.
  - apply Forall_cons in Hl as [Hs Hl].
    change (mjoin (map (fun s => runes s ++ [59]) (s :: l)))
      with ((runes s ++ [59]) ++ mjoin (map (fun s => runes s ++ [59]) l)).
    rewrite !fold_left_app.
    pose proof Hs as (Hne & Heq & Hh & Hla & Hk & Hn).
    rewrite (fold_scan_statement (runes s) st); [|apply runes_valid|done|].
    2:{ intros a b Hab. destruct a as [|x a].
        - cbn in Hab. injection Hab as H1 H2. done.
        - cbn in Hab. injection Hab as _ H2. by apply (Hn a b). }
    rewrite Hsb, string_app_nil_l, <- Heq.
    cbn [fold_left].
    assert (Hlen : (0 <? String.length s)%nat = true).
    { apply Nat.ltb_lt. pose proof (shape_nonempty s Hs). destruct s; [done|cbn; lia]. }
    destruct (last (runes s)) as [x|] eqn:Hx; [|by apply last_None in Hx].
    change (default (lastRune st) (Some x)) with x.
    assert (Hx32 : x <> 32).
    { intros ->. by pose proof (Hla 32 eq_refl). }
    assert (Hstep : scan_rune {| stmts := stmts st; sb := s; lastRune := x |} 59
                    = {| stmts := stmts st ++ [s]; sb := EmptyString; lastRune := x |}).
    { unfold scan_rune. change (59 =? 59) with true. cbn [sb stmts lastRune].
      by rewrite (shape_trimmed s Hs), Hlen. }
    rewrite Hstep.
    destruct (IH {| stmts := stmts st ++ [s]; sb := EmptyString; lastRune := x |})
      as (lr & Hfold & Hlr'); [done|done|done|].
    exists lr. rewrite Hfold. cbn [stmts]. by rewrite <- app_assoc.
Qed.

(** The statements returned are in normal form. *)
Lemma parse_shape {RT : Runtime} (str : string) (l : list string) :
  parseStatementsFromString str = Ok l -> Forall statement_shape l.
Proof.
  unfold parseStatementsFromString.
  set (st := fold_left scan_rune _ _).
  assert (Hinv : scanner_inv st) by apply fold_scan_inv, scanner_inv_start.
  destruct (0 <? String.length _)%nat; [done|]. intros [= <-].
  by destruct Hinv as [Hst _].
Qed.

End ShapeFacts.

(** X1: every statement [parseStatementsFromString] returns is in normal
    form: well-formed UTF-8 that is not empty, without [;], tab, line feed
    or carriage return, without two spaces in a row and without white
    space at its ends (so [strings.TrimSpace] leaves it as it is). *)
Theorem parsed_statements_normal {RT : Runtime} (str : string) (l : list string) :
  Parse.parseStatementsFromString str = Ok l ->
  Forall (fun s => Shape.statement_shape s /\ Spec.plain_statement s
                   /\ Utf8.TrimSpace s = s) l.
Proof.
  intros Hparse. apply ShapeFacts.parse_shape in Hparse.
  eapply Forall_impl; [exact Hparse|].
  intros s Hs. split_and!;
    [done|by apply ShapeFacts.shape_plain|by apply ShapeFacts.shape_trimmed].
Qed.

Lemma parsed_statements_normal_witness :
  Forall (fun s => Shape.statement_shape s /\ Spec.plain_statement s
                   /\ Utf8.TrimSpace s = s)
         ["SELECT 1"%string; "INSERT INTO t VALUES ('a b')"%string].
Proof.
  apply (parsed_statements_normal (RT := Examples.runtime)
           ("SELECT 1;" ++ GoString.nl ++ "  INSERT  INTO t   VALUES ('a  b') ; ")).
  by vm_compute.
Defined.

(** X2: when only white space follows the last [;] of the text left by
    the removal of the comments (or the text is white space altogether),
    [parseStatementsFromString] returns statements and no error. *)
Theorem terminated_text_accepted {RT : Runtime}
    (str : string) (body tail : list Z) :
  Utf8.runes (commentsRegex_ReplaceAllString str " ") = body ++ tail ->
  body = [] \/ (exists b, body = b ++ [59]) ->
  Forall (fun r => Utf8.IsSpace r = true) tail ->
  exists l, Parse.parseStatementsFromString str = Ok l.
Proof.
  intros Hrunes Hbody Htail. unfold Parse.parseStatementsFromString.
  rewrite Hrunes, fold_left_app.
  set (st0 := fold_left Parse.scan_rune body _).
  assert (Hsb : Parse.sb st0 = EmptyString).
  { apply ShapeFacts.fold_scan_body. destruct Hbody as [->|H]; [by left|by right]. }
  destruct (ShapeFacts.fold_scan_spaces tail st0 Htail) as (_ & ws & [_ ->] & Hsp).
  { exists []. rewrite Hsb. split; [apply SplitFacts.written_empty|constructor]. }
  rewrite ShapeFacts.TrimSpace_spaces by done. cbn. by eexists.
Qed.

Lemma terminated_text_accepted_witness :
  exists l, Parse.parseStatementsFromString (RT := Examples.runtime)
              ("SELECT 1; SELECT 2;  " ++ GoString.nl) = Ok l.
Proof.
  apply (terminated_text_accepted (RT := Examples.runtime)
           ("SELECT 1; SELECT 2;  " ++ GoString.nl)
           (Utf8.runes "SELECT 1; SELECT 2;") [32; 32; 10]).
  - by vm_compute.
  - right. exists (Utf8.runes "SELECT 1; SELECT 2"). by vm_compute.
  - repeat constructor.
Defined.

(** X3: the splitter gives back its own output: when the statements it
    returned are written out, each followed by [;], and the removal of the
    comments leaves that text as it is, [parseStatementsFromString] returns
    the same statements from it. *)
Theorem parse_written_back {RT : Runtime} (str : string) (l : list string) :
  Parse.parseStatementsFromString str = Ok l ->
  commentsRegex_ReplaceAllString (Shape.terminated l) " " = Shape.terminated l ->
  Parse.parseStatementsFromString (Shape.terminated l) = Ok l.
Proof.
  intros Hparse Hregex.
  assert (Hl : Forall Shape.statement_shape l) by (by eapply ShapeFacts.parse_shape).
  unfold Parse.parseStatementsFromString. rewrite Hregex.
  destruct l as [|s l]; [by vm_compute|].
  rewrite ShapeFacts.terminated_fold by done.
  destruct (ShapeFacts.parts_runes (s :: l) Hl) as (Hv & <-).
  rewrite ShapeFacts.runes_encode_all by done.
  destruct (ShapeFacts.fold_scan_statements (s :: l) (Parse.Scanner [] EmptyString 0))
    as (lr & -> & _); [done|done|done|].
  by vm_compute.
Qed.

Lemma parse_written_back_witness :
  Parse.parseStatementsFromString (RT := Examples.runtime)
    (Shape.terminated ["SELECT 1"%string; "INSERT INTO t VALUES ('a b')"%string])
  = Ok ["SELECT 1"%string; "INSERT INTO t VALUES ('a b')"%string].
Proof.
  apply (parse_written_back (RT := Examples.runtime)
           ("SELECT 1;" ++ GoString.nl ++ "  INSERT  INTO t   VALUES ('a  b') ; ")).
  - by vm_compute.
  - reflexivity.
Defined.

(** ** More on [extractVersion] *)

Module VersionFacts.

Import GoString GoStringFacts Utf8 Strconv StrconvFacts Parse Spec Shape ShapeFacts.

Lemma extractVersion_cases name :
  extractVersion name =
    match digit_runes name with
    | [] => Returns (-1)
    | ds => if decimal ds <=? maxInt64 then Returns (decimal ds)
            else Panics (of_bytes ds)
    end.
Proof.
  unfold extractVersion. rewrite extractVersion_digits_spec, length_of_bytes.
  pose proof (digit_runes_digits name) as Hds.
  destruct (digit_runes name) as [|d ds] eqn:E; [done|].
  cbn [length Nat.eqb]. rewrite ParseInt_digits by done.
  by destruct (decimal (d :: ds) <=? maxInt64).
Qed.

Lemma decimal_nonneg ds : Forall (fun d => 48 <= d <= 57) ds -> 0 <= decimal ds.
Proof. intros H. by apply (value_from_ge 0 ds). Qed.

Lemma extractVersion_same name name' :
  digit_runes name = digit_runes name' -> extractVersion name = extractVersion name'.
Proof. intros H. by rewrite !extractVersion_cases, H. Qed.

Lemma filter_range (P : Z -> Prop) `{!forall x, Decision (P x)} (l : list Z) :
  Forall (fun b => 0 <= b < 256) l -> Forall (fun b => 0 <= b < 256) (filter P l).
Proof.
  intros Hl. apply Forall_forall. intros b Hb. apply list_elem_of_filter in Hb as [_ Hb].
  rewrite Forall_forall in Hl. by apply Hl.
Qed.

(** What [extractVersion] returns when it returns. *)
Lemma extractVersion_Returns name v :
  extractVersion name = Returns v ->
  (v = -1 /\ digit_runes name = [])
  \/ (0 <= v <= maxInt64 /\ digit_runes name <> [] /\ v = decimal (digit_runes name)).
Proof.
  rewrite extractVersion_cases. pose proof (digit_runes_digits name) as Hds.
  destruct (digit_runes name) as [|d ds] eqn:E; [intros [= <-]; left; by split|].
  cbv beta iota zeta. destruct (decimal (d :: ds) <=? maxInt64) eqn:Hle; [|done].
  intros [= <-]. right. apply Z.leb_le in Hle.
  pose proof (decimal_nonneg (d :: ds) Hds). done.
Qed.

End VersionFacts.

(** X4: [extractVersion] reads the ASCII digit bytes of the name and
    nothing else: the digits among the runes of the name are its digit
    bytes, whatever the other bytes are (letters, digits of other scripts,
    bytes that are not UTF-8), and the result is that of the digit bytes
    alone. *)
Theorem extractVersion_reads_digit_bytes (name : string) :
  Spec.digit_runes name = filter Shape.is_digit (GoString.bytes name)
  /\ Parse.extractVersion name
     = Parse.extractVersion
         (GoString.of_bytes (filter Shape.is_digit (GoString.bytes name))).
Proof.
  split; [apply ShapeFacts.digit_runes_bytes|].
  apply VersionFacts.extractVersion_same.
  rewrite !ShapeFacts.digit_runes_bytes.
  rewrite GoStringFacts.bytes_of_bytes
    by apply VersionFacts.filter_range, GoStringFacts.bytes_range.
  by rewrite ShapeFacts.filter_idemp.
Qed.

(** X5: -1 is the answer of [extractVersion] for the names without an
    ASCII digit and for no other name; every other result is a number from
    0 to 2^63-1. *)
Theorem extractVersion_sentinel (name : string) :
  (Parse.extractVersion name = Returns (-1)
   <-> Forall (fun b => ~ Shape.is_digit b) (GoString.bytes name))
  /\ (forall v, Parse.extractVersion name = Returns v ->
                v <> -1 -> 0 <= v <= Strconv.maxInt64).
Proof.
  split.
  - rewrite VersionFacts.extractVersion_cases.
    pose proof (StrconvFacts.digit_runes_digits name) as Hds.
    rewrite ShapeFacts.digit_runes_bytes in *. split.
    + destruct (filter Shape.is_digit (GoString.bytes name)) as [|d ds] eqn:E.
      * intros _. apply Forall_forall. intros b Hb Hd.
        assert (Hin : b ∈ filter Shape.is_digit (GoString.bytes name))
          by (by apply list_elem_of_filter).
        rewrite E in Hin. by apply elem_of_nil in Hin.
      * cbv beta iota zeta. destruct (Spec.decimal (d :: ds) <=? Strconv.maxInt64); [|done].
        intros [= H]. pose proof (VersionFacts.decimal_nonneg (d :: ds) Hds). lia.
    + intros Hno.
      destruct (filter Shape.is_digit (GoString.bytes name)) as [|d ds] eqn:E; [done|].
      assert (Hin : d ∈ filter Shape.is_digit (GoString.bytes name))
        by (rewrite E; by left).
      apply list_elem_of_filter in Hin as [Hd Hin].
      rewrite Forall_forall in Hno. by destruct (Hno d Hin).
  - intros v Hv Hne.
    apply VersionFacts.extractVersion_Returns in Hv as [[-> _]|[H _]]; [done|exact H].
Qed.

(** ** The form of a checksum *)

Module DigestFacts.

Import GoString GoStringFacts Spec Sqlm HashFacts.

Lemma round_length st kw : length (Sha256.round st kw) = length st.
Proof.
  unfold Sha256.round.
  do 8 (destruct st as [|? st]; [reflexivity|]). by destruct st.
Qed.

Lemma fold_round_length kws : forall st,
  length (fold_left Sha256.round kws st) = length st.
Proof.
  induction kws as [|kw kws IH]; intros st; [done|].
  cbn [fold_left]. by rewrite IH, round_length.
Qed.

Lemma block_length h blk : length (Sha256.block h blk) = length h.
Proof.
  unfold Sha256.block. rewrite length_zip_with, fold_round_length. lia.
Qed.

Lemma blocks_length fuel : forall h data,
  length (Sha256.blocks fuel h data) = length h.
Proof.
  induction fuel as [|fuel IH]; intros h data; [done|].
  cbn [Sha256.blocks]. destruct data; [done|]. by rewrite IH, block_length.
Qed.

Lemma be_bytes_length n x : length (Sha256.be_bytes n x) = n.
Proof.
  unfold Sha256.be_bytes.
  by rewrite length_map, length_rev, length_seq.
Qed.

Lemma Sum256_length data : length (Sha256.Sum256 data) = 32%nat.
Proof.
  unfold Sha256.Sum256.
  pose proof (blocks_length (length (Sha256.pad data)) Sha256.H0 (Sha256.pad data)) as Hl.
  change (length Sha256.H0) with 8%nat in Hl. revert Hl.
  generalize (Sha256.blocks (length (Sha256.pad data)) Sha256.H0 (Sha256.pad data)).
  intros l Hl.
  assert (Hflat : length (flat_map (Sha256.be_bytes 4) l) = (4 * length l)%nat).
  { clear Hl. induction l as [|x l IH]; [done|].
    cbn [flat_map]. rewrite length_app, be_bytes_length, IH. cbn [length]. lia. }
  rewrite Hflat, Hl. done.
Qed.

Lemma EncodeToString_length src :
  String.length (Hex.EncodeToString src) = (2 * length src)%nat.
Proof.
  induction src as [|b src IH]; [done|].
  cbn [Hex.EncodeToString String.length length]. rewrite IH. lia.
Qed.

Lemma digit_hextable n :
  0 <= n < 16 -> byte_of (Hex.digit n) ∈ bytes Hex.hextable.
Proof.
  intros Hn.
  assert (Hall : forallb (fun k => existsb (Z.eqb (byte_of (Hex.digit (Z.of_nat k))))
                                           (bytes Hex.hextable))
                         (seq 0 16) = true) by (by vm_compute).
  rewrite forallb_forall in Hall.
  specialize (Hall (Z.to_nat n)). rewrite Z2Nat.id in Hall by lia.
  assert (Hin : In (Z.to_nat n) (seq 0 16)) by (apply in_seq; lia).
  apply Hall, existsb_exists in Hin as (b & Hb & Heq).
  apply Z.eqb_eq in Heq. rewrite Heq. by apply list_elem_of_In.
Qed.

Lemma EncodeToString_digits src :
  Forall (fun b => 0 <= b < 256) src ->
  Forall (fun c => c ∈ bytes Hex.hextable) (bytes (Hex.EncodeToString src)).
Proof.
  induction 1 as [|b src Hb _ IH]; [constructor|].
  cbn [Hex.EncodeToString bytes].
  apply Forall_cons. split; [|apply Forall_cons; split; [|done]].
  - apply digit_hextable. rewrite Z.shiftr_div_pow2 by lia.
    change (2 ^ 4) with 16. Z.div_mod_to_equations; lia.
  - apply digit_hextable. change 15 with (Z.ones 4).
    rewrite Z.land_ones by lia. change (2 ^ 4) with 16. Z.div_mod_to_equations; lia.
Qed.

End DigestFacts.

(** X6: a checksum is always 64 characters long and made of the
    characters [0123456789abcdef], whatever the statements: it fills the
    [CHAR(64)] column of the history table exactly. *)
Theorem hash_is_64_hex_digits (m : Migration) :
  String.length (Sqlm.hash m) = 64%nat
  /\ Forall (fun c => c ∈ GoString.bytes "0123456789abcdef")
            (GoString.bytes (Sqlm.hash m)).
Proof.
  unfold Sqlm.hash. split.
  - by rewrite DigestFacts.EncodeToString_length, DigestFacts.Sum256_length.
  - apply DigestFacts.EncodeToString_digits, HashFacts.Sum256_range.
Qed.

(** ** More on the runs of [Apply] *)

Module RunFacts.

Import GoString Spec Sqlm ApplyFacts OrderFacts TraceFacts FailureFacts PlanFacts
       IdempotenceFacts Terms.

(** *** The checks before the last loop *)

Lemma already_applied_agree m entries :
  (forall e, e ∈ entries -> entry_key e = migration_key m ->
             HistoryEntry.Checksum e = hash m) ->
  already_applied m entries = Ok (negb (is_pending entries m)).
Proof.
  intros Hsum. destruct (already_applied m entries) as [err|b] eqn:E.
  - apply already_applied_Err in E as (entry & _ & Hin & Hkey & Hne).
    by destruct (Hne (Hsum entry Hin Hkey)).
  - by rewrite (already_applied_Ok m entries b E).
Qed.

Lemma group_pending_agree entries migrations : forall acc,
  no_drift entries migrations ->
  exists groups, group_pending entries migrations acc = Ok groups.
Proof.
  induction migrations as [|m migrations IH]; intros acc Hno; [by eexists|].
  cbn [group_pending].
  rewrite already_applied_agree by (intros e He Hk; apply (Hno m e); [by left|done..]).
  assert (Hno' : no_drift entries migrations).
  { intros m' e Hm'. apply Hno. by right. }
  destruct (negb (is_pending entries m)); by apply IH.
Qed.

Lemma check_versions_Err candidates e :
  check_versions (-1) candidates = Err e ->
  exists m, e = ErrVersionNotUnique m /\ m ∈ candidates /\ Migration.Version m < 0.
Proof.
  induction candidates as [|m candidates IH]; [done|].
  cbn [check_versions]. destruct (Migration.Version m <=? -1) eqn:Hv.
  - intros [= <-]. exists m. apply Z.leb_le in Hv. split_and!; [done|by left|lia].
  - intros H. destruct (IH H) as (m' & ? & ? & ?). exists m'. split_and!; [done|by right|done].
Qed.

Lemma uniqueness_check_negative keys : forall groups k m,
  k ∈ keys -> m ∈ default [] (groups !! k) -> Migration.Version m < 0 ->
  exists m' k',
    uniqueness_check keys groups = Err (ErrVersionNotUnique m')
    /\ Migration.Version m' < 0 /\ m' ∈ default [] (groups !! k').
Proof.
  induction keys as [|k0 keys IH]; intros groups k m Hk Hm Hneg;
    [by apply elem_of_nil in Hk|].
  cbn [uniqueness_check].
  fold by_version.
  set (cands := sort_Slice by_version (default [] (groups !! k0))).
  assert (Hperm : cands ≡ₚ default [] (groups !! k0)) by apply sort_Slice_perm.
  destruct (check_versions (-1) cands) as [e|[]] eqn:Ec.
  - apply check_versions_Err in Ec as (m' & -> & Hin & Hv).
    exists m', k0. split_and!; [done|done|]. by rewrite <- Hperm.
  - apply check_versions_negative in Ec. rewrite Forall_forall in Ec.
    assert (Hne : k <> k0).
    { intros ->. rewrite <- Hperm in Hm. specialize (Ec m Hm). lia. }
    apply elem_of_cons in Hk as [->|Hk]; [done|].
    destruct (IH (<[k0:=cands]> groups) k m Hk) as (m' & k' & Hr & Hv & Hin); [|done|].
    { by rewrite lookup_insert_ne. }
    exists m'. destruct (decide (k' = k0)) as [->|Hk'].
    + exists k0. rewrite lookup_insert_eq in Hin. cbn in Hin.
      split_and!; [done|done|]. by rewrite <- Hperm.
    + exists k'. rewrite lookup_insert_ne in Hin by done. done.
Qed.

Lemma elem_of_candidates_of entries migrations g m :
  m ∈ candidates_of entries migrations g <->
  m ∈ migrations /\ is_pending entries m = true /\ Migration.Group m = g.
Proof.
  unfold candidates_of. rewrite !list_elem_of_filter.
  split; [intros (? & ? & ?)|intros (? & ? & ?)]; split_and!; try done.
  - by apply Is_true_true.
  - by apply Is_true_true.
Qed.

Lemma range_keys_group {V} seed (groups : gmap string (list V)) g x :
  x ∈ default [] (groups !! g) -> g ∈ range_keys seed groups.
Proof.
  intros Hx. apply elem_of_range_keys.
  destruct (groups !! g); [by eexists|by apply elem_of_nil in Hx].
Qed.

Lemma pending_groups entries migrations groups g :
  group_pending entries migrations ∅ = Ok groups ->
  default [] (groups !! g) = candidates_of entries migrations g.
Proof.
  intros H. rewrite (group_pending_spec _ _ _ _ g H). by rewrite lookup_empty.
Qed.

(** *** The calls of the loading steps *)

Section WithDB.
Context {RT : Runtime} {S : Type} {DBI : DB S}.

Implicit Types w : world S.

Lemma version_call w r w' :
  version w = (r, w') ->
  exists e, ev_site e = AtVersion /\ w_trace w' = w_trace w ++ [e]
            /\ (forall t, r = Ok t -> went_through e).
Proof.
  unfold version, bind, wrap, lift.
  destruct (call_Query_spec AtVersion versionQuery [] w) as (db & q & _ & ->).
  destruct q as [e|rows]; [|destruct (version_scan _ _)];
    intros H; injection H as <- <-; simpl;
    (eexists; split; [|split]; [|reflexivity|]; [reflexivity|done]).
Qed.

Lemma CreateTable_call w r w' :
  CreateTable w = (r, w') ->
  exists e, ev_site e = AtCreateTable /\ w_trace w' = w_trace w ++ [e]
            /\ r = match ev_err e with None => Ok tt | Some msg => Err (ErrDriver msg) end.
Proof.
  unfold CreateTable, wrap.
  destruct (call_Exec_spec AtCreateTable createMigrationTable [] w) as (db & q & _ & ->).
  destruct q; intros H; injection H as <- <-; simpl;
    (eexists; split; [|split]; [|reflexivity|]; reflexivity).
Qed.

Lemma History_call w r w' :
  History w = (r, w') ->
  exists e, ev_site e = AtHistory /\ w_trace w' = w_trace w ++ [e]
            /\ (forall t, r = Ok t -> went_through e).
Proof.
  unfold History, bind, wrap, lift, ret.
  destruct (call_Query_spec AtHistory historyQuery [] w) as (db & q & _ & ->).
  destruct q as [e|rows]; [|destruct (History_scan _ _); [|destruct (rows_Err rows)]];
    intros H; injection H as <- <-; simpl;
    (eexists; split; [|split]; [|reflexivity|]; [reflexivity|done]).
Qed.

Lemma load_history_shape w r w' :
  load_history w = (r, w') ->
  exists evs, w_trace w' = w_trace w ++ evs /\ load_shape r evs.
Proof.
  unfold load_history, bind, wrap, ret.
  destruct (version w) as [[e|dbType] w1] eqn:E1;
    apply version_call in E1 as (e1 & Hs1 & Ht1 & Hok1).
  { intros [= <- <-]. exists [e1]. split; [done|]. cbn. by rewrite Hs1. }
  specialize (Hok1 dbType eq_refl).
  destruct (CreateTable w1) as [r2 w2] eqn:E2.
  apply CreateTable_call in E2 as (e2 & Hs2 & Ht2 & ->).
  destruct (ev_err e2) as [msg|] eqn:Herr2.
  { intros [= <- <-]. exists [e1; e2]. split; [by rewrite Ht2, Ht1, <- app_assoc|].
    cbn. by exists e1, e2, msg. }
  destruct (History w2) as [[e|entries] w3] eqn:E3;
    apply History_call in E3 as (e3 & Hs3 & Ht3 & Hok3).
  { intros [= <- <-]. exists [e1; e2; e3].
    split; [by rewrite Ht3, Ht2, Ht1, <- !app_assoc|].
    cbn. by exists e1, e2, e3. }
  specialize (Hok3 entries eq_refl).
  intros [= <- <-]. exists [e1; e2; e3].
  split; [by rewrite Ht3, Ht2, Ht1, <- !app_assoc|].
  cbn. rewrite Hs1, Hs2, Hs3. split; [done|]. by repeat constructor.
Qed.

(** *** The calls of the last loop *)

Lemma applying_insert e : ev_site e = AtInsert -> applying e.
Proof. by left. Qed.
Lemma applying_execute e : ev_site e = AtExecute -> applying e.
Proof. right. by left. Qed.
Lemma applying_update e : ev_site e = AtUpdate -> applying e.
Proof. right. by right. Qed.

Lemma apply_migration_shape dbType m w r w' :
  apply_migration dbType m w = (r, w') ->
  exists evs, w_trace w' = w_trace w ++ evs /\ run_shape [m] r evs.
Proof.
  unfold apply_migration, bind, time_now. simpl.
  unfold wrap at 1.
  match goal with |- context [insert dbType ?e ?w0] =>
    destruct (insert dbType e w0) as [ri w1] eqn:Ei end.
  apply insert_spec in Ei as (e1 & Ht1 & _ & Hs1 & Ha1 & ->). simpl in Ht1.
  assert (Hap1 : applying e1) by (by apply applying_insert).
  destruct (ev_err e1) as [msg|] eqn:Herr1.
  { intros [= <- <-]. exists [e1]. split; [done|]. split; [by apply Forall_singleton|].
    exists [], e1, msg, m, (time_Now (w_clock w)).
    split_and!; [done|constructor|by left|done|exact Ha1|done|done]. }
  unfold execute.
  destruct (execute_stmts (Migration.Statements m) w1) as [re w2] eqn:Ee.
  apply execute_stmts_spec in Ee as (evs & Ht2 & _ & Hs2 & Hr).
  assert (Hap2 : Forall applying evs).
  { eapply Forall_impl; [exact Hs2|]. intros e [He _]. by apply applying_execute. }
  destruct re as [err|[]].
  - match goal with |- context [update dbType ?e ?w0] =>
      destruct (update dbType e w0) as [ru w3] eqn:Eu end.
    apply update_spec in Eu as (e3 & Ht3 & _ & Hs3 & Ha3 & _).
    intros [= <- <-].
    exists (e1 :: evs ++ [e3]).
    split; [by rewrite Ht3, Ht2, Ht1, <- !app_assoc|].
    split; [|done]. constructor; [done|]. apply Forall_app. split; [done|].
    apply Forall_singleton. by apply applying_update.
  - unfold wrap.
    match goal with |- context [update dbType ?e ?w0] =>
      destruct (update dbType e w0) as [ru w3] eqn:Eu end.
    apply update_spec in Eu as (e3 & Ht3 & _ & Hs3 & Ha3 & ->). simpl in Ht3.
    destruct Hr as [Hq Hok].
    assert (Hap : Forall applying (e1 :: evs ++ [e3])).
    { constructor; [done|]. apply Forall_app. split; [done|].
      apply Forall_singleton. by apply applying_update. }
    destruct (ev_err e3) as [msg|] eqn:Herr3; intros [= <- <-];
      exists (e1 :: evs ++ [e3]);
      (split; [by rewrite Ht3, Ht2, Ht1, <- !app_assoc|]); (split; [done|]).
    + exists (e1 :: evs), e3, msg, m, (time_Now (w_clock w)),
        (time_Sub (time_Now (w_clock w2)) (time_Now (Datatypes.S (w_clock w)))).
      split_and!; [done|by constructor|by left| |done|exact Ha3|done|done].
      rewrite executed_cons.
      rewrite (executed_AtExecute evs)
        by (eapply Forall_impl; [exact Hs2|]; by intros e [He _]).
      rewrite Hq. unfold executed. cbn. by rewrite Hs1.
    + constructor; [done|]. apply Forall_app. split; [done|]. by apply Forall_singleton.
Qed.

Lemma run_shape_later m candidates r evs1 evs :
  Forall applying evs1 -> Forall went_through evs1 ->
  run_shape candidates r evs -> run_shape (m :: candidates) r (evs1 ++ evs).
Proof.
  intros Ha1 Hw1 [Ha Hr]. split; [by apply Forall_app|].
  destruct r as [e|[]]; [|by apply Forall_app].
  destruct e; try done.
  - destruct Hr as (evs0 & ev & msg & m' & at_ & -> & ? & ? & ? & ? & ? & ?).
    exists (evs1 ++ evs0), ev, msg, m', at_.
    split_and!; [by rewrite <- app_assoc|by apply Forall_app|by right|done..].
  - destruct Hr as (evs0 & ev & msg & m' & at_ & d & -> & ? & ? & Hsuf & ? & ? & ? & ?).
    exists (evs1 ++ evs0), ev, msg, m', at_, d.
    split_and!; [by rewrite <- app_assoc|by apply Forall_app|by right| |done..].
    rewrite executed_app. by apply suffix_app_r.
Qed.

Lemma run_shape_first m candidates r evs :
  r <> Ok tt ->
  run_shape [m] r evs -> run_shape (m :: candidates) r evs.
Proof.
  intros Hne [Ha Hr]. split; [done|].
  destruct r as [e|[]]; [|done].
  destruct e; try done.
  - destruct Hr as (evs0 & ev & msg & m' & at_ & -> & ? & Hin & ? & ? & ? & ?).
    apply list_elem_of_singleton in Hin as ->.
    exists evs0, ev, msg, m, at_. split_and!; [done|done|by left|done..].
  - destruct Hr as (evs0 & ev & msg & m' & at_ & d & -> & ? & Hin & ? & ? & ? & ? & ?).
    apply list_elem_of_singleton in Hin as ->.
    exists evs0, ev, msg, m, at_, d. split_and!; [done|done|by left|done..].
Qed.

Lemma apply_candidates_shape dbType candidates w r w' :
  apply_candidates dbType candidates w = (r, w') ->
  exists evs, w_trace w' = w_trace w ++ evs /\ run_shape candidates r evs.
Proof.
  revert w. induction candidates as [|m candidates IH]; intros w; simpl.
  - unfold ret. intros [= <- <-]. exists []. rewrite app_nil_r. split; [done|].
    split; constructor.
  - unfold bind.
    destruct (apply_migration dbType m w) as [rm w1] eqn:Em.
    apply apply_migration_shape in Em as (evs1 & Ht1 & Hf1).
    destruct rm as [e|[]].
    + intros [= <- <-]. exists evs1. split; [done|].
      by apply run_shape_first.
    + intros H. apply IH in H as (evs2 & Ht2 & Hf2).
      exists (evs1 ++ evs2). split; [by rewrite Ht2, Ht1, <- app_assoc|].
      destruct Hf1 as [Ha1 Hw1]. by apply run_shape_later.
Qed.

End WithDB.

(** *** The calls of [Apply] *)

Lemma check_dirty_kind entries e :
  check_dirty entries = Err e -> exists entry, e = ErrDirty entry.
Proof.
  induction entries as [|entry entries IH]; [done|].
  cbn [check_dirty]. destruct (negb _); [intros [= <-]; by eexists|done].
Qed.

Lemma group_pending_kind entries migrations : forall acc e,
  group_pending entries migrations acc = Err e ->
  exists entry m, e = ErrModified entry m.
Proof.
  induction migrations as [|m migrations IH]; intros acc e; [done|].
  cbn [group_pending]. destruct (already_applied m entries) as [e'|b] eqn:Ea.
  - intros [= <-]. apply already_applied_Err in Ea as (entry & -> & _). by eexists _, _.
  - destruct b; apply IH.
Qed.

Lemma uniqueness_check_kind keys : forall groups e,
  uniqueness_check keys groups = Err e -> exists m, e = ErrVersionNotUnique m.
Proof.
  induction keys as [|k keys IH]; intros groups e; [done|].
  cbn [uniqueness_check].
  destruct (check_versions (-1) _) as [e'|[]] eqn:Ec.
  - intros [= <-]. apply check_versions_Err in Ec as (m & -> & _). by eexists.
  - apply IH.
Qed.

Section WithDB.
Context {RT : Runtime} {S : Type} {DBI : DB S}.

Implicit Types w : world S.

Lemma Apply_calls seed1 seed2 migrations w r w' :
  Apply seed1 seed2 migrations w = (r, w') ->
  exists evs,
    w_trace w' = w_trace w ++ evs
    /\ ((load_shape r evs /\ exists e, r = Err e)
        \/ exists evs1 evs2 candidates,
             evs = evs1 ++ evs2 /\ load_shape (Ok tt) evs1
             /\ (forall m, m ∈ candidates -> m ∈ migrations)
             /\ ((evs2 = []
                  /\ ((exists x, r = Err (ErrDirty x))
                      \/ (exists x y, r = Err (ErrModified x y))
                      \/ (exists x, r = Err (ErrVersionNotUnique x))))
                 \/ run_shape candidates r evs2)).
Proof.
  rewrite Apply_load.
  destruct (load_history w) as [[e|[dbType entries]] w1] eqn:El;
    apply load_history_shape in El as (evs1 & Ht1 & Hl).
  { intros [= <- <-]. exists evs1. split; [done|]. left. split; [done|by eexists]. }
  destruct (check_dirty entries) as [e|[]] eqn:Ed.
  { intros [= <- <-]. exists evs1. split; [done|]. right.
    exists evs1, [], []. rewrite app_nil_r. split_and!; [done|done|by intros m Hm; apply elem_of_nil in Hm|].
    left. split; [done|]. left. destruct (check_dirty_kind _ _ Ed) as [x ->]. by eexists. }
  destruct (group_pending entries migrations ∅) as [e|groups0] eqn:Eg.
  { intros [= <- <-]. exists evs1. split; [done|]. right.
    exists evs1, [], []. rewrite app_nil_r. split_and!; [done|done|by intros m Hm; apply elem_of_nil in Hm|].
    left. split; [done|]. right. left.
    destruct (group_pending_kind _ _ _ _ Eg) as (x & y & ->). by eexists _, _. }
  destruct (uniqueness_check (range_keys seed1 groups0) groups0) as [e|groups] eqn:Eu.
  { intros [= <- <-]. exists evs1. split; [done|]. right.
    exists evs1, [], []. rewrite app_nil_r. split_and!; [done|done|by intros m Hm; apply elem_of_nil in Hm|].
    left. split; [done|]. right. right.
    destruct (uniqueness_check_kind _ _ _ Eu) as [x ->]. by eexists. }
  rewrite apply_groups_plan. intros Ha.
  apply apply_candidates_shape in Ha as (evs2 & Ht2 & Hr).
  exists (evs1 ++ evs2). split; [by rewrite Ht2, Ht1, <- app_assoc|]. right.
  exists evs1, evs2, (plan (range_keys seed2 groups) groups).
  split_and!; [done|done| |by right].
  intros m Hm. by eapply (elem_of_plan entries migrations groups0 seed1 seed2 groups m) in Hm as [Hm _].
Qed.

Lemma Apply_calls_since seed1 seed2 migrations w :
  exists evs,
    calls_since w (Apply seed1 seed2 migrations w).2 = evs
    /\ w_trace (Apply seed1 seed2 migrations w).2 = w_trace w ++ evs.
Proof.
  destruct (Apply seed1 seed2 migrations w) as [r w'] eqn:Ea.
  apply Apply_calls in Ea as (evs & Ht & _).
  exists evs. split; [by apply calls_since_app|done].
Qed.

End WithDB.

End RunFacts.

(** X7: a pending migration with a negative version stops [Apply] before
    anything is written: when the history loads, is clean and agrees with
    the migrations supplied, the call returns the error on versions for a
    pending migration of negative version, after the three loading calls
    and no other. *)
Theorem negative_version_refused {RT : Runtime} {S : Type} {DBI : DB S}
    (seed1 seed2 : list nat) (migrations : list Migration) (w w' : world S)
    (dbType : string) (entries : list HistoryEntry) (m : Migration) :
  Spec.load_history w = (Ok (dbType, entries), w') ->
  Forall (fun e => HistoryEntry.Status e = Sqlm.Success) entries ->
  Terms.no_drift entries migrations ->
  m ∈ migrations ->
  Spec.is_pending entries m = true ->
  Migration.Version m < 0 ->
  exists m',
    m' ∈ migrations /\ Spec.is_pending entries m' = true /\ Migration.Version m' < 0
    /\ Sqlm.Apply seed1 seed2 migrations w = (Err (ErrVersionNotUnique m'), w')
    /\ map ev_site (Spec.calls_since w w') = [AtVersion; AtCreateTable; AtHistory].
Proof.
  intros Hload Hclean Hno Hm Hp Hv.
  apply ApplyFacts.check_dirty_Ok in Hclean.
  destruct (RunFacts.group_pending_agree entries migrations ∅ Hno) as (groups & Hg).
  assert (Hin : m ∈ default [] (groups !! Migration.Group m)).
  { rewrite (RunFacts.pending_groups _ _ _ _ Hg).
    by apply RunFacts.elem_of_candidates_of. }
  destruct (RunFacts.uniqueness_check_negative (Sqlm.range_keys seed1 groups) groups
              (Migration.Group m) m) as (m' & k' & Hu & Hv' & Hin'); [|done|done|].
  { by eapply RunFacts.range_keys_group. }
  rewrite (RunFacts.pending_groups _ _ _ _ Hg) in Hin'.
  apply RunFacts.elem_of_candidates_of in Hin' as (Hm' & Hp' & _).
  exists m'. split_and!; [done|done|done| |by eapply ApplyFacts.load_history_trace].
  by rewrite ApplyFacts.Apply_load, Hload, Hclean, Hg, Hu.
Qed.

Lemma negative_version_refused_witness :
  exists m',
    m' ∈ [Examples.m "g" 1 ["CREATE TABLE a (id INT)"];
          Examples.m "g" (-2) ["CREATE TABLE b (id INT)"]]
    /\ Spec.is_pending (Examples.loaded (Examples.fresh true)).1.2 m' = true
    /\ Migration.Version m' < 0
    /\ Examples.run [Examples.m "g" 1 ["CREATE TABLE a (id INT)"];
                     Examples.m "g" (-2) ["CREATE TABLE b (id INT)"]] (Examples.fresh true)
       = (Err (ErrVersionNotUnique m'), (Examples.loaded (Examples.fresh true)).2)
    /\ map ev_site (Spec.calls_since (Examples.fresh true)
                      (Examples.loaded (Examples.fresh true)).2)
       = [AtVersion; AtCreateTable; AtHistory].
Proof.
  eapply (negative_version_refused (RT := Examples.runtime)
            (DBI := RefDB.handle (USQL := Examples.statements)) [] []
            [Examples.m "g" 1 ["CREATE TABLE a (id INT)"];
             Examples.m "g" (-2) ["CREATE TABLE b (id INT)"]]
            (Examples.fresh true)
            (Examples.loaded (Examples.fresh true)).2
            (Examples.loaded (Examples.fresh true)).1.1
            (Examples.loaded (Examples.fresh true)).1.2
            (Examples.m "g" (-2) ["CREATE TABLE b (id INT)"])).
  - by vm_compute.
  - vm_compute. constructor.
  - intros m e _ He. vm_compute in He. by apply elem_of_nil in He.
  - right. left.
  - by vm_compute.
  - by vm_compute.
Defined.

(** X8: when the history loads, is clean, agrees with the migrations
    supplied and holds a row for each of them, [Apply] returns nil after
    the three loading calls: it inserts no row and executes no statement,
    whatever the database handle. *)
Theorem recorded_migrations_left {RT : Runtime} {S : Type} {DBI : DB S}
    (seed1 seed2 : list nat) (migrations : list Migration) (w w' : world S)
    (dbType : string) (entries : list HistoryEntry) :
  Spec.load_history w = (Ok (dbType, entries), w') ->
  Forall (fun e => HistoryEntry.Status e = Sqlm.Success) entries ->
  Terms.no_drift entries migrations ->
  (forall m, m ∈ migrations -> Spec.is_pending entries m = false) ->
  Sqlm.Apply seed1 seed2 migrations w = (Ok tt, w')
  /\ map ev_site (Spec.calls_since w w') = [AtVersion; AtCreateTable; AtHistory].
Proof.
  intros Hload Hclean Hno Hall.
  apply ApplyFacts.check_dirty_Ok in Hclean.
  split; [|by eapply ApplyFacts.load_history_trace].
  rewrite ApplyFacts.Apply_load, Hload, Hclean.
  rewrite IdempotenceFacts.group_pending_all_applied.
  - rewrite IdempotenceFacts.range_keys_empty. cbn [Sqlm.uniqueness_check].
    by rewrite IdempotenceFacts.range_keys_empty.
  - intros m Hm. rewrite RunFacts.already_applied_agree.
    + by rewrite (Hall m Hm).
    + intros e He Hk. by apply (Hno m e).
Qed.

Lemma recorded_migrations_left_witness :
  Examples.run [Examples.m "h" 1 ["CREATE TABLE b (id INT)"]] Examples.applied_world
  = (Ok tt, (Examples.loaded Examples.applied_world).2)
  /\ map ev_site (Spec.calls_since Examples.applied_world
                    (Examples.loaded Examples.applied_world).2)
     = [AtVersion; AtCreateTable; AtHistory].
Proof.
  eapply (recorded_migrations_left (RT := Examples.runtime)
            (DBI := RefDB.handle (USQL := Examples.statements)) [] []
            [Examples.m "h" 1 ["CREATE TABLE b (id INT)"]]
            Examples.applied_world
            (Examples.loaded Examples.applied_world).2
            (Examples.loaded Examples.applied_world).1.1
            (Examples.loaded Examples.applied_world).1.2).
  - by vm_compute.
  - vm_compute. repeat constructor.
  - intros m e Hm He Hk.
    apply list_elem_of_singleton in Hm as ->.
    vm_compute in He.
    repeat (apply elem_of_cons in He as [->|He]; [by vm_compute in Hk; vm_compute|]).
    by apply elem_of_nil in He.
  - intros m Hm. apply list_elem_of_singleton in Hm as ->. by vm_compute.
Defined.

(** X9: the error [Apply] returns tells how far the call went. With the
    error of the database type only the version query was made; with the
    error of the table creation, that query and the creation; with the
    error of the history, of a dirty history, of a modified migration or of
    the versions, the three loading calls and nothing else. Every other
    result comes after the three loading calls, all gone through, followed
    by inserts, statements and updates only. *)
Theorem error_tells_progress {RT : Runtime} {S : Type} {DBI : DB S}
    (seed1 seed2 : list nat) (migrations : list Migration) (w : world S) :
  match (Sqlm.Apply seed1 seed2 migrations w).1 with
  | Err (ErrUnknownDatabaseType _) =>
      map ev_site (Spec.calls_since w (Sqlm.Apply seed1 seed2 migrations w).2)
      = [AtVersion]
  | Err (ErrCannotCreateTable _) =>
      map ev_site (Spec.calls_since w (Sqlm.Apply seed1 seed2 migrations w).2)
      = [AtVersion; AtCreateTable]
  | Err (ErrCannotGetHistory _) | Err (ErrDirty _) | Err (ErrModified _ _)
  | Err (ErrVersionNotUnique _) =>
      map ev_site (Spec.calls_since w (Sqlm.Apply seed1 seed2 migrations w).2)
      = [AtVersion; AtCreateTable; AtHistory]
  | Ok _ | Err (ErrInsertHistory _) | Err (ErrExecuteMigration _ _ _)
  | Err (ErrUpdateHistory _) =>
      exists evs1 evs2,
        Spec.calls_since w (Sqlm.Apply seed1 seed2 migrations w).2 = evs1 ++ evs2
        /\ map ev_site evs1 = [AtVersion; AtCreateTable; AtHistory]
        /\ Forall Terms.went_through evs1
        /\ Forall Terms.applying evs2
  | Err _ => False
  end.
Proof.
  destruct (Sqlm.Apply seed1 seed2 migrations w) as [r w'] eqn:Ea. cbn [fst snd].
  apply RunFacts.Apply_calls in Ea as (evs & Ht & H).
  rewrite (ApplyFacts.calls_since_app w w' evs Ht).
  destruct H as [[Hl [e ->]]
                |(evs1 & evs2 & cands & -> & [Hs1 Hw1] & _ & [[-> Hk]|[Ha Hr]])].
  - destruct e; try done; cbn in Hl.
    + destruct Hl as (e1 & e2 & msg & -> & H1 & _ & H2 & _). cbn. by rewrite H1, H2.
    + destruct Hl as (e1 & e2 & e3 & -> & H1 & _ & H2 & _ & H3). cbn.
      by rewrite H1, H2, H3.
  - rewrite app_nil_r. by destruct Hk as [[x ->]|[(x & y & ->)|[x ->]]].
  - destruct r as [e|[]]; [destruct e; try done|]; by exists evs1, evs2.
Qed.

(** X10: when [Apply] returns nil, no call it made on the handle was
    answered with an error. *)
Theorem success_means_no_failed_call {RT : Runtime} {S : Type} {DBI : DB S}
    (seed1 seed2 : list nat) (migrations : list Migration) (w : world S) :
  (Sqlm.Apply seed1 seed2 migrations w).1 = Ok tt ->
  Forall Terms.went_through
    (Spec.calls_since w (Sqlm.Apply seed1 seed2 migrations w).2).
Proof.
  destruct (Sqlm.Apply seed1 seed2 migrations w) as [r w'] eqn:Ea. cbn [fst snd].
  intros ->.
  apply RunFacts.Apply_calls in Ea as (evs & Ht & H).
  rewrite (ApplyFacts.calls_since_app w w' evs Ht).
  destruct H as [[_ [e He]]
                |(evs1 & evs2 & cands & -> & [Hs1 Hw1] & _ & [[-> Hk]|[Ha Hr]])];
    [done| |by apply Forall_app].
  by destruct Hk as [[x ?]|[(x & y & ?)|[x ?]]].
Qed.

Lemma success_means_no_failed_call_witness :
  Forall Terms.went_through
    (Spec.calls_since (Examples.fresh true)
       (Sqlm.Apply (RT := Examples.runtime)
          (DBI := RefDB.handle (USQL := Examples.statements)) [] []
          [Examples.m "g" 1 ["CREATE TABLE a (id INT)"]] (Examples.fresh true)).2).
Proof.
  apply (success_means_no_failed_call (RT := Examples.runtime)
           (DBI := RefDB.handle (USQL := Examples.statements))).
  by vm_compute.
Defined.

(** X11: when [Apply] returns the error of a history row that could not
    be inserted, the failed insert is the last call on the handle: every
    call before it went through, and neither a statement of that migration
    nor an update follows. The error wraps the one of the handle. *)
Theorem failed_insert_is_last_call {RT : Runtime} {S : Type} {DBI : DB S}
    (seed1 seed2 : list nat) (migrations : list Migration) (w : world S)
    (cause : error) :
  (Sqlm.Apply seed1 seed2 migrations w).1 = Err (ErrInsertHistory cause) ->
  exists evs e msg m appliedAt,
    Spec.calls_since w (Sqlm.Apply seed1 seed2 migrations w).2 = evs ++ [e]
    /\ Forall Terms.went_through evs
    /\ m ∈ migrations
    /\ ev_site e = AtInsert
    /\ ev_args e = Sqlm.entry_args_insert (Spec.entry_executing m appliedAt)
    /\ ev_err e = Some msg
    /\ cause = ErrDriver msg.
Proof.
  destruct (Sqlm.Apply seed1 seed2 migrations w) as [r w'] eqn:Ea. cbn [fst snd].
  intros ->.
  apply RunFacts.Apply_calls in Ea as (evs & Ht & H).
  rewrite (ApplyFacts.calls_since_app w w' evs Ht).
  destruct H as [[Hl _]
                |(evs1 & evs2 & cands & -> & [Hs1 Hw1] & Hin & [[-> Hk]|[Ha Hr]])];
    [done|by destruct Hk as [[x ?]|[(x & y & ?)|[x ?]]]|].
  destruct Hr as (evs0 & e & msg & m & at_ & -> & Hw0 & Hm & ? & ? & ? & ?).
  exists (evs1 ++ evs0), e, msg, m, at_.
  split_and!; [by rewrite <- app_assoc|by apply Forall_app|by apply Hin|done..].
Qed.

Lemma failed_insert_is_last_call_witness :
  exists evs e msg m appliedAt,
    Spec.calls_since (World 0%nat 0%nat [])
      (Flaky.run 1 [Examples.m "g" 1 ["CREATE TABLE a (id INT)"]]).2 = evs ++ [e]
    /\ Forall Terms.went_through evs
    /\ m ∈ [Examples.m "g" 1 ["CREATE TABLE a (id INT)"]]
    /\ ev_site e = AtInsert
    /\ ev_args e = Sqlm.entry_args_insert (Spec.entry_executing m appliedAt)
    /\ ev_err e = Some msg
    /\ ErrDriver "connection lost" = ErrDriver msg.
Proof.
  apply (failed_insert_is_last_call (RT := Examples.runtime) (DBI := Flaky.handle 1)
           [] [] [Examples.m "g" 1 ["CREATE TABLE a (id INT)"]] (World 0%nat 0%nat [])
           (ErrDriver "connection lost")).
  by vm_compute.
Defined.

(** X12: when [Apply] returns the error of a history row that could not
    be updated, the failed update is the last call on the handle, every
    call before it went through, and the statements of that migration were
    the last ones executed: the migration ran, and its row keeps the state
    of the insert. *)
Theorem failed_update_is_last_call {RT : Runtime} {S : Type} {DBI : DB S}
    (seed1 seed2 : list nat) (migrations : list Migration) (w : world S)
    (cause : error) :
  (Sqlm.Apply seed1 seed2 migrations w).1 = Err (ErrUpdateHistory cause) ->
  exists evs e msg m appliedAt duration,
    Spec.calls_since w (Sqlm.Apply seed1 seed2 migrations w).2 = evs ++ [e]
    /\ Forall Terms.went_through evs
    /\ m ∈ migrations
    /\ Migration.Statements m `suffix_of` Spec.executed evs
    /\ ev_site e = AtUpdate
    /\ ev_args e = Sqlm.entry_args_update (Spec.entry_success m appliedAt duration)
    /\ ev_err e = Some msg
    /\ cause = ErrDriver msg.
Proof.
  destruct (Sqlm.Apply seed1 seed2 migrations w) as [r w'] eqn:Ea. cbn [fst snd].
  intros ->.
  apply RunFacts.Apply_calls in Ea as (evs & Ht & H).
  rewrite (ApplyFacts.calls_since_app w w' evs Ht).
  destruct H as [[Hl _]
                |(evs1 & evs2 & cands & -> & [Hs1 Hw1] & Hin & [[-> Hk]|[Ha Hr]])];
    [done|by destruct Hk as [[x ?]|[(x & y & ?)|[x ?]]]|].
  destruct Hr as (evs0 & e & msg & m & at_ & d & -> & Hw0 & Hm & Hsuf & ? & ? & ? & ?).
  exists (evs1 ++ evs0), e, msg, m, at_, d.
  split_and!; [by rewrite <- app_assoc|by apply Forall_app|by apply Hin| |done..].
  rewrite TraceFacts.executed_app. by apply suffix_app_r.
Qed.

Lemma failed_update_is_last_call_witness :
  exists evs e msg m appliedAt duration,
    Spec.calls_since (World 0%nat 0%nat [])
      (Flaky.run 4 [Examples.m "g" 1 ["CREATE TABLE a (id INT)"; "CREATE INDEX i ON a (id)"]]).2
    = evs ++ [e]
    /\ Forall Terms.went_through evs
    /\ m ∈ [Examples.m "g" 1 ["CREATE TABLE a (id INT)"; "CREATE INDEX i ON a (id)"]]
    /\ Migration.Statements m `suffix_of` Spec.executed evs
    /\ ev_site e = AtUpdate
    /\ ev_args e = Sqlm.entry_args_update (Spec.entry_success m appliedAt duration)
    /\ ev_err e = Some msg
    /\ ErrDriver "connection lost" = ErrDriver msg.
Proof.
  apply (failed_update_is_last_call (RT := Examples.runtime) (DBI := Flaky.handle 4)
           [] []
           [Examples.m "g" 1 ["CREATE TABLE a (id INT)"; "CREATE INDEX i ON a (id)"]]
           (World 0%nat 0%nat []) (ErrDriver "connection lost")).
  by vm_compute.
Defined.

(** ** What a successful run leaves in the history table *)

Module RecordFacts.

Import GoString Spec Sqlm RefDB ApplyFacts OrderFacts TraceFacts FailureFacts PlanFacts
       RefFacts IdempotenceFacts.

Section WithUser.
Context {RT : Runtime} {U : Type} {USQL : UserSQL U}.

(** The table after a run that returned nil: every row is a success row,
    and every migration supplied has a row with its checksum. *)
Lemma Apply_ref_rows seed1 seed2 migrations (w w1 : world (RefDB.t U)) :
  Apply (DBI := RefDB.handle) seed1 seed2 migrations w = (Ok tt, w1) ->
  exists T1,
    table (w_db w1) = Some T1
    /\ (forall k c, T1 !! k = Some c -> c_status c = Success)
    /\ (forall m, m ∈ migrations ->
          exists c, T1 !! migration_key m = Some c /\ c_checksum c = hash m).
Proof.
  intros H1. rewrite Apply_load, load_history_ref in H1.
  set (T0 := default ∅ (table (w_db w))) in *.
  set (db0 := RefDB.mk (postgres (w_db w)) (Some T0) (user (w_db w))) in *.
  destruct (check_dirty (history db0)) as [e|[]] eqn:Edirty; [done|].
  destruct (group_pending (history db0) migrations ∅) as [e|groups0] eqn:Egp; [done|].
  destruct (uniqueness_check (range_keys seed1 groups0) groups0)
    as [e|groups] eqn:Euc; [done|].
  rewrite apply_groups_plan in H1.
  eapply apply_candidates_ref in H1
    as (T1 & HT1 & Hpg1 & Hold & Hnew & Hok & _); [|reflexivity|reflexivity].
  specialize (Hok eq_refl).
  apply check_dirty_Ok in Edirty. rewrite Forall_forall in Edirty.
  exists T1. split_and!; [done| |].
  - intros k c Hk. destruct (T0 !! k) as [c0|] eqn:E0.
    + rewrite (Hold k c0 E0) in Hk. injection Hk as <-.
      apply (Edirty (entry_of k c0)). apply elem_of_history. by exists k, c0.
    + destruct (Hnew k c Hk E0) as [[? _]|(err & ? & _)]; done.
  - intros m Hm. destruct (is_pending (history db0) m) eqn:Ep.
    + destruct (Hok m) as (c & ? & _ & ?); [|by exists c].
      eapply elem_of_plan; [exact Egp|exact Euc|done].
    + pose proof (group_pending_no_drift _ _ _ _ m Egp Hm) as Ha.
      rewrite Ep in Ha.
      apply already_applied_true in Ha as (entry & Hin & Hkey & Hsum).
      apply elem_of_history in Hin as (k & c & Hk & ->).
      exists c. split; [|done]. rewrite <- Hkey. destruct k. by apply Hold.
Qed.

End WithUser.

End RecordFacts.

(** X13: on a database that keeps the history table as the engine expects
    (rows keyed by group and version), after [Apply] returned nil the
    function [History] reads back only success rows, among them one row
    for each migration supplied, with its group, its version and its
    checksum. *)
Theorem applied_migrations_recorded {RT : Runtime} {U : Type} {USQL : RefDB.UserSQL U}
    (seed1 seed2 : list nat) (migrations : list Migration) (w w1 : world (RefDB.t U)) :
  Sqlm.Apply (DBI := RefDB.handle) seed1 seed2 migrations w = (Ok tt, w1) ->
  exists entries,
    (Sqlm.History (DBI := RefDB.handle) w1).1 = Ok entries
    /\ Forall (fun e => HistoryEntry.Status e = Sqlm.Success) entries
    /\ forall m, m ∈ migrations ->
         exists e, e ∈ entries /\ Spec.entry_key e = Spec.migration_key m
                   /\ HistoryEntry.Checksum e = Sqlm.hash m.
Proof.
  intros H1.
  destruct (RecordFacts.Apply_ref_rows seed1 seed2 migrations w w1 H1)
    as (T1 & HT1 & Hclean & Hrows).
  exists (RefDB.history (w_db w1)).
  rewrite (RefFacts.History_ref w1 T1 HT1). split_and!; [done| |].
  - apply Forall_forall. intros e He.
    apply IdempotenceFacts.elem_of_history in He as (k & c & Hk & ->).
    rewrite HT1 in Hk. by apply (Hclean k c).
  - intros m Hm. destruct (Hrows m Hm) as (c & Hk & Hsum).
    exists (RefDB.entry_of (Spec.migration_key m) c). split_and!; [|done|done].
    apply IdempotenceFacts.elem_of_history. exists (Spec.migration_key m), c.
    by rewrite HT1.
Qed.

Lemma applied_migrations_recorded_witness :
  exists entries,
    (Sqlm.History (RT := Examples.runtime)
       (DBI := RefDB.handle (USQL := Examples.statements)) Examples.applied_world).1
    = Ok entries
    /\ Forall (fun e => HistoryEntry.Status e = Sqlm.Success) entries
    /\ forall m,
         m ∈ [Examples.m "g" 1 ["CREATE TABLE a (id INT)"];
              Examples.m "h" 1 ["CREATE TABLE b (id INT)"]] ->
         exists e, e ∈ entries /\ Spec.entry_key e = Spec.migration_key m
                   /\ HistoryEntry.Checksum e = Sqlm.hash m.
Proof.
  apply (applied_migrations_recorded (RT := Examples.runtime)
           (USQL := Examples.statements) [] []
           [Examples.m "g" 1 ["CREATE TABLE a (id INT)"];
            Examples.m "h" 1 ["CREATE TABLE b (id INT)"]]
           (Examples.fresh true) Examples.applied_world).
  by vm_compute.
Defined.

(** ** The rows of the version query *)

Module BannerFacts.

Import GoString Spec Sqlm.

Section WithRuntime.
Context {RT : Runtime}.

Lemma version_scan_last cells banner : forall str,
  Forall (fun row => exists s, row = [VString s]) cells ->
  version_scan (cells ++ [[VString banner]]) str = Ok banner.
Proof.
  induction cells as [|row cells IH]; intros str Hc.
  - cbn. by rewrite scan_string_same.
  - apply Forall_cons in Hc as [[s ->] Hc]. cbn [app version_scan].
    rewrite scan_string_same. by apply IH.
Qed.

Lemma version_of_empty : version_of EmptyString = Err (ErrUnknownBanner EmptyString).
Proof. reflexivity. Qed.

End WithRuntime.

End BannerFacts.

(** X14: [version] decides on the last row of the answer to the version
    query: with several rows of one string each, the result is that of
    the last banner; with no row at all, it is the error for an unknown
    database type, with an empty banner. *)
Theorem version_reads_last_row {RT : Runtime} {S : Type} {DBI : DB S}
    (w : world S) (db : S) (rows : Rows) :
  Query (w_db w) Sqlm.versionQuery [] = (db, Ok rows) ->
  (rows_cells rows = [] ->
   (Sqlm.version w).1 = Err (ErrUnknownBanner EmptyString))
  /\ (forall cells banner,
        rows_cells rows = cells ++ [[VString banner]] ->
        Forall (fun row => exists s, row = [VString s]) cells ->
        (Sqlm.version w).1 = Sqlm.version_of banner).
Proof.
  intros Hq. split.
  - intros Hrows. unfold Sqlm.version, bind, wrap, lift, Sqlm.call_Query.
    rewrite Hq, Hrows. cbn [Sqlm.version_scan]. cbn [fst].
    apply BannerFacts.version_of_empty.
  - intros cells banner Hrows Hcells.
    unfold Sqlm.version, bind, wrap, lift, Sqlm.call_Query. rewrite Hq, Hrows.
    by rewrite BannerFacts.version_scan_last.
Qed.

Lemma version_reads_last_row_witness :
  (rows_cells (mkRows [[VString "8.0.19 MySQL"]; [VString "PostgreSQL 12.2"]] None) = [] ->
   (Sqlm.version (RT := Examples.runtime) (DBI := Banners.handle)
      (World ["8.0.19 MySQL"%string; "PostgreSQL 12.2"%string] 0 [])).1
   = Err (ErrUnknownBanner EmptyString))
  /\ (forall cells banner,
        rows_cells (mkRows [[VString "8.0.19 MySQL"]; [VString "PostgreSQL 12.2"]] None)
        = cells ++ [[VString banner]] ->
        Forall (fun row => exists s, row = [VString s]) cells ->
        (Sqlm.version (RT := Examples.runtime) (DBI := Banners.handle)
           (World ["8.0.19 MySQL"%string; "PostgreSQL 12.2"%string] 0 [])).1
        = Sqlm.version_of (RT := Examples.runtime) banner).
Proof.
  apply (version_reads_last_row (RT := Examples.runtime) (DBI := Banners.handle)
           (World ["8.0.19 MySQL"%string; "PostgreSQL 12.2"%string] 0 [])
           ["8.0.19 MySQL"%string; "PostgreSQL 12.2"%string]).
  reflexivity.
Defined.

(** The last of two banners decides. *)
Example version_of_two_rows :
  (Sqlm.version (RT := Examples.runtime) (DBI := Banners.handle)
     (World ["8.0.19 MySQL"%string; "PostgreSQL 12.2"%string] 0 [])).1
  = Ok Sqlm.PostgreSQL
  /\ (Sqlm.version (RT := Examples.runtime) (DBI := Banners.handle) (World [] 0 [])).1
     = Err (ErrUnknownBanner EmptyString).
Proof. by vm_compute. Qed.

(** ** The writer *)

Module WriterFacts.

Import GoString GoStringFacts Writer.

Lemma int_id x : - 2 ^ 63 <= x < 2 ^ 63 -> int x = x.
Proof. intros H. unfold int. rewrite Z.mod_small by lia. lia. Qed.

Lemma int_range x : - 2 ^ 63 <= int x < 2 ^ 63.
Proof. unfold int. pose proof (Z.mod_pos_bound (x + 2 ^ 63) (2 ^ 64)). lia. Qed.

Lemma int_add_cancel x i : - 2 ^ 63 <= x < 2 ^ 63 -> int (int (x + i) - i) = x.
Proof.
  intros H. unfold int.
  replace ((x + i + 2 ^ 63) mod 2 ^ 64 - 2 ^ 63 - i + 2 ^ 63)
    with ((x + i + 2 ^ 63) mod 2 ^ 64 - i) by lia.
  rewrite Zminus_mod_idemp_l.
  replace (x + i + 2 ^ 63 - i) with (x + 2 ^ 63) by lia.
  rewrite Z.mod_small by lia. lia.
Qed.

Lemma spaces_succ n : 0 <= n -> spaces (n + 1) = (spaces n ++ " ")%string.
Proof.
  intros Hn. unfold spaces. rewrite Z2Nat.inj_add by lia.
  rewrite replicate_add, of_bytes_app. done.
Qed.

Lemma spaces_app_comm n : 0 <= n -> (" " ++ spaces n)%string = (spaces n ++ " ")%string.
Proof.
  intros Hn. unfold spaces. generalize (Z.to_nat n). intros k.
  change " "%string with (of_bytes [32]). rewrite <- !of_bytes_app. f_equal.
  induction k as [|k IH]; [done|].
  cbn in *. f_equal. exact IH.
Qed.

(** The loop writes the spaces that are missing. *)
Lemma write_spaces_spec fuel : forall i indent sb,
  0 <= i -> indent < 2 ^ 63 -> (Z.to_nat (indent - i) <= fuel)%nat ->
  write_spaces fuel i indent sb = (sb ++ spaces (indent - i))%string.
Proof.
  induction fuel as [|fuel IH]; intros i indent sb Hi Hr Hfuel.
  - cbn [write_spaces]. unfold spaces.
    replace (Z.to_nat (indent - i)) with 0%nat by lia.
    cbn. by rewrite string_app_nil_r.
  - cbn [write_spaces]. destruct (i <? indent) eqn:Hlt.
    + apply Z.ltb_lt in Hlt. rewrite int_id by lia.
      rewrite IH by lia. rewrite string_app_assoc. f_equal.
      replace (indent - i) with ((indent - (i + 1)) + 1) by lia.
      rewrite spaces_succ by lia. rewrite spaces_app_comm by lia. done.
    + apply Z.ltb_ge in Hlt. unfold spaces.
      replace (Z.to_nat (indent - i)) with 0%nat by lia.
      cbn. by rewrite string_app_nil_r.
Qed.

Lemma HasSuffix_app s suffix : HasSuffix (s ++ suffix) suffix = true.
Proof.
  unfold HasSuffix. apply andb_true_iff. split.
  - apply Nat.leb_le. rewrite <- !length_bytes, bytes_app, length_app. lia.
  - apply String.eqb_eq.
    replace (String.length (s ++ suffix) - String.length suffix)%nat
      with (String.length s).
    2:{ rewrite <- !length_bytes, bytes_app, length_app. lia. }
    induction s as [|c s IH]; cbn [String.length substring].
    + rewrite string_app_nil_l. clear. induction suffix as [|c s IH]; [done|].
      cbn. by rewrite IH.
    + rewrite string_app_cons. exact IH.
Qed.

Section WithFmt.
Context {A : Type} {F : Fmt A}.

Lemma Printf_spec w str args :
  in_range w ->
  Printf w str args
  = mk ((if newLine w then sb w ++ spaces (indent w) else sb w) ++ fmt_Sprintf str args)
       (indent w) (HasSuffix str nl).
Proof.
  intros [Hlo Hhi]. unfold Printf. f_equal.
  destruct (newLine w); [|done]. f_equal.
  rewrite write_spaces_spec by lia. by rewrite Z.sub_0_r.
Qed.

(** Lines written one after the other, at one indentation. *)
Lemma print_all_lines calls : forall w,
  in_range w -> newLine w = true ->
  Forall (fun c => HasSuffix c.1 nl = true) calls ->
  print_all w calls
  = mk (sb w ++ fold_right (fun c acc => (spaces (indent w) ++ fmt_Sprintf c.1 c.2 ++ acc)%string)
                           EmptyString calls)
       (indent w) true.
Proof.
  induction calls as [|c calls IH]; intros w Hr Hnl Hc.
  - cbn. rewrite string_app_nil_r. destruct w. cbn in *. by subst.
  - apply Forall_cons in Hc as [Hc1 Hc].
    cbn [print_all fold_left fold_right]. fold (print_all (Printf w c.1 c.2) calls).
    rewrite Printf_spec by done. rewrite Hnl, Hc1.
    rewrite IH; [|done|done|done]. cbn [sb indent]. f_equal.
    by rewrite !string_app_assoc.
Qed.

End WithFmt.

End WriterFacts.

(** X15: shifts of the writer that balance cancel, also where the
    indentation wraps around the range of [int]: [ShiftLeft] after
    [ShiftRight], and [ShiftRight] after [ShiftLeft], give the writer back;
    [Indent] by [i] and then by [-i] does too. The indentation of a new
    writer stays a value of type [int] under every [Indent]. *)
Theorem balanced_shifts_cancel (w : Writer.writer) (i : Z) :
  Writer.in_range w ->
  Writer.ShiftLeft (Writer.ShiftRight w) = w
  /\ Writer.ShiftRight (Writer.ShiftLeft w) = w
  /\ Writer.Indent (Writer.Indent w i) (- i) = w
  /\ Writer.in_range (Writer.Indent w i).
Proof.
  intros Hr. unfold Writer.in_range in Hr.
  unfold Writer.ShiftLeft, Writer.ShiftRight, Writer.Indent. cbn [Writer.indent Writer.sb Writer.newLine].
  destruct w as [sb n nl]. cbn [Writer.indent Writer.sb Writer.newLine] in *.
  split_and!.
  - f_equal. apply (WriterFacts.int_add_cancel n 2 Hr).
  - f_equal. pose proof (WriterFacts.int_add_cancel n (-2) Hr) as H.
    by replace (Writer.int (n + -2) - -2) with (Writer.int (n + -2) + 2) in H by lia.
  - f_equal. pose proof (WriterFacts.int_add_cancel n i Hr) as H.
    by replace (Writer.int (n + i) - i) with (Writer.int (n + i) + - i) in H by lia.
  - unfold Writer.in_range. cbn [Writer.indent]. apply WriterFacts.int_range.
Qed.

Lemma balanced_shifts_cancel_witness :
  Writer.ShiftLeft (Writer.ShiftRight Writer.newWriter) = Writer.newWriter
  /\ Writer.ShiftRight (Writer.ShiftLeft Writer.newWriter) = Writer.newWriter
  /\ Writer.Indent (Writer.Indent Writer.newWriter 7) (- 7) = Writer.newWriter
  /\ Writer.in_range (Writer.Indent Writer.newWriter 7).
Proof.
  apply (balanced_shifts_cancel Writer.newWriter 7).
  unfold Writer.in_range. cbn. lia.
Defined.

(** X16: [Printf] indents at the start of a line only, and never the
    first text of a new writer: after [Indent n] on a new writer and calls
    of [Printf] whose formats all end with a line feed, the content is the
    first formatted text, followed by each later one behind exactly [n]
    spaces (none when [n] is not positive); a line feed inside a formatted
    text does not indent what follows it. *)
Theorem printf_indents_line_starts {A : Type} {F : Fmt A}
    (n : Z) (str : string) (args : list A) (calls : list (string * list A)) :
  - 2 ^ 63 <= n < 2 ^ 63 ->
  Writer.HasSuffix str GoString.nl = true ->
  Forall (fun c => Writer.HasSuffix c.1 GoString.nl = true) calls ->
  Writer.String
    (Writer.print_all (Writer.Printf (Writer.Indent Writer.newWriter n) str args) calls)
  = (fmt_Sprintf str args
     ++ fold_right (fun c acc => (Writer.spaces n ++ fmt_Sprintf c.1 c.2 ++ acc)%string)
                   EmptyString calls)%string.
Proof.
  intros Hn Hstr Hcalls.
  assert (Hr : Writer.in_range (Writer.Indent Writer.newWriter n)).
  { unfold Writer.in_range. cbn. rewrite WriterFacts.int_id; lia. }
  rewrite WriterFacts.Printf_spec by done.
  cbn [Writer.newLine Writer.Indent Writer.newWriter Writer.sb Writer.indent].
  rewrite Hstr, Z.add_0_l, WriterFacts.int_id by lia.
  rewrite WriterFacts.print_all_lines; [|unfold Writer.in_range; cbn; lia|done|done].
  unfold Writer.String. cbn [Writer.sb Writer.indent].
  by rewrite GoStringFacts.string_app_nil_l.
Qed.

Lemma printf_indents_line_starts_witness :
  Writer.String
    (Writer.print_all (F := fun str (_ : list unit) => str)
       (Writer.Printf (F := fun str (_ : list unit) => str)
          (Writer.Indent Writer.newWriter 2) ("CREATE TABLE t (" ++ GoString.nl) [])
       [(("a INT," ++ GoString.nl ++ "b INT" ++ GoString.nl)%string, []);
        ((")" ++ GoString.nl)%string, [])])
  = (("CREATE TABLE t (" ++ GoString.nl)
     ++ fold_right (fun c acc => (Writer.spaces 2 ++ c.1 ++ acc)%string) EmptyString
          [(("a INT," ++ GoString.nl ++ "b INT" ++ GoString.nl)%string, @nil unit);
           ((")" ++ GoString.nl)%string, [])])%string.
Proof.
  apply (printf_indents_line_starts (F := fun str (_ : list unit) => str) 2
           ("CREATE TABLE t (" ++ GoString.nl) []
           [(("a INT," ++ GoString.nl ++ "b INT" ++ GoString.nl)%string, []);
            ((")" ++ GoString.nl)%string, [])]).
  - lia.
  - by vm_compute.
  - repeat constructor.
Defined.

(** ** The migrations read from files *)

Module ScanFacts.

Import GoString GoStringFacts Strconv Parse Spec Shape ShapeFacts VersionFacts Scan Loaded.

Section WithFiles.
Context {RT : Runtime} {FS : FileSystem} {P : Type} {PK : Package P}.

Lemma parseStatements_Ok fname stmts :
  parseStatements fname = Ok stmts ->
  exists text, ioutil_ReadFile fname = Ok text
               /\ parseStatementsFromString text = Ok stmts.
Proof.
  unfold parseStatements. destruct (ioutil_ReadFile fname) as [e|text]; [done|].
  destruct (parseStatementsFromString text) as [e|l] eqn:Ep; [done|].
  intros [= <-]. by exists text.
Qed.

Lemma parse_files_Done p schemaDir files : forall found out ms out',
  parse_files p schemaDir files found out = (Done ms, out') ->
  exists new,
    ms = found ++ new
    /\ Forall (from_file p) new
    /\ Forall2 (read_from schemaDir)
               (sql_files files) new.
Proof.
  induction files as [|name files IH]; intros found out ms out'.
  - cbn [parse_files]. intros [= <- <-]. exists []. rewrite app_nil_r.
    split_and!; [done|constructor|constructor].
  - cbn [parse_files]. destruct (Writer.HasSuffix name ".sql") eqn:Hsuf.
    2:{ intros H. apply IH in H as (new & -> & Hw & Hr). exists new.
        split_and!; [done|done|]. unfold sql_files. by rewrite filter_cons_False by (by rewrite Hsuf). }
    destruct (extractVersion name) as [version|v] eqn:Ev; [|done].
    destruct (version =? -1) eqn:Hv; [done|]. apply Z.eqb_neq in Hv.
    destruct (parseStatements (filepath_Join schemaDir name)) as [e|stmts] eqn:Es; [done|].
    destruct (length stmts =? 0)%nat eqn:Hlen; [done|]. apply Nat.eqb_neq in Hlen.
    intros H. apply IH in H as (new & -> & Hw & Hr).
    apply parseStatements_Ok in Es as (text & Hread & Hparse).
    apply extractVersion_Returns in Ev as [[-> _]|(Hrange & Hne & Hdec)]; [done|].
    rewrite digit_runes_bytes in Hne, Hdec.
    exists (Migration.mk (pkg_Group p) version stmts name :: new).
    split_and!.
    + by rewrite <- app_assoc.
    + constructor; [|done]. unfold from_file. cbn.
      split_and!; [done|done|done|done|lia|lia| |by eapply parse_shape].
      intros ->. done.
    + unfold sql_files. rewrite filter_cons_True by done. constructor; [|done].
      split; [done|]. by exists text.
Qed.

Lemma parse_packages_Done dir pkgs : forall res_ out dialects out',
  parse_packages dir pkgs res_ out = (Done dialects, out') ->
  exists new,
    dialects = res_ ++ new
    /\ map pkg new = pkgs
    /\ Forall (fun d => Forall (from_file (pkg d)) (migrations d)) new
    /\ Forall (fun d =>
         exists files,
           ioutil_ReadDir (filepath_Join dir (pkg_Schema (pkg d))) = Ok files
           /\ Forall2 (read_from (filepath_Join dir (pkg_Schema (pkg d))))
                      (sql_files files) (migrations d)) new.
Proof.
  induction pkgs as [|p pkgs IH]; intros res_ out dialects out'.
  - cbn [parse_packages]. intros [= <- <-]. exists []. rewrite app_nil_r.
    split_and!; [done|done|constructor|constructor].
  - cbn [parse_packages].
    destruct (ioutil_ReadDir (filepath_Join dir (pkg_Schema p))) as [e|files] eqn:Ed;
      [done|].
    destruct (parse_files p _ files [] _) as [[found|e|v] out1] eqn:Ef; [|done|done].
    apply parse_files_Done in Ef as (new & -> & Hw & Hr). rewrite app_nil_l.
    intros H. apply IH in H as (rest & -> & Hp & Hws & Hrs).
    exists (Dialect p new :: rest). split_and!.
    + by rewrite <- app_assoc.
    + cbn. by rewrite Hp.
    + by constructor.
    + constructor; [|done]. by exists files.
Qed.

(** The errors and the panics of the loop over the files. *)
Lemma parse_files_blames p schemaDir files : forall found out r out',
  parse_files p schemaDir files found out = (r, out') ->
  match r with
  | Done _ => True
  | Failed e => exists name, name ∈ sql_files files /\ blames schemaDir name (inl e)
  | Panicked v => exists name, name ∈ sql_files files /\ blames schemaDir name (inr v)
  end.
Proof.
  induction files as [|name files IH]; intros found out r out'.
  { cbn [parse_files]. by intros [= <- <-]. }
  cbn [parse_files]. unfold sql_files. destruct (Writer.HasSuffix name ".sql") eqn:Hsuf.
  2:{ intros H. apply IH in H. rewrite filter_cons_False by (by rewrite Hsuf). exact H. }
  rewrite filter_cons_True by done.
  assert (Hlater : forall r : ending (list Migration),
            match r with
            | Done _ => True
            | Failed e => exists n, n ∈ sql_files files /\ blames schemaDir n (inl e)
            | Panicked v => exists n, n ∈ sql_files files /\ blames schemaDir n (inr v)
            end ->
            match r with
            | Done _ => True
            | Failed e =>
                exists n, n ∈ name :: sql_files files /\ blames schemaDir n (inl e)
            | Panicked v =>
                exists n, n ∈ name :: sql_files files /\ blames schemaDir n (inr v)
            end).
  { intros [ms|e|v]; [done| |]; intros (n & Hin & Hb); exists n; (split; [by right|done]). }
  destruct (extractVersion name) as [version|v] eqn:Ev.
  2:{ intros [= <- <-]. exists name. split; [by left|]. cbn.
      rewrite extractVersion_cases, digit_runes_bytes in Ev.
      destruct (filter is_digit (bytes name)) as [|d ds]; [done|].
      cbv beta iota zeta in Ev.
      destruct (decimal (d :: ds) <=? maxInt64) eqn:Hle; [done|].
      injection Ev as <-. apply Z.leb_gt in Hle. done. }
  destruct (version =? -1) eqn:Hv.
  { intros [= <- <-]. apply Z.eqb_eq in Hv as ->. exists name.
    split; [by left|]. cbn. split; [done|].
    apply extractVersion_Returns in Ev as [[_ Hnil]|(Hrange & _)]; [|lia].
    rewrite digit_runes_bytes in Hnil. apply Forall_forall. intros b Hb Hd.
    assert (Hin : b ∈ filter is_digit (bytes name)) by (by apply list_elem_of_filter).
    rewrite Hnil in Hin. by apply elem_of_nil in Hin. }
  destruct (parseStatements (filepath_Join schemaDir name)) as [e'|stmts] eqn:Es.
  { intros [= <- <-]. exists name. split; [by left|].
    unfold parseStatements in Es.
    destruct (ioutil_ReadFile (filepath_Join schemaDir name)) as [msg|text] eqn:Er.
    - injection Es as <-. exact Er.
    - destruct (parseStatementsFromString text) as [cause|l] eqn:Ep; [|done].
      injection Es as <-. cbn. split; [done|]. by exists text. }
  destruct (length stmts =? 0)%nat eqn:Hlen.
  { intros [= <- <-]. exists name. split; [by left|]. cbn. split; [done|].
    apply parseStatements_Ok in Es as (text & Hread & Hparse).
    exists text. split; [done|]. apply Nat.eqb_eq in Hlen. by destruct stmts. }
  intros H. apply IH in H. by apply Hlater.
Qed.

Lemma parse_packages_blames dir pkgs : forall res_ out r out',
  parse_packages dir pkgs res_ out = (r, out') ->
  match r with
  | Done _ => True
  | Failed (ErrReadDir msg) =>
      exists p, p ∈ pkgs /\ ioutil_ReadDir (filepath_Join dir (pkg_Schema p)) = Err msg
  | Failed e =>
      exists p files name,
        p ∈ pkgs /\ ioutil_ReadDir (filepath_Join dir (pkg_Schema p)) = Ok files
        /\ name ∈ sql_files files
        /\ blames (filepath_Join dir (pkg_Schema p)) name (inl e)
  | Panicked v =>
      exists p files name,
        p ∈ pkgs /\ ioutil_ReadDir (filepath_Join dir (pkg_Schema p)) = Ok files
        /\ name ∈ sql_files files
        /\ blames (filepath_Join dir (pkg_Schema p)) name (inr v)
  end.
Proof.
  induction pkgs as [|p pkgs IH]; intros res_ out r out'.
  { cbn [parse_packages]. by intros [= <- <-]. }
  cbn [parse_packages].
  destruct (ioutil_ReadDir (filepath_Join dir (pkg_Schema p))) as [msg|files] eqn:Ed.
  { intros [= <- <-]. exists p. split; [by left|done]. }
  destruct (parse_files p _ files [] _) as [[found|e|v] out1] eqn:Ef.
  - intros H. apply IH in H. destruct r as [ds|e|v]; [done| |].
    + destruct e; try (destruct H as (p' & fs & n & Hin & Hrest); exists p', fs, n;
                       split; [by right|done]).
      destruct H as (p' & Hin & Hrest). exists p'. split; [by right|done].
    + destruct H as (p' & fs & n & Hin & Hrest). exists p', fs, n. split; [by right|done].
  - intros [= <- <-]. apply parse_files_blames in Ef as (name & Hin & Hb).
    destruct e; try (exists p, files, name; split_and!; [by left|done|done|done]).
    done.
  - intros [= <- <-]. apply parse_files_blames in Ef as (name & Hin & Hb).
    exists p, files, name. split_and!; [by left|done|done|done].
Qed.

End WithFiles.

End ScanFacts.

(** X17: every migration [parseMigrations] returns is fit for [Apply]:
    its group is that of its package, its script name ends in [.sql], its
    version is the number written by the ASCII digits of that name and lies
    between 0 and 2^63-1, and its statements are at least one, each in
    normal form. The dialects returned are those of the packages of the
    configuration, in their order. *)
Theorem loaded_migrations_well_formed {RT : Runtime} {FS : FileSystem}
    {P : Type} {PK : Package P}
    (cfg : Scan.migrationGroup P) (out out' : string) (dialects : list (Scan.dialect P)) :
  Scan.parseMigrations cfg out = (Scan.Done dialects, out') ->
  map Scan.pkg dialects = Scan.Packages cfg
  /\ Forall (fun d => Forall (Loaded.from_file (Scan.pkg d)) (Scan.migrations d)) dialects.
Proof.
  unfold Scan.parseMigrations. intros H.
  apply ScanFacts.parse_packages_Done in H as (new & -> & Hp & Hw & _).
  by rewrite app_nil_l.
Qed.

Lemma loaded_migrations_well_formed_witness :
  map Scan.pkg
    [Scan.Dialect ("pg"%string, "shop"%string)
       [Migration.mk "shop" 1 ["CREATE TABLE a (id INT)"] "001_init.sql";
        Migration.mk "shop" 2 ["CREATE TABLE u (id INT)"; "CREATE INDEX i ON u (id)"]
          "002_users.sql"]]
  = Scan.Packages Loaded.group
  /\ Forall (fun d => Forall (Loaded.from_file (PK := Loaded.package) (Scan.pkg d))
                             (Scan.migrations d))
       [Scan.Dialect ("pg"%string, "shop"%string)
          [Migration.mk "shop" 1 ["CREATE TABLE a (id INT)"] "001_init.sql";
           Migration.mk "shop" 2 ["CREATE TABLE u (id INT)"; "CREATE INDEX i ON u (id)"]
             "002_users.sql"]].
Proof.
  eapply (loaded_migrations_well_formed (RT := Examples.runtime) (FS := Loaded.files)
            (PK := Loaded.package) Loaded.group EmptyString).
  by vm_compute.
Defined.

(** X18: when [parseMigrations] returns dialects, no [.sql] file was
    passed over: the migrations of each dialect are those of the files of
    its schema directory whose names end in [.sql], one for each file and
    in the order of the listing, each with the name of its file and the
    statements of its text; the other files of the directory are left
    out. *)
Theorem every_sql_file_loaded {RT : Runtime} {FS : FileSystem}
    {P : Type} {PK : Package P}
    (cfg : Scan.migrationGroup P) (out out' : string) (dialects : list (Scan.dialect P)) :
  Scan.parseMigrations cfg out = (Scan.Done dialects, out') ->
  Forall (fun d =>
    exists files,
      ioutil_ReadDir (filepath_Join (filepath_Dir (Scan.file cfg))
                                    (pkg_Schema (Scan.pkg d))) = Ok files
      /\ Forall2 (Loaded.read_from (filepath_Join (filepath_Dir (Scan.file cfg))
                                                  (pkg_Schema (Scan.pkg d))))
                 (Loaded.sql_files files) (Scan.migrations d)) dialects.
Proof.
  unfold Scan.parseMigrations. intros H.
  apply ScanFacts.parse_packages_Done in H as (new & -> & _ & _ & Hr).
  by rewrite app_nil_l.
Qed.

Lemma every_sql_file_loaded_witness :
  Forall (fun d =>
    exists files,
      ioutil_ReadDir (FileSystem := Loaded.files)
        (filepath_Join (FileSystem := Loaded.files)
           (filepath_Dir (FileSystem := Loaded.files) (Scan.file Loaded.group))
           (pkg_Schema (Package := Loaded.package) (Scan.pkg d))) = Ok files
      /\ Forall2 (Loaded.read_from (RT := Examples.runtime) (FS := Loaded.files)
                    (filepath_Join (FileSystem := Loaded.files)
                       (filepath_Dir (FileSystem := Loaded.files) (Scan.file Loaded.group))
                       (pkg_Schema (Package := Loaded.package) (Scan.pkg d))))
                 (Loaded.sql_files files) (Scan.migrations d))
    [Scan.Dialect ("pg"%string, "shop"%string)
       [Migration.mk "shop" 1 ["CREATE TABLE a (id INT)"] "001_init.sql";
        Migration.mk "shop" 2 ["CREATE TABLE u (id INT)"; "CREATE INDEX i ON u (id)"]
          "002_users.sql"]].
Proof.
  eapply (every_sql_file_loaded (RT := Examples.runtime) (FS := Loaded.files)
            (PK := Loaded.package) Loaded.group EmptyString).
  by vm_compute.
Defined.

(** X19: an error or a panic of [parseMigrations] is owed to a directory
    or to a file it read. The error of a directory is that of
    [ioutil.ReadDir] on the schema directory of a package. Every other
    error, and a panic, blames a file of such a directory whose name ends
    in [.sql]: a name without an ASCII digit (invalid name), a text that
    cannot be read or has a statement that is not terminated, a text
    without statements, or (the panic) digits whose number exceeds
    2^63-1. *)
Theorem load_failures_blame_a_file {RT : Runtime} {FS : FileSystem}
    {P : Type} {PK : Package P} (cfg : Scan.migrationGroup P) (out : string) :
  match (Scan.parseMigrations cfg out).1 with
  | Scan.Done _ => True
  | Scan.Failed (Scan.ErrReadDir msg) =>
      exists p,
        p ∈ Scan.Packages cfg
        /\ ioutil_ReadDir (filepath_Join (filepath_Dir (Scan.file cfg)) (pkg_Schema p))
           = Err msg
  | Scan.Failed e =>
      exists p files name,
        p ∈ Scan.Packages cfg
        /\ ioutil_ReadDir (filepath_Join (filepath_Dir (Scan.file cfg)) (pkg_Schema p))
           = Ok files
        /\ name ∈ Loaded.sql_files files
        /\ Loaded.blames (filepath_Join (filepath_Dir (Scan.file cfg)) (pkg_Schema p))
                         name (inl e)
  | Scan.Panicked v =>
      exists p files name,
        p ∈ Scan.Packages cfg
        /\ ioutil_ReadDir (filepath_Join (filepath_Dir (Scan.file cfg)) (pkg_Schema p))
           = Ok files
        /\ name ∈ Loaded.sql_files files
        /\ Loaded.blames (filepath_Join (filepath_Dir (Scan.file cfg)) (pkg_Schema p))
                         name (inr v)
  end.
Proof.
  unfold Scan.parseMigrations.
  destruct (Scan.parse_packages _ _ _ _) as [r out'] eqn:E. cbn [fst].
  by apply ScanFacts.parse_packages_blames in E.
Qed.

(** A file named without a digit stops the loading, after the file before
    it was read. *)
Example file_without_digit :
  Scan.parseMigrations (RT := Examples.runtime) (FS := Loaded.files_bad)
    (PK := Loaded.package) Loaded.group EmptyString
  = (Scan.Failed (Scan.ErrInvalidName "init.sql"),
     ("reading schema dir db/pg" ++ GoString.nl ++ "migration 001_init.sql" ++ GoString.nl
      ++ "   1 statements" ++ GoString.nl)%string).
Proof. by vm_compute. Qed.

(** ** [MustMigrate] *)

Module SimFacts.

Import GoString Spec Sqlm Sim.

Section WithHandles.
Context {RT : Runtime} {S1 S2 : Type} {D1 : DB S1} {D2 : DB S2} (R : S1 -> S2 -> Prop).
Hypothesis Halike : alike R.

Lemma runs_ret {E A} (a : A) : runs R (E := E) (ret a) (ret a).
Proof. by intros w1 w2 Hw. Qed.

Lemma runs_lift {E A} (r : res E A) : runs R (lift r) (lift r).
Proof. by intros w1 w2 Hw. Qed.

Lemma runs_bind {E A B} (m1 : M S1 E A) (m2 : M S2 E A) (k1 : A -> M S1 E B)
    (k2 : A -> M S2 E B) :
  runs R m1 m2 -> (forall a, runs R (k1 a) (k2 a)) -> runs R (bind m1 k1) (bind m2 k2).
Proof.
  intros Hm Hk w1 w2 Hw. unfold bind. destruct (Hm w1 w2 Hw) as [Hr Hw'].
  destruct (m1 w1) as [[e|a] w1'], (m2 w2) as [[e'|a'] w2']; cbn in *;
    try discriminate; simplify_eq; [done|]. by apply Hk.
Qed.

Lemma runs_wrap {E E' A} (f : E -> E') (m1 : M S1 E A) (m2 : M S2 E A) :
  runs R m1 m2 -> runs R (wrap f m1) (wrap f m2).
Proof.
  intros Hm w1 w2 Hw. unfold wrap. destruct (Hm w1 w2 Hw) as [Hr Hw'].
  destruct (m1 w1) as [[e|a] w1'], (m2 w2) as [[e'|a'] w2']; cbn in *;
    try discriminate; by simplify_eq.
Qed.

Lemma runs_call_Exec at_ q args : runs R (call_Exec at_ q args) (call_Exec at_ q args).
Proof.
  intros w1 w2 (Hdb & Hc & Ht). unfold call_Exec.
  destruct Halike as [He _]. destruct (He _ _ q args Hdb) as [Hdb' Hr].
  destruct (Exec (w_db w1) q args) as [db1 r1], (Exec (w_db w2) q args) as [db2 r2].
  cbn in *. subst r2. rewrite Hc, Ht.
  destruct r1; (split; [done|]); by split_and!.
Qed.

Lemma runs_call_Query at_ q args : runs R (call_Query at_ q args) (call_Query at_ q args).
Proof.
  intros w1 w2 (Hdb & Hc & Ht). unfold call_Query.
  destruct Halike as [_ Hq]. destruct (Hq _ _ q args Hdb) as [Hdb' Hr].
  destruct (Query (w_db w1) q args) as [db1 r1], (Query (w_db w2) q args) as [db2 r2].
  cbn in *. subst r2. rewrite Hc, Ht. split; [done|]. by split_and!.
Qed.

Lemma runs_time_now {E} : runs R (E := E) time_now time_now.
Proof.
  intros w1 w2 (Hdb & Hc & Ht). unfold time_now. cbn. rewrite Hc.
  split; [done|]. by split_and!.
Qed.

Lemma runs_version : runs R version version.
Proof.
  unfold version. apply runs_bind; [apply runs_wrap, runs_call_Query|].
  intros rows. apply runs_bind; [apply runs_wrap, runs_lift|].
  intros str. apply runs_lift.
Qed.

Lemma runs_CreateTable : runs R CreateTable CreateTable.
Proof. apply runs_wrap, runs_call_Exec. Qed.

Lemma runs_History : runs R History History.
Proof.
  unfold History. apply runs_bind; [apply runs_wrap, runs_call_Query|].
  intros rows. apply runs_bind; [apply runs_lift|].
  intros res_. destruct (rows_Err rows); [apply runs_lift|apply runs_ret].
Qed.

Lemma runs_insert dbtype entry : runs R (insert dbtype entry) (insert dbtype entry).
Proof. apply runs_wrap, runs_call_Exec. Qed.

Lemma runs_update dbtype entry : runs R (update dbtype entry) (update dbtype entry).
Proof. apply runs_wrap, runs_call_Exec. Qed.

Lemma runs_execute_stmts stmts : runs R (execute_stmts stmts) (execute_stmts stmts).
Proof.
  induction stmts as [|stmt stmts IH]; [apply runs_ret|].
  cbn [execute_stmts]. apply runs_bind; [apply runs_wrap, runs_call_Exec|].
  by intros _.
Qed.

Lemma runs_apply_migration dbType m :
  runs R (apply_migration dbType m) (apply_migration dbType m).
Proof.
  unfold apply_migration.
  apply runs_bind; [apply runs_time_now|]. intros appliedAt.
  apply runs_bind; [apply runs_time_now|]. intros start.
  apply runs_bind; [apply runs_wrap, runs_insert|]. intros _.
  intros w1 w2 Hw. unfold execute.
  destruct (runs_execute_stmts (Migration.Statements m) w1 w2 Hw) as [Hr Hw'].
  destruct (execute_stmts (Migration.Statements m) w1) as [[e|a] w1'],
           (execute_stmts (Migration.Statements m) w2) as [[e'|a'] w2']; cbn in Hr, Hw';
    try discriminate; simplify_eq.
  - match goal with |- context [update dbType ?e w1'] =>
      destruct (runs_update dbType e w1' w2' Hw') as [_ Hw''];
      destruct (update dbType e w1') as [r1 w1''], (update dbType e w2') as [r2 w2'']
    end. done.
  - apply (runs_bind time_now time_now); [apply runs_time_now| |done].
    intros finished. apply runs_wrap, runs_update.
Qed.

Lemma runs_apply_candidates dbType candidates :
  runs R (apply_candidates dbType candidates) (apply_candidates dbType candidates).
Proof.
  induction candidates as [|m candidates IH]; [apply runs_ret|].
  cbn [apply_candidates]. apply runs_bind; [apply runs_apply_migration|]. by intros _.
Qed.

Lemma runs_apply_groups dbType keys groups :
  runs R (apply_groups dbType keys groups) (apply_groups dbType keys groups).
Proof.
  induction keys as [|k keys IH]; [apply runs_ret|].
  cbn [apply_groups]. apply runs_bind; [apply runs_apply_candidates|]. by intros _.
Qed.

(** [Apply] sees its database through the answers of the handle only. *)
Lemma runs_Apply seed1 seed2 migrations :
  runs R (Apply seed1 seed2 migrations) (Apply seed1 seed2 migrations).
Proof.
  unfold Apply.
  apply runs_bind; [apply runs_wrap, runs_version|]. intros dbType.
  apply runs_bind; [apply runs_wrap, runs_CreateTable|]. intros _.
  apply runs_bind; [apply runs_wrap, runs_History|]. intros entries.
  apply runs_bind; [apply runs_lift|]. intros _.
  apply runs_bind; [apply runs_lift|]. intros groups.
  apply runs_bind; [apply runs_lift|]. intros groups'.
  apply runs_apply_groups.
Qed.

End WithHandles.

End SimFacts.

Module MustFacts.

Import GoString Spec Sqlm Sim SimFacts.

Section WithUser.
Context {RT : Runtime} {U : Type} {USQL : RefDB.UserSQL U}.

(** Inside a transaction the handle answers as the database it works on. *)
Lemma transaction_alike (c0 : RefDB.t U) :
  alike (D1 := sql_Tx (SqlDB := TxRef.handle)) (D2 := RefDB.handle)
    (fun s db => TxRef.working s = Some db /\ TxRef.committed s = c0).
Proof.
  split; intros s1 s2 q a [Hw Hc]; cbn; unfold TxRef.exec, TxRef.query; rewrite Hw.
  - destruct (RefDB.exec s2 q a) as [db' r]. cbn. by rewrite Hc.
  - destruct (RefDB.query s2 q a) as [db' r]. cbn. by rewrite Hc.
Qed.

(** [Apply] inside a transaction is [Apply] on the working state. *)
Lemma Apply_in_transaction seed1 seed2 migrations (w : world (TxRef.t U)) :
  let w0 := World (TxRef.committed (w_db w)) (w_clock w) (w_trace w) in
  let r1 := Apply (DBI := sql_Tx (SqlDB := TxRef.handle)) seed1 seed2 migrations
              (Must.with_db w (TxRef.mk (TxRef.committed (w_db w))
                                        (Some (TxRef.committed (w_db w))))) in
  let r2 := Apply (DBI := RefDB.handle) seed1 seed2 migrations w0 in
  r1.1 = r2.1
  /\ TxRef.working (w_db r1.2) = Some (w_db r2.2)
  /\ TxRef.committed (w_db r1.2) = TxRef.committed (w_db w).
Proof.
  intros w0 r1 r2.
  destruct (runs_Apply _ (transaction_alike (TxRef.committed (w_db w)))
              seed1 seed2 migrations
              (Must.with_db w (TxRef.mk (TxRef.committed (w_db w))
                                        (Some (TxRef.committed (w_db w))))) w0)
    as (Hr & (Hw & Hc) & _); [by split_and!|]. by split_and!.
Qed.

End WithUser.

End MustFacts.

(** X21: on a database whose transactions cover every statement,
    [MustMigrate] is all or nothing. When it panics, the committed state is
    the one before the call: no statement of a migration and no history
    row is kept, the row of a failed migration included. When it returns,
    the committed history table holds, for every migration supplied, a
    success row with its checksum. *)
Theorem must_migrate_all_or_nothing {RT : Runtime} {U : Type} {USQL : RefDB.UserSQL U}
    (seed1 seed2 : list nat) (migrations : list Migration) (w : world (TxRef.t U)) :
  match (Must.MustMigrate (SQL := TxRef.handle) seed1 seed2 migrations w).1 with
  | Must.Panicked _ =>
      TxRef.committed
        (w_db (Must.s_world
                 (Must.MustMigrate (SQL := TxRef.handle) seed1 seed2 migrations w).2))
      = TxRef.committed (w_db w)
  | Must.Returned =>
      forall m, m ∈ migrations ->
        exists row,
          RefDB.lookup_row
            (TxRef.committed
               (w_db (Must.s_world
                        (Must.MustMigrate (SQL := TxRef.handle) seed1 seed2 migrations w).2)))
            (Spec.migration_key m) = Some row
          /\ HistoryEntry.Status row = Sqlm.Success
          /\ HistoryEntry.Checksum row = Sqlm.hash m
  end.
Proof.
  unfold Must.MustMigrate. cbn [sql_BeginTx TxRef.handle].
  destruct (MustFacts.Apply_in_transaction seed1 seed2 migrations w) as (Hr & Hw & Hc).
  cbv zeta in Hr, Hw, Hc.
  destruct (Sqlm.Apply (DBI := sql_Tx) seed1 seed2 migrations (Must.with_db w _))
    as [[err|[]] w2] eqn:Ea; cbn [fst snd] in Hr, Hw, Hc.
  - cbn. exact Hc.
  - cbn [sql_Commit TxRef.handle]. rewrite Hw. cbn.
    destruct (Sqlm.Apply (DBI := RefDB.handle) seed1 seed2 migrations
                (World (TxRef.committed (w_db w)) (w_clock w) (w_trace w)))
      as [r2 w2'] eqn:Ea2.
    cbn [fst snd] in Hr, Hw |- *. subst r2.
    destruct (RecordFacts.Apply_ref_rows _ _ _ _ _ Ea2) as (T1 & HT1 & Hclean & Hrows).
    intros m Hm. destruct (Hrows m Hm) as (c & Hk & Hsum).
    exists (RefDB.entry_of (Spec.migration_key m) c).
    split_and!; [|by apply (Hclean (Spec.migration_key m) c)|done].
    unfold RefDB.lookup_row. rewrite HT1. cbn. by rewrite Hk.
Qed.

(** A failed migration under [MustMigrate]: the run is rolled back, and the
    committed database keeps neither the first migration nor the row of
    the failed one. *)
Example must_migrate_failure_leaves_nothing :
  (Must.MustMigrate (RT := Examples.runtime)
     (SQL := TxRef.handle (USQL := Examples.statements)) [] []
     [Examples.m "g" 1 ["CREATE TABLE a (id INT)"]; Examples.m "g" 2 ["FAIL"]]
     (TxRef.fresh true)).1
  = Must.Panicked (ErrExecuteMigration "g" 2 (StmtError "FAIL" "syntax error"))
  /\ TxRef.committed
       (w_db (Must.s_world
          (Must.MustMigrate (RT := Examples.runtime)
             (SQL := TxRef.handle (USQL := Examples.statements)) [] []
             [Examples.m "g" 1 ["CREATE TABLE a (id INT)"]; Examples.m "g" 2 ["FAIL"]]
             (TxRef.fresh true)).2))
     = RefDB.mk true None []
  /\ Must.s_tx
       (Must.MustMigrate (RT := Examples.runtime)
          (SQL := TxRef.handle (USQL := Examples.statements)) [] []
          [Examples.m "g" 1 ["CREATE TABLE a (id INT)"]; Examples.m "g" 2 ["FAIL"]]
          (TxRef.fresh true)).2
     = [TxBegin None; TxRollback None].
Proof. by vm_compute. Qed.

(** A rollback that is refused is printed; the panic is that of [Apply]. *)
Example must_migrate_rollback_refused :
  (Must.MustMigrate (RT := Examples.runtime) (SQL := NoRollback.handle 1) [] []
     [Examples.m "g" 1 ["CREATE TABLE a (id INT)"]] (World 0%nat 0%nat [])).1
  = Must.Panicked (ErrInsertHistory (ErrDriver "connection lost"))
  /\ Must.s_out
       (Must.MustMigrate (RT := Examples.runtime) (SQL := NoRollback.handle 1) [] []
          [Examples.m "g" 1 ["CREATE TABLE a (id INT)"]] (World 0%nat 0%nat [])).2
     = ("rollback refused" ++ GoString.nl)%string.
Proof. by vm_compute. Qed.

(** ** The splitter, segment by segment *)

Module SegmentFacts.

Import GoString GoStringFacts Utf8 Utf8Facts Parse Spec SplitFacts Shape ShapeFacts.

Lemma blank_valid r : valid r -> valid (blank r).
Proof.
  intros Hv. unfold blank. destruct (_ || _); [|done]. unfold valid. lia.
Qed.

Lemma collapse_valid rs : forall last, Forall valid rs -> Forall valid (collapse last rs).
Proof.
  induction rs as [|r rs IH]; intros last Hv; [constructor|].
  apply Forall_cons in Hv as [Hr Hv]. cbn [collapse].
  destruct (_ && _); [by apply IH|].
  constructor; [by apply blank_valid|by apply IH].
Qed.

(** The rune written last does not matter once the ends are trimmed. *)
Lemma collapse_start last rs :
  collapse 0 rs = collapse last rs \/ collapse 0 rs = 32 :: collapse last rs.
Proof.
  destruct rs as [|r rs]; [by left|]. cbn [collapse].
  change (0 =? 32) with false. cbn [andb].
  destruct (last =? 32) eqn:Hl; cbn [andb]; [|by left].
  destruct (blank r =? 32) eqn:Hb; [|by left].
  apply Z.eqb_eq in Hl, Hb. subst last. rewrite Hb. by right.
Qed.

Lemma trim_collapse last rs :
  trim_runes (collapse last rs) = trim_runes (collapse 0 rs).
Proof.
  destruct (collapse_start last rs) as [-> | ->]; [done|].
  unfold trim_runes. done.
Qed.

Lemma statement_of_from last seg :
  Forall valid seg ->
  TrimSpace (of_bytes (encode_all (collapse last seg))) = statement_of seg.
Proof.
  intros Hv. unfold statement_of.
  rewrite !TrimSpace_encoded by (by apply collapse_valid).
  by rewrite trim_collapse.
Qed.

(** The loop over the runes of one segment. *)
Lemma fold_scan_segment seg : forall st,
  Forall valid seg -> 59 ∉ seg ->
  exists lr,
    fold_left scan_rune seg st
    = {| stmts := stmts st;
         sb := (sb st ++ of_bytes (encode_all (collapse (lastRune st) seg)))%string;
         lastRune := lr |}
    /\ (forall rest, collapse lr rest
                     = collapse (default (lastRune st) (last (collapse (lastRune st) seg)))
                                rest).
Proof.
  induction seg as [|r seg IH]; intros st Hv Hno.
  - exists (lastRune st). destruct st. cbn. by rewrite string_app_nil_r.
  - apply Forall_cons in Hv as [Hr Hv].
    assert (Hr59 : r <> 59) by (intros ->; apply Hno; by left).
    assert (Hno' : 59 ∉ seg) by (intros H; apply Hno; by right).
    cbn [fold_left collapse]. unfold scan_rune at 2.
    replace (r =? 59) with false by lia. fold (blank r).
    destruct ((lastRune st =? 32) && (blank r =? 32)) eqn:Hskip.
    + destruct (IH st Hv Hno') as (lr & -> & Hlr). by exists lr.
    + destruct (IH {| stmts := stmts st; sb := WriteRune (sb st) (blank r);
                     lastRune := blank r |} Hv Hno') as (lr & -> & Hlr).
      exists lr. cbn [stmts sb lastRune] in *. split.
      * f_equal. unfold WriteRune. rewrite string_app_assoc, <- of_bytes_app. done.
      * intros rest. rewrite Hlr.
        destruct (collapse (blank r) seg) as [|x l] eqn:E; [reflexivity|].
        rewrite last_cons_cons.
        destruct (last (x :: l)) eqn:El; [done|]. by apply last_None in El.
Qed.

Lemma pieces_from_app cur rs :
  pieces_from cur rs
  = match pieces_from [] rs with
    | ([], rest) => ([], cur ++ rest)
    | (seg :: segs, rest) => ((cur ++ seg) :: segs, rest)
    end.
Proof.
  revert cur. induction rs as [|r rs IH]; intros cur.
  - cbn. by rewrite app_nil_r.
  - cbn [pieces_from]. destruct (r =? 59).
    + destruct (pieces_from [] rs) as [segs rest]. by rewrite app_nil_r.
    + rewrite (IH (cur ++ [r])), (IH ([] ++ [r])).
      destruct (pieces_from [] rs) as [[|seg segs] rest]; by rewrite <- ?app_assoc.
Qed.

(** The runes are their segments, each followed by its separator, and the
    rest; no segment holds a separator. *)
Lemma pieces_spec rs segs rest :
  pieces rs = (segs, rest) ->
  rs = mjoin (map (fun seg => seg ++ [59]) segs) ++ rest
  /\ Forall (fun seg => 59 ∉ seg) segs /\ 59 ∉ rest.
Proof.
  unfold pieces. revert segs rest. induction rs as [|r rs IH]; intros segs rest.
  - cbn. intros [= <- <-]. split_and!; [done|constructor|apply not_elem_of_nil].
  - cbn [pieces_from]. destruct (r =? 59) eqn:Hr.
    + apply Z.eqb_eq in Hr as ->.
      destruct (pieces_from [] rs) as [segs' rest'] eqn:E. intros [= <- <-].
      destruct (IH segs' rest' eq_refl) as (-> & Hs & Hrest).
      split_and!; [done| |done]. constructor; [apply not_elem_of_nil|done].
    + apply Z.eqb_neq in Hr. rewrite pieces_from_app.
      destruct (pieces_from [] rs) as [[|seg segs'] rest'] eqn:E; intros [= <- <-].
      * destruct (IH [] rest' eq_refl) as (-> & Hs & Hrest).
        split_and!; [done|constructor|].
        cbn. intros Hin. apply elem_of_cons in Hin as [Hin|Hin]; [by subst|done].
      * destruct (IH (seg :: segs') rest' eq_refl) as (-> & Hs & Hrest).
        apply Forall_cons in Hs as [Hseg Hs].
        split_and!; [done| |done]. constructor; [|done].
        cbn. intros Hin. apply elem_of_cons in Hin as [Hin|Hin]; [by subst|done].
Qed.

Lemma fold_scan_segments segs : forall st,
  Forall (Forall valid) segs -> Forall (fun seg => 59 ∉ seg) segs ->
  sb st = EmptyString ->
  exists lr,
    fold_left scan_rune (mjoin (map (fun seg => seg ++ [59]) segs)) st
    = {| stmts := stmts st ++ filter (fun s => s <> EmptyString) (map statement_of segs);
         sb := EmptyString;
         lastRune := lr |}.
Proof.
  induction segs as [|seg segs IH]; intros st Hv Hno Hsb.
  - exists (lastRune st). destruct st. cbn in *. subst. by rewrite app_nil_r.
  - apply Forall_cons in Hv as [Hv1 Hv]. apply Forall_cons in Hno as [Hno1 Hno].
    change (mjoin (map (fun seg => seg ++ [59]) (seg :: segs)))
      with ((seg ++ [59]) ++ mjoin (map (fun seg => seg ++ [59]) segs)).
    rewrite !fold_left_app.
    destruct (fold_scan_segment seg st Hv1 Hno1) as (lr & -> & _).
    rewrite Hsb, string_app_nil_l. cbn [fold_left].
    set (st1 := scan_rune _ 59).
    assert (Hst1 : st1 = {| stmts := stmts st
                                     ++ filter (fun s => s <> EmptyString) [statement_of seg];
                            sb := EmptyString; lastRune := lr |}).
    { unfold st1, scan_rune. change (59 =? 59) with true. cbn [sb stmts lastRune].
      rewrite statement_of_from by done. f_equal.
      destruct (statement_of seg) as [|c s] eqn:E.
      - cbn. by rewrite app_nil_r.
      - cbn [String.length Nat.ltb Nat.leb].
        by rewrite filter_cons_True, filter_nil by done. }
    rewrite Hst1.
    destruct (IH {| stmts := stmts st ++ filter (fun s => s <> EmptyString) [statement_of seg];
                    sb := EmptyString; lastRune := lr |} Hv Hno eq_refl) as (lr' & ->).
    exists lr'. cbn [stmts]. f_equal. rewrite <- app_assoc. f_equal.
    cbn [map]. destruct (decide (statement_of seg <> EmptyString)).
    + by rewrite !filter_cons_True by done.
    + by rewrite !filter_cons_False, filter_nil by done.
Qed.

End SegmentFacts.

(** X22: the splitter cuts the text left by the removal of the comments
    at its [;] and reads each segment on its own: a statement is the
    segment with carriage returns, line feeds and tabs turned into spaces,
    runs of spaces reduced to one and the white space at both ends
    removed; segments that come out empty are dropped; and the call fails
    exactly when the runes after the last [;] do not come out empty. The
    rune remembered across a [;] changes nothing. *)
Theorem splitter_by_segments {RT : Runtime} (str : string) :
  Parse.parseStatementsFromString str
  = Shape.by_segments (Utf8.runes (commentsRegex_ReplaceAllString str " ")).
Proof.
  unfold Parse.parseStatementsFromString, Shape.by_segments.
  pose proof (ShapeFacts.runes_valid (commentsRegex_ReplaceAllString str " ")) as Hv.
  destruct (Shape.pieces (Utf8.runes (commentsRegex_ReplaceAllString str " ")))
    as [segs rest] eqn:Ep.
  apply SegmentFacts.pieces_spec in Ep as (Heq & Hno & Hrest).
  rewrite Heq in Hv |- *. apply Forall_app in Hv as [Hv1 Hv2].
  rewrite fold_left_app.
  destruct (SegmentFacts.fold_scan_segments segs (Parse.Scanner [] EmptyString 0))
    as (lr & ->); [|done|done|].
  { apply Forall_forall. intros seg Hseg. apply Forall_forall. intros r Hr.
    rewrite Forall_forall in Hv1. apply Hv1. apply list_elem_of_join.
    exists (seg ++ [59]). split; [apply elem_of_app; by left|].
    apply list_elem_of_fmap. by exists seg. }
  match goal with |- context [fold_left Parse.scan_rune rest ?st] =>
    destruct (SegmentFacts.fold_scan_segment rest st Hv2 Hrest) as (lr' & -> & _)
  end.
  cbn [Parse.sb Parse.stmts Parse.lastRune].
  rewrite GoStringFacts.string_app_nil_l, SegmentFacts.statement_of_from by done.
  by rewrite app_nil_l.
Qed.

(** Two statements, a segment of white space only, and a rest of white
    space. *)
Example by_segments_example :
  Shape.pieces (Utf8.runes ("a  b;" ++ GoString.nl ++ ";c ; "))
  = ([Utf8.runes "a  b"; [10]; Utf8.runes "c "], [32])
  /\ Shape.by_segments (Utf8.runes ("a  b;" ++ GoString.nl ++ ";c ; "))
     = Ok ["a b"%string; "c"%string].
Proof. by vm_compute. Qed.

(** ** Blanks in the text of a migration *)

Module BlankFacts.

Import GoString Utf8 Parse Spec Shape.

(** A blank behind a blank is passed over. *)
Lemma scan_rune_blank_twice st x y :
  blank x = 32 -> blank y = 32 ->
  scan_rune (scan_rune st x) y = scan_rune st x.
Proof.
  intros Hx Hy.
  assert (Hx59 : (x =? 59) = false).
  { apply Z.eqb_neq. intros ->. by vm_compute in Hx. }
  assert (Hy59 : (y =? 59) = false).
  { apply Z.eqb_neq. intros ->. by vm_compute in Hy. }
  assert (Hsx : scan_rune st x
                = if lastRune st =? 32 then st
                  else {| stmts := stmts st; sb := WriteRune (sb st) 32; lastRune := 32 |}).
  { unfold scan_rune. rewrite Hx59. fold (blank x). rewrite Hx.
    change (32 =? 32) with true. by rewrite andb_true_r. }
  rewrite Hsx. destruct (lastRune st =? 32) eqn:Hl.
  - unfold scan_rune. rewrite Hy59. fold (blank y). by rewrite Hy, Hl.
  - unfold scan_rune. rewrite Hy59. fold (blank y). by rewrite Hy.
Qed.

(** The loop reads a rune through [blank] only. *)
Lemma scan_rune_blank st r : scan_rune st (blank r) = scan_rune st r.
Proof.
  unfold scan_rune. fold (blank r). fold (blank (blank r)).
  assert (Hbb : blank (blank r) = blank r).
  { unfold blank. destruct ((r =? 13) || (r =? 10) || (r =? 9)) eqn:E; [done|].
    by rewrite E. }
  assert (H59 : (blank r =? 59) = (r =? 59)).
  { unfold blank. destruct ((r =? 13) || (r =? 10) || (r =? 9)) eqn:E; [|done].
    symmetry. apply Z.eqb_neq. intros ->. done. }
  by rewrite Hbb, H59.
Qed.

Lemma fold_scan_blank rs : forall st,
  fold_left scan_rune (map blank rs) st = fold_left scan_rune rs st.
Proof.
  induction rs as [|r rs IH]; intros st; [done|].
  cbn [map fold_left]. by rewrite scan_rune_blank, IH.
Qed.

End BlankFacts.

(** X23: blanks do not count. Two texts whose runes, after the removal of
    the comments, differ only in which of carriage return, line feed, tab
    and space stands at a place give the same result; and so do two texts
    where one has a second blank behind a blank of the other. A file
    changed from LF to CRLF line ends, or indented again, keeps its
    statements, and with them its checksum. *)
Theorem blanks_do_not_count {RT : Runtime} (str1 str2 : string) :
  (map Shape.blank (Utf8.runes (commentsRegex_ReplaceAllString str1 " "))
   = map Shape.blank (Utf8.runes (commentsRegex_ReplaceAllString str2 " ")) ->
   Parse.parseStatementsFromString str1 = Parse.parseStatementsFromString str2)
  /\ (forall a b x y,
        Utf8.runes (commentsRegex_ReplaceAllString str1 " ") = a ++ [x] ++ b ->
        Utf8.runes (commentsRegex_ReplaceAllString str2 " ") = a ++ [x; y] ++ b ->
        Shape.blank x = 32 -> Shape.blank y = 32 ->
        Parse.parseStatementsFromString str1 = Parse.parseStatementsFromString str2).
Proof.
  split.
  - intros Heq. unfold Parse.parseStatementsFromString.
    rewrite <- (BlankFacts.fold_scan_blank (Utf8.runes (commentsRegex_ReplaceAllString str1 " "))).
    rewrite <- (BlankFacts.fold_scan_blank (Utf8.runes (commentsRegex_ReplaceAllString str2 " "))).
    by rewrite Heq.
  - intros a b x y H1 H2 Hx Hy. unfold Parse.parseStatementsFromString.
    rewrite H1, H2, !fold_left_app. cbn [fold_left].
    by rewrite BlankFacts.scan_rune_blank_twice.
Qed.

(** The same migration with LF and with CRLF line ends. *)
Example crlf_keeps_the_checksum :
  Parse.parseStatementsFromString (RT := Examples.runtime)
    ("CREATE TABLE a (" ++ GoString.nl ++ "  id INT" ++ GoString.nl ++ ");" ++ GoString.nl)
  = Ok ["CREATE TABLE a ( id INT )"%string]
  /\ Parse.parseStatementsFromString (RT := Examples.runtime)
       ("CREATE TABLE a (" ++ String (GoString.ascii_of 13) GoString.nl ++ "  id INT"
        ++ String (GoString.ascii_of 13) GoString.nl ++ ");"
        ++ String (GoString.ascii_of 13) GoString.nl)
     = Ok ["CREATE TABLE a ( id INT )"%string].
Proof. by vm_compute. Qed.

(** ** What [Apply] sends *)

Module CallFacts.

Import GoString Spec Sqlm ApplyFacts OrderFacts TraceFacts FailureFacts PlanFacts Terms.

Section WithDB.
Context {RT : Runtime} {S : Type} {DBI : DB S}.

Implicit Types w : world S.

Lemma emits_ret {E A} P (a : A) : emits (S := S) (E := E) P (ret a).
Proof. intros w r w' [= <- <-]. exists []. by rewrite app_nil_r. Qed.

Lemma emits_lift {E A} P (x : res E A) : emits (S := S) P (lift x).
Proof. intros w r w' [= <- <-]. exists []. by rewrite app_nil_r. Qed.

Lemma emits_time_now {E} P : emits (S := S) (E := E) P time_now.
Proof. intros w r w' [= <- <-]. exists []. cbn. by rewrite app_nil_r. Qed.

Lemma emits_bind {E A B} P (m : M S E A) (k : A -> M S E B) :
  emits P m -> (forall a, emits P (k a)) -> emits P (bind m k).
Proof.
  intros Hm Hk w r w'. unfold bind.
  destruct (m w) as [[e|a] w1] eqn:Em; apply Hm in Em as (evs1 & Ht1 & H1).
  - intros [= <- <-]. by exists evs1.
  - intros H. apply Hk in H as (evs2 & Ht2 & H2).
    exists (evs1 ++ evs2). split; [by rewrite Ht2, Ht1, <- app_assoc|by apply Forall_app].
Qed.

Lemma emits_wrap {E E' A} P (f : E -> E') (m : M S E A) : emits P m -> emits P (wrap f m).
Proof.
  intros Hm w r w'. unfold wrap.
  destruct (m w) as [[e|a] w1] eqn:Em; apply Hm in Em as (evs1 & Ht1 & H1);
    intros [= <- <-]; by exists evs1.
Qed.

Lemma emits_call_Exec P at_ q args :
  (forall err, P (Event at_ q args err)) -> emits P (call_Exec at_ q args).
Proof.
  intros HP w r w'.
  destruct (call_Exec_spec at_ q args w) as (db & x & _ & ->).
  intros [= <- <-]. eexists [_]. split; [done|]. by apply Forall_singleton.
Qed.

Lemma emits_call_Query P at_ q args :
  (forall err, P (Event at_ q args err)) -> emits P (call_Query at_ q args).
Proof.
  intros HP w r w'.
  destruct (call_Query_spec at_ q args w) as (db & x & _ & ->).
  intros [= <- <-]. eexists [_]. split; [done|]. by apply Forall_singleton.
Qed.

Lemma emits_version pg ms : emits (allowed pg ms) version.
Proof.
  unfold version. apply emits_bind; [apply emits_wrap, emits_call_Query; by intros err|].
  intros rows. apply emits_bind; [apply emits_wrap, emits_lift|].
  intros str. apply emits_lift.
Qed.

Lemma emits_CreateTable pg ms : emits (allowed pg ms) CreateTable.
Proof. apply emits_wrap, emits_call_Exec. by intros err. Qed.

Lemma emits_History pg ms : emits (allowed pg ms) History.
Proof.
  unfold History. apply emits_bind; [apply emits_wrap, emits_call_Query; by intros err|].
  intros rows. apply emits_bind; [apply emits_lift|].
  intros res_. destruct (rows_Err rows); [apply emits_lift|apply emits_ret].
Qed.

Lemma emits_execute_stmts pg m stmts :
  (forall s, s ∈ stmts -> s ∈ Migration.Statements m) ->
  emits (allowed pg [m]) (execute_stmts stmts).
Proof.
  induction stmts as [|stmt stmts IH]; intros Hin; [apply emits_ret|].
  cbn [execute_stmts]. apply emits_bind.
  - apply emits_wrap, emits_call_Exec. intros err. split; [done|].
    exists m. split; [by left|]. cbn. apply Hin. by left.
  - intros _. apply IH. intros s Hs. apply Hin. by right.
Qed.

Lemma emits_insert (pg : bool) m entry :
  entry_key entry = migration_key m -> HistoryEntry.Checksum entry = hash m ->
  emits (allowed pg [m]) (insert (if pg then PostgreSQL else MySQL) entry).
Proof.
  intros Hk Hc. unfold insert. rewrite RefFacts.insert_stmt_dialect.
  apply emits_wrap, emits_call_Exec. intros err. split; [done|].
  exists m, entry. split_and!; [by left|done..].
Qed.

Lemma emits_update (pg : bool) m entry :
  entry_key entry = migration_key m -> HistoryEntry.Checksum entry = hash m ->
  emits (allowed pg [m]) (update (if pg then PostgreSQL else MySQL) entry).
Proof.
  intros Hk Hc. unfold update. rewrite RefFacts.update_stmt_dialect.
  apply emits_wrap, emits_call_Exec. intros err. split; [done|].
  exists m, entry. split_and!; [by left|done..].
Qed.

Lemma emits_apply_migration (pg : bool) m :
  emits (allowed pg [m]) (apply_migration (if pg then PostgreSQL else MySQL) m).
Proof.
  unfold apply_migration.
  apply emits_bind; [apply emits_time_now|]. intros appliedAt.
  apply emits_bind; [apply emits_time_now|]. intros start.
  apply emits_bind; [by apply emits_wrap, emits_insert|]. intros _.
  intros w r w'. unfold execute.
  destruct (execute_stmts (Migration.Statements m) w) as [[err|[]] w1] eqn:Ee;
    apply (emits_execute_stmts pg m) in Ee as (evs1 & Ht1 & H1); try done.
  - match goal with |- context [update ?d ?e w1] =>
      destruct (update d e w1) as [ru w2] eqn:Eu;
      apply (emits_update pg m e) in Eu as (evs2 & Ht2 & H2); [|done|done]
    end.
    intros [= <- <-]. exists (evs1 ++ evs2).
    split; [by rewrite Ht2, Ht1, <- app_assoc|by apply Forall_app].
  - intros H.
    eapply (emits_bind (allowed pg [m]) time_now) in H as (evs2 & Ht2 & H2).
    + exists (evs1 ++ evs2).
      split; [by rewrite Ht2, Ht1, <- app_assoc|by apply Forall_app].
    + apply emits_time_now.
    + intros finished. by apply emits_wrap, emits_update.
Qed.

Lemma allowed_more pg ms ms' e :
  (forall m, m ∈ ms -> m ∈ ms') -> allowed pg ms e -> allowed pg ms' e.
Proof.
  intros Hsub. unfold allowed. destruct (ev_site e); try done.
  - intros [Hq (m & entry & Hin & Hrest)]. split; [done|]. exists m, entry.
    split; [by apply Hsub|done].
  - intros [Hq (m & entry & Hin & Hrest)]. split; [done|]. exists m, entry.
    split; [by apply Hsub|done].
  - intros [Ha (m & Hin & Hs)]. split; [done|]. exists m. split; [by apply Hsub|done].
Qed.

Lemma emits_more {E A} pg ms ms' (m : M S E A) :
  (forall x, x ∈ ms -> x ∈ ms') -> emits (allowed pg ms) m -> emits (allowed pg ms') m.
Proof.
  intros Hsub Hm w r w' H. apply Hm in H as (evs & Ht & Hall).
  exists evs. split; [done|]. eapply Forall_impl; [exact Hall|].
  intros e. by apply allowed_more.
Qed.

Lemma emits_apply_candidates (pg : bool) candidates :
  emits (allowed pg candidates)
        (apply_candidates (if pg then PostgreSQL else MySQL) candidates).
Proof.
  induction candidates as [|m candidates IH]; [apply emits_ret|].
  cbn [apply_candidates]. apply emits_bind.
  - eapply emits_more; [|apply emits_apply_migration].
    intros x Hx. apply list_elem_of_singleton in Hx as ->. by left.
  - intros _. eapply emits_more; [|exact IH]. intros x Hx. by right.
Qed.

(** The dialect [version] returns is one of the two. *)
Lemma version_dialect w dbType w' :
  version w = (Ok dbType, w') ->
  exists pg : bool, dbType = if pg then PostgreSQL else MySQL.
Proof.
  unfold version, bind, wrap, lift.
  destruct (call_Query AtVersion versionQuery [] w) as [[e|rows] w1]; [done|].
  destruct (version_scan (rows_cells rows) EmptyString) as [e|str]; [done|].
  unfold version_of.
  destruct (Contains _ "postgresql"); [intros [= <- <-]; by exists true|].
  destruct (Contains _ "mariadb"); [intros [= <- <-]; by exists false|].
  destruct (Contains _ "mysql"); [intros [= <- <-]; by exists false|done].
Qed.

Lemma emits_Apply seed1 seed2 migrations w r w' :
  Apply seed1 seed2 migrations w = (r, w') ->
  exists (pg : bool) evs,
    w_trace w' = w_trace w ++ evs /\ Forall (allowed pg migrations) evs.
Proof.
  unfold Apply, bind at 1.
  destruct (wrap ErrUnknownDatabaseType version w) as [[e|dbType] w1] eqn:Ev.
  { intros [= <- <-].
    apply (emits_wrap (allowed true migrations) _ _ (emits_version true migrations))
      in Ev as (evs & Ht & H).
    by exists true, evs. }
  assert (Hpg : exists pg : bool, dbType = if pg then PostgreSQL else MySQL).
  { unfold wrap in Ev. destruct (version w) as [[e|d] w0] eqn:Ev0; [done|].
    injection Ev as -> ->. by eapply version_dialect. }
  destruct Hpg as [pg ->].
  apply (emits_wrap (allowed pg migrations) _ _ (emits_version pg migrations))
    in Ev as (evs1 & Ht1 & H1).
  intros H.
  assert (Hrest : emits (allowed pg migrations)
            (let* _ := wrap ErrCannotCreateTable CreateTable in
             let* entries := wrap ErrCannotGetHistory History in
             let* _ := lift (check_dirty entries) in
             let* groups := lift (group_pending entries migrations ∅) in
             let* groups := lift (uniqueness_check (range_keys seed1 groups) groups) in
             apply_groups (if pg then PostgreSQL else MySQL) (range_keys seed2 groups)
               groups)).
  { apply emits_bind; [apply emits_wrap, emits_CreateTable|]. intros _.
    apply emits_bind; [apply emits_wrap, emits_History|]. intros entries.
    apply emits_bind; [apply emits_lift|]. intros _.
    intros w2 r2 w2'. unfold bind at 1, lift at 1.
    destruct (group_pending entries migrations ∅) as [e|groups0] eqn:Eg.
    { intros [= <- <-]. exists []. by rewrite app_nil_r. }
    unfold bind at 1, lift at 1.
    destruct (uniqueness_check (range_keys seed1 groups0) groups0) as [e|groups] eqn:Eu.
    { intros [= <- <-]. exists []. by rewrite app_nil_r. }
    rewrite apply_groups_plan. intros Ha.
    apply emits_apply_candidates in Ha as (evs & Ht & Hall).
    exists evs. split; [done|]. eapply Forall_impl; [exact Hall|].
    intros e. apply allowed_more. intros m Hm.
    by eapply (elem_of_plan entries migrations groups0 seed1 seed2 groups m) in Hm as [Hm _]. }
  apply Hrest in H as (evs2 & Ht2 & H2).
  exists pg, (evs1 ++ evs2).
  split; [by rewrite Ht2, Ht1, <- app_assoc|by apply Forall_app].
Qed.

End WithDB.

End CallFacts.

(** X24: [Apply] sends nothing of its own making but the version query,
    the creation of the history table and the history query, each without
    arguments, and the insert and the update of the history row of a
    migration supplied, always in the statement of one and the same
    dialect (never the empty statement of an unknown one); every other
    call is a statement of a migration supplied, sent as it is and without
    arguments. *)
Theorem apply_sends_only {RT : Runtime} {S : Type} {DBI : DB S}
    (seed1 seed2 : list nat) (migrations : list Migration) (w : world S) :
  exists pg : bool,
    Forall (Terms.allowed pg migrations)
           (Spec.calls_since w (Sqlm.Apply seed1 seed2 migrations w).2).
Proof.
  destruct (Sqlm.Apply seed1 seed2 migrations w) as [r w'] eqn:Ea. cbn [snd].
  apply CallFacts.emits_Apply in Ea as (pg & evs & Ht & Hall).
  exists pg. by rewrite (ApplyFacts.calls_since_app w w' evs Ht).
Qed.

(** ** When [Apply] goes through *)

Module ProgressFacts.

Import GoString Spec Sqlm RefDB ApplyFacts OrderFacts TraceFacts FailureFacts PlanFacts
       RefFacts IdempotenceFacts Terms RefTerms.

Lemma uniqueness_check_nonneg keys : forall groups,
  (forall k m, m ∈ default [] (groups !! k) -> 0 <= Migration.Version m) ->
  exists groups', uniqueness_check keys groups = Ok groups'.
Proof.
  induction keys as [|k0 keys IH]; intros groups Hall; [by eexists|].
  cbn [uniqueness_check]. fold by_version.
  set (cands := sort_Slice by_version (default [] (groups !! k0))).
  assert (Hperm : cands ≡ₚ default [] (groups !! k0)) by apply sort_Slice_perm.
  assert (Hc : check_versions (-1) cands = Ok tt).
  { apply check_versions_negative, Forall_forall. intros m Hm.
    apply (Hall k0). by rewrite <- Hperm. }
  rewrite Hc. apply IH. intros k m Hm.
  destruct (decide (k = k0)) as [->|Hne].
  - rewrite lookup_insert_eq in Hm. cbn in Hm. apply (Hall k0). by rewrite <- Hperm.
  - rewrite lookup_insert_ne in Hm by done. by apply (Hall k).
Qed.

(** The keys of the candidates of the groups in a row are distinct when
    those of every group are. *)
Lemma plan_keys_NoDup keys (groups : gmap string (list Migration)) :
  NoDup keys ->
  (forall k, Forall (fun m => Migration.Group m = k) (default [] (groups !! k))) ->
  (forall k, NoDup (map migration_key (default [] (groups !! k)))) ->
  NoDup (map migration_key (plan keys groups)).
Proof.
  intros Hnd Hgroup Hkeys. unfold plan.
  induction Hnd as [|k keys Hk Hnd IH]; [constructor|].
  cbn [map mjoin list_join]. rewrite map_app. apply NoDup_app. split_and!.
  - apply Hkeys.
  - intros key Hin1 Hin2.
    apply list_elem_of_fmap in Hin1 as (m1 & -> & Hm1).
    apply list_elem_of_fmap in Hin2 as (m2 & Heq & Hm2).
    apply list_elem_of_join in Hm2 as (l & Hm2 & Hl).
    apply list_elem_of_fmap in Hl as (k' & -> & Hk').
    pose proof (Hgroup k) as H1. pose proof (Hgroup k') as H2.
    rewrite Forall_forall in H1, H2.
    specialize (H1 m1 Hm1). specialize (H2 m2 Hm2).
    unfold migration_key in Heq. injection Heq as Hg _.
    apply Hk. congruence.
  - exact IH.
Qed.

Lemma NoDup_fmap_filter {A B} (f : A -> B) (P : A -> Prop) `{!forall x, Decision (P x)}
    (l : list A) :
  NoDup (map f l) -> NoDup (map f (filter P l)).
Proof.
  induction l as [|x l IH]; [done|]. cbn [map]. intros Hnd.
  apply NoDup_cons in Hnd as [Hx Hnd].
  destruct (decide (P x)).
  - rewrite filter_cons_True by done. cbn [map]. apply NoDup_cons. split; [|by apply IH].
    intros Hin. apply Hx. apply list_elem_of_fmap in Hin as (y & -> & Hy).
    apply list_elem_of_filter in Hy as [_ Hy]. apply list_elem_of_fmap. by exists y.
  - rewrite filter_cons_False by done. by apply IH.
Qed.

Section WithUser.
Context {RT : Runtime} {U : Type} {USQL : UserSQL U}.

Lemma exec_goes_through (db : RefDB.t U) s T :
  table db = Some T -> goes_through (postgres db) s ->
  exists db', exec db s [] = (db', None)
              /\ table db' = Some T /\ postgres db' = postgres db.
Proof.
  intros HT (Hi & Hu & Hrun). unfold exec.
  destruct (String.eqb s createMigrationTable).
  { eexists. split; [reflexivity|]. by rewrite HT. }
  destruct (String.eqb s (insert_stmt (postgres db))) eqn:E1;
    [by apply String.eqb_eq in E1|].
  destruct (String.eqb s (update_stmt (postgres db))) eqn:E2;
    [by apply String.eqb_eq in E2|].
  specialize (Hrun (user db)).
  destruct (run_statement (user db) s) as [u r]. cbn in Hrun. subst r.
  by eexists.
Qed.

Lemma execute_stmts_goes_through stmts : forall (w : world (RefDB.t U)) T,
  table (w_db w) = Some T ->
  Forall (goes_through (postgres (w_db w))) stmts ->
  exists w', execute_stmts (DBI := RefDB.handle) stmts w = (Ok tt, w')
             /\ table (w_db w') = Some T /\ postgres (w_db w') = postgres (w_db w).
Proof.
  induction stmts as [|stmt stmts IH]; intros w T HT Hall.
  - by exists w.
  - apply Forall_cons in Hall as [Hs Hall].
    cbn [execute_stmts]. unfold bind, wrap, call_Exec. cbn [Exec handle].
    destruct (exec_goes_through (w_db w) stmt T HT Hs) as (db' & -> & HT' & Hpg').
    destruct (IH (World db' (w_clock w)
                    (w_trace w ++ [Event AtExecute stmt [] None])) T)
      as (w' & Hw' & HT'' & Hpg''); [done|by cbn; rewrite Hpg'|].
    exists w'. split; [done|]. split; [done|]. cbn in Hpg''. congruence.
Qed.

Lemma apply_migration_goes_through dbType m (w : world (RefDB.t U)) T :
  table (w_db w) = Some T -> dbType = dialect (w_db w) ->
  T !! migration_key m = None ->
  Forall (goes_through (postgres (w_db w))) (Migration.Statements m) ->
  exists w' c,
    apply_migration (DBI := RefDB.handle) dbType m w = (Ok tt, w')
    /\ table (w_db w') = Some (<[migration_key m := c]> T)
    /\ postgres (w_db w') = postgres (w_db w).
Proof.
  intros HT Hd Hnone Hall. unfold apply_migration, bind, time_now. simpl.
  unfold wrap at 1.
  erewrite insert_ref; [|exact HT|exact Hd]. simpl.
  change (key _) with (migration_key m). rewrite Hnone.
  unfold execute.
  match goal with |- context [execute_stmts _ ?w0] =>
    destruct (execute_stmts_goes_through (Migration.Statements m) w0
                (<[migration_key m := columns_of
                     (entry_executing m (time_Now (w_clock w)))]> T))
      as (w2 & -> & HT2 & Hpg2); [reflexivity|exact Hall|]
  end.
  simpl in Hpg2.
  assert (Hd2 : dbType = dialect (w_db w2)) by (by rewrite Hd; unfold dialect; rewrite Hpg2).
  unfold wrap. erewrite update_ref; [|exact HT2|exact Hd2].
  eexists _, _. split; [reflexivity|]. cbn. split; [|done].
  by rewrite alter_insert_eq.
Qed.

Lemma apply_candidates_goes_through dbType candidates : forall (w : world (RefDB.t U)) T,
  table (w_db w) = Some T -> dbType = dialect (w_db w) ->
  NoDup (map migration_key candidates) ->
  Forall (fun m => T !! migration_key m = None) candidates ->
  Forall (fun m => Forall (goes_through (postgres (w_db w))) (Migration.Statements m))
         candidates ->
  exists w', apply_candidates (DBI := RefDB.handle) dbType candidates w = (Ok tt, w').
Proof.
  induction candidates as [|m candidates IH]; intros w T HT Hd Hnd Hnone Hall.
  - by exists w.
  - cbn [map] in Hnd. apply NoDup_cons in Hnd as [Hm Hnd].
    apply Forall_cons in Hnone as [Hnone1 Hnone]. apply Forall_cons in Hall as [Hall1 Hall].
    cbn [apply_candidates]. unfold bind.
    destruct (apply_migration_goes_through dbType m w T HT Hd Hnone1 Hall1)
      as (w1 & c & -> & HT1 & Hpg1).
    apply (IH w1 (<[migration_key m := c]> T)); [done| |done| |].
    + by rewrite Hd; unfold dialect; rewrite Hpg1.
    + apply Forall_forall. intros m' Hm'. rewrite lookup_insert_ne.
      * rewrite Forall_forall in Hnone. by apply Hnone.
      * intros Heq. apply Hm. rewrite Heq. apply list_elem_of_fmap. by exists m'.
    + by rewrite Hpg1.
Qed.

Lemma pending_has_no_row (db : RefDB.t U) m :
  is_pending (history db) m = true ->
  default ∅ (table db) !! migration_key m = None.
Proof.
  intros Hp. destruct (default ∅ (table db) !! migration_key m) as [c|] eqn:E; [|done].
  exfalso. unfold is_pending in Hp. apply negb_true_iff in Hp.
  assert (Hex : existsb (fun e => String.eqb (Migration.Group m) (HistoryEntry.Group e)
                          && (Migration.Version m =? HistoryEntry.Version e))
                        (history db) = true); [|congruence].
  apply existsb_exists. exists (entry_of (migration_key m) c). split.
  - apply list_elem_of_In, elem_of_history. by exists (migration_key m), c.
  - cbn. by rewrite String.eqb_refl, Z.eqb_refl.
Qed.

End WithUser.

End ProgressFacts.

(** X25: on a database that keeps the history table as the engine
    expects, [Apply] returns nil whenever nothing stands in its way: the
    history is clean and agrees with the migrations supplied, the
    migrations supplied have versions from 0 on, those without a row have
    distinct groups and versions, and their statements go through. *)
Theorem apply_goes_through {RT : Runtime} {U : Type} {USQL : RefDB.UserSQL U}
    (seed1 seed2 : list nat) (migrations : list Migration) (w : world (RefDB.t U)) :
  Forall (fun e => HistoryEntry.Status e = Sqlm.Success) (RefDB.history (w_db w)) ->
  Terms.no_drift (RefDB.history (w_db w)) migrations ->
  Forall (fun m => 0 <= Migration.Version m) migrations ->
  NoDup (map Spec.migration_key (RefTerms.pending (RefDB.history (w_db w)) migrations)) ->
  Forall (fun m => Forall (RefTerms.goes_through (RefDB.postgres (w_db w)))
                          (Migration.Statements m)) migrations ->
  (Sqlm.Apply (DBI := RefDB.handle) seed1 seed2 migrations w).1 = Ok tt.
Proof.
  intros Hclean Hno Hver Hnd Hstmts.
  rewrite ApplyFacts.Apply_load, RefFacts.load_history_ref.
  set (T0 := default ∅ (RefDB.table (w_db w))) in *.
  set (db0 := RefDB.mk (RefDB.postgres (w_db w)) (Some T0) (RefDB.user (w_db w))) in *.
  change (RefDB.history db0) with (RefDB.history (w_db w)).
  apply ApplyFacts.check_dirty_Ok in Hclean. rewrite Hclean.
  destruct (RunFacts.group_pending_agree _ _ ∅ Hno) as (groups0 & Hg). rewrite Hg.
  destruct (ProgressFacts.uniqueness_check_nonneg (Sqlm.range_keys seed1 groups0) groups0)
    as (groups & Hu).
  { intros k m Hm. rewrite (RunFacts.pending_groups _ _ _ _ Hg) in Hm.
    apply RunFacts.elem_of_candidates_of in Hm as (Hm & _).
    rewrite Forall_forall in Hver. by apply Hver. }
  rewrite Hu, FailureFacts.apply_groups_plan.
  match goal with |- context [Sqlm.apply_candidates ?d ?cs ?w0] =>
    destruct (ProgressFacts.apply_candidates_goes_through d cs w0 T0)
      as (w' & ->); [reflexivity|reflexivity| | | |done]
  end.
  - apply ProgressFacts.plan_keys_NoDup.
    + apply OrderFacts.range_keys_NoDup.
    + intros k. rewrite (PlanFacts.checked_groups _ _ _ _ _ k Hg Hu).
      rewrite OrderFacts.sort_Slice_perm. apply PlanFacts.candidates_of_group.
    + intros k. rewrite (PlanFacts.checked_groups _ _ _ _ _ k Hg Hu).
      rewrite OrderFacts.sort_Slice_perm.
      unfold Spec.candidates_of. by apply ProgressFacts.NoDup_fmap_filter.
  - apply Forall_forall. intros m Hm.
    eapply PlanFacts.elem_of_plan in Hm as [_ Hp]; [|exact Hg|exact Hu].
    by apply (ProgressFacts.pending_has_no_row (w_db w)).
  - apply Forall_forall. intros m Hm.
    eapply PlanFacts.elem_of_plan in Hm as [Hm _]; [|exact Hg|exact Hu].
    rewrite Forall_forall in Hstmts. by apply Hstmts.
Qed.

Lemma apply_goes_through_witness :
  (Sqlm.Apply (RT := Examples.runtime) (DBI := RefDB.handle (USQL := Examples.statements))
     [] [] [Examples.m "g" 2 ["CREATE TABLE c (id INT)"];
            Examples.m "g" 1 ["CREATE TABLE a (id INT)"]] Examples.applied_world).1
  = Ok tt.
Proof.
  apply (apply_goes_through (RT := Examples.runtime) (USQL := Examples.statements)).
  - vm_compute. repeat constructor.
  - intros m e Hm He Hk. vm_compute in He.
    repeat (apply elem_of_cons in Hm as [->|Hm];
            [repeat (apply elem_of_cons in He as [->|He];
                     [by vm_compute in Hk; vm_compute|]);
             by apply elem_of_nil in He|]).
    by apply elem_of_nil in Hm.
  - repeat constructor; by vm_compute.
  - vm_compute. repeat constructor; intros H;
      repeat (apply elem_of_cons in H as [H|H]; [discriminate H|]);
      by apply elem_of_nil in H.
  - repeat constructor; try (by vm_compute); intros u; by vm_compute.
Defined.
